(** * minimega: the KVM lifecycle engine and the igor housekeeper

    A shallow embedding of [src/minimega/kvm.go], of the housekeeper and the
    command dispatch of [src/igor/main.go] and of the shared connection of
    [cmd/miniweb/miniclient.go], with the properties the specification states
    about them and further properties of the code.  Each Go function keeps
    its name; the Go constructs are rendered as follows.

    - [int] and [uint64] values are [Z] and [N]; the code only counts with
      them, far below the point where they would wrap.
    - [float64] is Rocq's primitive binary64 [float], so that [/] and [==]
      are the IEEE operations the Go code executes.
    - [map[K]V] is stdpp's [gmap]; a nil map reads like the empty one.
    - [interface{}] values decoded from JSON are the inductive [value].
    - slices are headers (array address, length) over a store of arrays, so
      that two headers may share an array.
    - collaborators that live outside the file (the QMP connection, the igor
      backend, the switch driver) are Section variables acting on an abstract
      peer state. *)

From Stdlib Require Import ZArith NArith Floats List Ascii String Lia.
From Stdlib Require Import DecimalString HexadecimalString Sorted.
From stdpp Require Import gmap strings list.

Local Open Scope string_scope.
Local Open Scope list_scope.

(** ** Migration status: [KvmVM.QueryMigrate] *)

Module Migrate.

(** What [encoding/json] puts in an [interface{}]. *)
#[warnings="-register-all"]
Inductive value :=
| VNil
| VBool (b : bool)
| VFloat (f : float)
| VString (s : string)
| VList (l : list value)
| VMap (m : gmap string value).

Inductive error :=
| ErrQMP (e : string)
| ErrDecodeStatus (r : gmap string value)
| ErrDecodeRam
| ErrInvalidRamType (e : value)
| ErrZeroTotal.

(** A call either returns its three results or panics at a failed
    single-result type assertion. *)
Inductive outcome :=
| Return (status : string) (completed : float) (err : option error)
| Panic (asserted : string) (found : option value).

(** [x.(string)] and [x.(float64)] on the result of a map read: the read of a
    missing key gives the nil interface, on which the assertion panics too. *)
Definition assert_string (x : option value) (k : string -> outcome) : outcome :=
  match x with
  | Some (VString s) => k s
  | _ => Panic "string" x
  end.

Definition assert_float64 (x : option value) (k : float -> outcome) : outcome :=
  match x with
  | Some (VFloat f) => k f
  | _ => Panic "float64" x
  end.

(** The tail of the function, from [total := ram["total"].(float64)] on. *)
Definition ratio (status : string) (completed : float)
    (ram : gmap string value) : outcome :=
  assert_float64 (ram !! "total") (fun total =>
  assert_float64 (ram !! "transferred") (fun transferred =>
  if PrimFloat.eqb total 0%float
  then Return status completed (Some ErrZeroTotal)
  else Return status (transferred / total)%float None)).

(** [q] is what [vm.q.QueryMigrate()] gave: an error or the decoded reply. *)
Definition QueryMigrate (q : string + gmap string value) : outcome :=
  let status := "" in
  let completed := 0%float in
  match q with
  | inl err => Return "" 0%float (Some (ErrQMP err))
  | inr r =>
    match r !! "status" with
    | None => Return status completed (Some (ErrDecodeStatus r))
    | Some s =>
      assert_string (Some s) (fun status =>
      let ram : gmap string value := ∅ in
      if String.eqb status "completed" then
        let completed := 100%float in
        Return status completed None
      else if String.eqb status "failed" then
        Return status completed None
      else if String.eqb status "active" then
        match r !! "ram" with
        | None => Return status completed (Some ErrDecodeRam)
        | Some (VMap m) => ratio status completed m
        | Some e => Return status completed (Some (ErrInvalidRamType e))
        end
      else ratio status completed ram)
    end
  end.

(** The closed interval [0,1] on [float64]. *)
Definition in_unit_interval (c : float) : bool :=
  PrimFloat.leb 0%float c && PrimFloat.leb c 1%float.

Definition reply_status (s : string) : gmap string value :=
  {[ "status" := VString s ]}.

Definition reply_active (transferred total : float) : gmap string value :=
  <[ "ram" := VMap (<[ "transferred" := VFloat transferred ]>
                    {[ "total" := VFloat total ]}) ]>
  (reply_status "active").

End Migrate.

Module MigrateFacts.
Import Migrate.

Example completed_is_100 :
  QueryMigrate (inr (reply_status "completed")) = Return "completed" 100%float None.
Proof. reflexivity. Qed.

Example active_half :
  QueryMigrate (inr (reply_active 1 2)) = Return "active" 0.5%float None.
Proof. reflexivity. Qed.

(** C10. There is a well-formed reply, with the string status "setup" (none
    of "completed", "failed", "active"), on which QueryMigrate does not return:
    it reads "total" from the nil ram map and panics at the unguarded float64
    type assertion.  The same happens for the status "cancelled". *)
Theorem QueryMigrate_other_status_panics :
  exists r : gmap string value,
    r !! "status" = Some (VString "setup") /\
    QueryMigrate (inr r) = Panic "float64" None /\
    (forall s c e, QueryMigrate (inr r) <> Return s c e) /\
    QueryMigrate (inr (reply_status "cancelled")) = Panic "float64" None.
Proof.
  exists (reply_status "setup").
  split; [reflexivity|]. split; [reflexivity|]. split; [|reflexivity].
  intros s c e H. vm_compute in H. discriminate H.
Qed.

(** The claim of C1 fails at two replies: "completed" gives 100.0, which is
    neither 1.0 nor inside [0,1], and an "active" reply whose transferred
    exceeds its total gives a quotient above 1. *)
Lemma QueryMigrate_completed_not_unit :
  QueryMigrate (inr (reply_status "completed")) = Return "completed" 100%float None /\
  PrimFloat.eqb 100%float 1%float = false /\
  in_unit_interval 100%float = false /\
  QueryMigrate (inr (reply_active 2 1)) = Return "active" 2%float None /\
  in_unit_interval 2%float = false.
Proof. repeat split; reflexivity. Qed.

Lemma ratio_error_zero status c ram s c' e :
  ratio status c ram = Return s c' (Some e) -> c' = c.
Proof.
  unfold ratio, assert_float64.
  destruct (ram !! "total") as [[]|]; try discriminate.
  destruct (ram !! "transferred") as [[]|]; try discriminate.
  destruct (PrimFloat.eqb _ _); intros H; inversion H; reflexivity.
Qed.

(** C1 (amended). For a reply with status "completed" QueryMigrate returns
    that status without error; "failed" yields 0 without error; "active" with
    a ram object holding float64 total and transferred yields the float64
    quotient transferred/total, and total == 0 is reported as an error;
    whenever an error is returned the completed value is 0; and 0, the value
    of "failed" and of every error return, lies in [0,1]. *)
Theorem QueryMigrate_by_status (r : gmap string value) :
  (r !! "status" = Some (VString "completed") ->
     exists c, QueryMigrate (inr r) = Return "completed" c None) /\
  (r !! "status" = Some (VString "failed") ->
     QueryMigrate (inr r) = Return "failed" 0%float None) /\
  (forall m total transferred,
     r !! "status" = Some (VString "active") ->
     r !! "ram" = Some (VMap m) ->
     m !! "total" = Some (VFloat total) ->
     m !! "transferred" = Some (VFloat transferred) ->
     QueryMigrate (inr r) =
       if PrimFloat.eqb total 0%float
       then Return "active" 0%float (Some ErrZeroTotal)
       else Return "active" (transferred / total)%float None) /\
  (forall s c e, QueryMigrate (inr r) = Return s c (Some e) -> c = 0%float) /\
  in_unit_interval 0%float = true.
Proof.
  repeat split.
  - intros H. exists 100%float. unfold QueryMigrate. rewrite H. reflexivity.
  - intros H. unfold QueryMigrate. rewrite H. reflexivity.
  - intros m total transferred Hs Hr Ht Hx.
    unfold QueryMigrate. rewrite Hs. cbn. rewrite Hr.
    unfold ratio. rewrite Ht, Hx. reflexivity.
  - intros s c e. unfold QueryMigrate.
    destruct (r !! "status") as [v|]; [|intros H; inversion H; reflexivity].
    destruct v; cbn; try discriminate.
    destruct (String.eqb s0 "completed"); [discriminate|].
    destruct (String.eqb s0 "failed"); [discriminate|].
    destruct (String.eqb s0 "active").
    + destruct (r !! "ram") as [[]|];
        try (intros H; inversion H; reflexivity).
      apply ratio_error_zero.
    + apply ratio_error_zero.
Qed.

Lemma QueryMigrate_by_status_witness :
  QueryMigrate (inr (reply_active 1 4)) = Return "active" 0.25%float None /\
  QueryMigrate (inr (reply_active 1 0)) = Return "active" 0%float (Some ErrZeroTotal) /\
  QueryMigrate (inr (reply_status "failed")) = Return "failed" 0%float None.
Proof.
  split; [|split].
  - apply (proj1 (proj2 (proj2 (QueryMigrate_by_status (reply_active 1 4))))
             (<[ "transferred" := VFloat 1 ]> {[ "total" := VFloat 4 ]}) 4%float 1%float);
      reflexivity.
  - apply (proj1 (proj2 (proj2 (QueryMigrate_by_status (reply_active 1 0))))
             (<[ "transferred" := VFloat 1 ]> {[ "total" := VFloat 0 ]}) 0%float 1%float);
      reflexivity.
  - apply (proj1 (proj2 (QueryMigrate_by_status (reply_status "failed"))));
      reflexivity.
Defined.

Lemma ratio_panics status c (ram : gmap string value) :
  (exists a x, ratio status c ram = Panic a x) <->
  (~ (exists f, ram !! "total" = Some (VFloat f)) \/
   ~ (exists f, ram !! "transferred" = Some (VFloat f))).
Proof.
  unfold ratio, assert_float64.
  destruct (ram !! "total") as [[]|];
    try (split; [intros _; left; intros [f' H]; discriminate H|by eauto]).
  destruct (ram !! "transferred") as [[]|];
    try (split; [intros _; right; intros [f' H]; discriminate H|by eauto]).
  split.
  - intros (a & x & H). destruct (PrimFloat.eqb _ _); discriminate H.
  - intros [H|H]; exfalso; apply H; eauto.
Qed.

(** X1. QueryMigrate fails to return, panicking at a type assertion, in
    exactly three situations: the reply has a status that is not a string;
    the status is a string other than "completed", "failed" and "active";
    or the status is "active" and the ram object lacks a float64 total or a
    float64 transferred.  An error of the QMP call itself is returned, never
    a panic. *)
Theorem QueryMigrate_panics_iff (r : gmap string value) :
  let is_float (x : option value) := exists f, x = Some (VFloat f) in
  ((exists a x, QueryMigrate (inr r) = Panic a x) <->
   (exists v, r !! "status" = Some v /\ forall s, v <> VString s) \/
   (exists s, r !! "status" = Some (VString s) /\
              s <> "completed" /\ s <> "failed" /\ s <> "active") \/
   (exists m, r !! "status" = Some (VString "active") /\
              r !! "ram" = Some (VMap m) /\
              (~ is_float (m !! "total") \/ ~ is_float (m !! "transferred")))) /\
  (forall e, QueryMigrate (inl e) = Return "" 0%float (Some (ErrQMP e))).
Proof.
  cbv zeta. split; [|reflexivity].
  unfold QueryMigrate.
  destruct (r !! "status") as [v|] eqn:Es.
  2: { split; [intros (a & x & H); discriminate H|].
       intros [(v & H & _)|[(s & H & _)|(m & H & _)]]; discriminate H. }
  destruct v as [|b|f|s|l|m];
    try (cbn; split; [intros _; left; eexists; split; [reflexivity|discriminate]
                     |by eauto]).
  cbn [assert_string].
  destruct (String.eqb_spec s "completed") as [->|Hc].
  { split; [intros (a & x & H); discriminate H|].
    intros [(v & [= <-] & H)|[(s & [= <-] & H & _)|(m & [=] & _)]];
      [by destruct (H "completed")|done]. }
  destruct (String.eqb_spec s "failed") as [->|Hf].
  { split; [intros (a & x & H); discriminate H|].
    intros [(v & [= <-] & H)|[(s & [= <-] & _ & H & _)|(m & [=] & _)]];
      [by destruct (H "failed")|done]. }
  destruct (String.eqb_spec s "active") as [->|Ha].
  - destruct (r !! "ram") as [e|] eqn:Er.
    2: { split; [intros (a & x & H); discriminate H|].
         intros [(v & [= <-] & H)|[(s & [= <-] & _ & _ & H)|(m & _ & [=] & _)]];
           [by destruct (H "active")|done]. }
    destruct e as [|b|f|s|l|m];
      try (split; [intros (a & x & H); discriminate H|];
           intros [(v & [= <-] & H)|[(s' & [= <-] & _ & _ & H)|(m & _ & [=] & _)]];
           [by destruct (H "active")|done]).
    rewrite ratio_panics. split.
    + intros H. right. right. exists m. done.
    + intros [(v & [= <-] & H)|[(s' & [= <-] & _ & _ & H)|(m' & _ & [= <-] & H)]];
        [by destruct (H "active")|done|done].
  - rewrite ratio_panics. split.
    + intros _. right. left. exists s. done.
    + intros _. left. intros [f H]. by rewrite lookup_empty in H.
Qed.

End MigrateFacts.

(** ** Configurations and their copies: [KVMConfig.Copy] *)

Module Config.

(** A Go slice header.  [base] names the backing array, [off] is where the
    slice starts in it.  The nil slice has length and capacity 0. *)
Record slice := Slice { base : positive; off : nat; len : nat; cap : nat }.

Section Arrays.
Context {A : Type} (zero : A).

(** The arrays of element type [A] that are live, by address. *)
Local Abbreviation heap := (gmap positive (list A)).

(** The elements seen through a header. *)
Definition elems (h : heap) (s : slice) : list A :=
  match h !! base s with
  | Some a => take (len s) (drop (off s) a)
  | None => []
  end.

(** [make([]A, n)]: a fresh array of [n] zero values. *)
Definition make (n : nat) (h : heap) : slice * heap :=
  let l := fresh (dom h) in
  (Slice l 0 n n, <[l := replicate n zero]> h).

(** [copy(dst, src)]: the first [min(len(dst), len(src))] elements. *)
Definition copy (dst src : slice) (h : heap) : heap :=
  let n := Nat.min (len dst) (len src) in
  match h !! base dst with
  | Some a => <[base dst := list_inserts (off dst) (take n (elems h src)) a]> h
  | None => h
  end.

(** [s[i] = v]; [None] is the index-out-of-range panic. *)
Definition set_index (s : slice) (i : nat) (v : A) (h : heap) : option heap :=
  if decide (i < len s) then
    match h !! base s with
    | Some a => Some (<[base s := <[off s + i := v]> a]> h)
    | None => None
    end
  else None.

(** A header is valid when it is empty or its window lies inside a live
    array. *)
Definition valid (h : heap) (s : slice) : Prop :=
  len s = 0 \/ exists a, h !! base s = Some a /\ off s + len s <= length a.
End Arrays.

Record qemuOverride := { Match : string; Repl : string }.

(** [KVMConfig], with [S] the type of a []string field and [O] the type of
    the []qemuOverride field: headers when the store is explicit, lists when
    only the contents matter. *)
Record KVMConfig (S O : Type) := {
  QemuPath : string;
  KernelPath : string;
  InitrdPath : string;
  CdromPath : string;
  MigratePath : string;
  CPU : string;
  SerialPorts : N;
  VirtioPorts : N;
  Append : S;
  DiskPaths : S;
  QemuAppend : S;
  QemuOverride : O
}.
Arguments QemuPath {S O}. Arguments KernelPath {S O}.
Arguments InitrdPath {S O}. Arguments CdromPath {S O}.
Arguments MigratePath {S O}. Arguments CPU {S O}.
Arguments SerialPorts {S O}. Arguments VirtioPorts {S O}.
Arguments Append {S O}. Arguments DiskPaths {S O}.
Arguments QemuAppend {S O}. Arguments QemuOverride {S O}.

Definition with_DiskPaths {S O} (d : S) (c : KVMConfig S O) : KVMConfig S O :=
  {| QemuPath := QemuPath c; KernelPath := KernelPath c;
     InitrdPath := InitrdPath c; CdromPath := CdromPath c;
     MigratePath := MigratePath c; CPU := CPU c;
     SerialPorts := SerialPorts c; VirtioPorts := VirtioPorts c;
     Append := Append c; DiskPaths := d;
     QemuAppend := QemuAppend c; QemuOverride := QemuOverride c |}.

Definition with_QemuAppend {S O} (q : S) (c : KVMConfig S O) : KVMConfig S O :=
  {| QemuPath := QemuPath c; KernelPath := KernelPath c;
     InitrdPath := InitrdPath c; CdromPath := CdromPath c;
     MigratePath := MigratePath c; CPU := CPU c;
     SerialPorts := SerialPorts c; VirtioPorts := VirtioPorts c;
     Append := Append c; DiskPaths := DiskPaths c;
     QemuAppend := q; QemuOverride := QemuOverride c |}.

(** The store: one address space per element type. *)
Record store := Store {
  strings : gmap positive (list string);
  overrides : gmap positive (list qemuOverride)
}.

Definition with_strings (h : gmap positive (list string)) (st : store) : store :=
  Store h (overrides st).

(** [KVMConfig.Copy], statement by statement. *)
Definition Copy (old : KVMConfig slice slice) (st : store)
    : KVMConfig slice slice * store :=
  let res := old in
  let '(d, h) := make "" (len (DiskPaths old)) (strings st) in
  let res := with_DiskPaths d res in
  let h := copy (DiskPaths res) (DiskPaths old) h in
  let '(q, h) := make "" (len (QemuAppend old)) h in
  let res := with_QemuAppend q res in
  let h := copy (QemuAppend res) (QemuAppend old) h in
  (res, with_strings h st).

(** The contents of a configuration in a store. *)
Definition contents (st : store) (c : KVMConfig slice slice)
    : KVMConfig (list string) (list qemuOverride) :=
  {| QemuPath := QemuPath c; KernelPath := KernelPath c;
     InitrdPath := InitrdPath c; CdromPath := CdromPath c;
     MigratePath := MigratePath c; CPU := CPU c;
     SerialPorts := SerialPorts c; VirtioPorts := VirtioPorts c;
     Append := elems (strings st) (Append c);
     DiskPaths := elems (strings st) (DiskPaths c);
     QemuAppend := elems (strings st) (QemuAppend c);
     QemuOverride := elems (overrides st) (QemuOverride c) |}.

(** A configuration whose four sequences each hold one element. *)
Definition sample_store : store :=
  Store (<[1%positive := ["ip=10.0.0.5"]]>
         (<[2%positive := ["/disk.img"]]>
         {[3%positive := ["-serial"]]}))
        {[1%positive := [{| Match := "-enable-kvm"; Repl := "-no-kvm" |}]]}.

Definition sample_config : KVMConfig slice slice :=
  {| QemuPath := ""; KernelPath := "/vmlinuz"; InitrdPath := "";
     CdromPath := ""; MigratePath := ""; CPU := "host";
     SerialPorts := 0; VirtioPorts := 0;
     Append := Slice 1 0 1 1; DiskPaths := Slice 2 0 1 1;
     QemuAppend := Slice 3 0 1 1; QemuOverride := Slice 1 0 1 1 |}.

End Config.

(** ** The argument builder: [VMConfig.qemuArgs] *)

Module Args.
Import Config.

Definition DEV_PER_BUS : Z := 32.
Definition DEV_PER_VIRTIO : N := 30.

(** Modelled from the spec: the element type of [Networks] is declared
    outside kvm.go; the data model gives it as {bridge, vlan, mac, driver,
    tap-name}, and qemuArgs reads [Tap], [Driver] and [MAC]. *)
Record NetConfig := {
  Bridge : string; VLAN : Z; MAC : string; Tap : string; Driver : string
}.

(** Modelled from the spec: [VMConfig] embeds [BaseConfig], declared outside
    kvm.go, and [KVMConfig]; qemuArgs reads these fields of the former. *)
Record VMConfig := {
  Memory : N;
  VCPUs : N;
  UUID : string;
  Snapshot : bool;
  Networks : list NetConfig;
  KVM : KVMConfig (list string) (list qemuOverride)
}.

(** [strconv.Itoa] and the verb %v on an int; [strconv.FormatUint(_, 10)]
    and %v on a uint64; the verb %x on an int. *)
Definition itoa (z : Z) : string :=
  DecimalString.NilZero.string_of_int (Z.to_int z).
Definition utoa (n : N) : string :=
  DecimalString.NilZero.string_of_uint (N.to_uint n).
Definition hex (z : Z) : string :=
  HexadecimalString.NilZero.string_of_int (Z.to_hex_int z).

(** One element of the vector.  The three tokens that name a place on a PCI
    bus keep the numbers they were formatted from; every other token is the
    string the source computes. *)
Inductive arg :=
| Str (s : string)
| PciBridge (bus : Z)
| NetDevice (net : NetConfig) (bus addr : Z)
| VirtioSerialPci (virtio_slot bus addr : Z).

(** The [fmt.Sprintf] of each token. *)
Definition render (a : arg) : string :=
  match a with
  | Str s => s
  | PciBridge bus =>
      "pci-bridge,id=pci." +:+ itoa bus +:+ ",chassis_nr=" +:+ itoa bus
  | NetDevice net bus addr =>
      "driver=" +:+ Driver net +:+ ",netdev=" +:+ Tap net +:+ ",mac=" +:+ MAC net
      +:+ ",bus=pci." +:+ itoa bus +:+ ",addr=0x" +:+ hex addr
  | VirtioSerialPci virtio_slot bus addr =>
      "virtio-serial-pci,id=virtio-serial" +:+ itoa virtio_slot
      +:+ ",bus=pci." +:+ itoa bus +:+ ",addr=0x" +:+ hex addr
  end.

(** The variables the closure [addBus] shares with the body. *)
Record builder := Builder { args : list arg; bus : Z; addr : Z }.

Definition append (ts : list arg) (b : builder) : builder :=
  Builder (args b ++ ts) (bus b) (addr b).

Definition addBus (b : builder) : builder :=
  let addr := 1%Z in
  let bus := (bus b + 1)%Z in
  Builder (args b ++ [Str "-device"; PciBridge bus]) bus addr.

(** [addr++] followed by the test against [DEV_PER_BUS]. *)
Definition next_addr (b : builder) : builder :=
  let b := Builder (args b) (bus b) (addr b + 1) in
  if (addr b =? DEV_PER_BUS)%Z then addBus b else b.

(** The values [0, 1, ..., n-1] of a counting loop on a uint64. *)
Definition upto (n : N) : list N := map N.of_nat (seq 0 (N.to_nat n)).

Section Builder.
(** [filepath.Join] of a directory and a file name, [unescapeString] and
    the process-wide [hugepagesMountPath] are defined outside kvm.go. *)
Variable Join : string -> string -> string.
Variable unescapeString : list string -> string.
Variable hugepagesMountPath : string.

Variable vm : VMConfig.
Variable id : Z.
Variable vmPath : string.

Definition serial_port (args : list arg) (i : N) : list arg :=
  let args := args ++ [Str "-chardev"] in
  let args := args ++ [Str ("socket,id=charserial" +:+ utoa i +:+ ",path="
                            +:+ Join vmPath "serial" +:+ utoa i
                            +:+ ",server,nowait")] in
  let args := args ++ [Str "-device"] in
  let args := args ++ [Str ("isa-serial,chardev=charserial" +:+ utoa i
                            +:+ ",id=serial" +:+ utoa i)] in
  args.

Definition disk (args : list arg) (diskPath : string) : list arg :=
  let args := args ++ [Str "-drive"] in
  let args := args ++ [Str ("file=" +:+ diskPath +:+ ",media=disk")] in
  args.

(** Everything up to the comment [// net].  A conditional that only appends
    is written as the append of a conditional list. *)
Definition before_net : list arg :=
  let args := [] in
  let args := args ++ [Str "-enable-kvm"] in
  let args := args ++ [Str "-name"] in
  let args := args ++ [Str (itoa id)] in
  let args := args ++ [Str "-m"] in
  let args := args ++ [Str (utoa (Memory vm))] in
  let args := args ++ [Str "-nographic"] in
  let args := args ++ [Str "-balloon"] in
  let args := args ++ [Str "none"] in
  let args := args ++ [Str "-vnc"] in
  let args := args ++ [Str ("unix:" +:+ Join vmPath "vnc")] in
  let args := args ++ [Str "-smp"] in
  let args := args ++ [Str (utoa (VCPUs vm))] in
  let args := args ++ [Str "-qmp"] in
  let args := args ++ [Str ("unix:" +:+ Join vmPath "qmp" +:+ ",server")] in
  let args := args ++ [Str "-vga"] in
  let args := args ++ [Str "std"] in
  let args := args ++ [Str "-rtc"] in
  let args := args ++ [Str "clock=vm,base=utc"] in
  let args := args ++ [Str "-device"] in
  let args := args ++ [Str "virtio-serial"] in
  let args := args ++ [Str "-usb"] in
  let args := args ++ [Str "-device"; Str "usb-ehci,id=ehci"] in
  let args := args ++ [Str "-device"; Str "usb-tablet,bus=usb-bus.0"] in
  let args := fold_left serial_port (upto (SerialPorts (KVM vm))) args in
  let args := args ++ [Str "-pidfile"] in
  let args := args ++ [Str (Join vmPath "qemu.pid")] in
  let args := args ++ [Str "-k"] in
  let args := args ++ [Str "en-us"] in
  let args := args ++
    if negb (String.eqb (CPU (KVM vm)) "") then
      [Str "-cpu"; Str (CPU (KVM vm))]
    else [] in
  let args := args ++ [Str "-net"] in
  let args := args ++ [Str "none"] in
  let args := args ++ [Str "-S"] in
  let args := args ++
    if negb (String.eqb (MigratePath (KVM vm)) "") then
      [Str "-incoming"; Str ("exec:cat " +:+ MigratePath (KVM vm))]
    else [] in
  let args :=
    (if negb (length (DiskPaths (KVM vm)) =? 0)%nat
     then fold_left disk (DiskPaths (KVM vm))
     else fun args => args) args in
  let args := args ++
    if Snapshot vm then [Str "-snapshot"] else [] in
  let args := args ++
    if negb (String.eqb (KernelPath (KVM vm)) "") then
      [Str "-kernel"; Str (KernelPath (KVM vm))]
    else [] in
  let args := args ++
    if negb (String.eqb (InitrdPath (KVM vm)) "") then
      [Str "-initrd"; Str (InitrdPath (KVM vm))]
    else [] in
  let args := args ++
    if (0 <? length (Append (KVM vm)))%nat then
      [Str "-append"; Str (unescapeString (Append (KVM vm)))]
    else [] in
  let args := args ++
    if negb (String.eqb (CdromPath (KVM vm)) "") then
      [Str "-drive"; Str ("file=" +:+ CdromPath (KVM vm) +:+ ",media=cdrom");
       Str "-boot"; Str "once=d"]
    else
      (* add an empty cdrom *)
      [Str "-drive"; Str "media=cdrom"] in
  args.

(** The body of the loop over [vm.Networks]. *)
Definition network (b : builder) (net : NetConfig) : builder :=
  let b := append [Str "-netdev"] b in
  let b := append [Str ("tap,id=" +:+ Tap net +:+ ",script=no,ifname=" +:+ Tap net)] b in
  let b := append [Str "-device"] b in
  let b := append [NetDevice net (bus b) (addr b)] b in
  next_addr b.

Definition cc_port : string :=
  "virtserialport,nr=1,bus=virtio-serial0.0,chardev=charvserialCC,id=charvserialCC,name=cc".

(** The cc port, which every VM gets. *)
Definition cc (b : builder) : builder :=
  let b := append [Str "-device"] b in
  let b := append [VirtioSerialPci 0 (bus b) (addr b)] b in
  let b := append [Str "-chardev"] b in
  let b := append [Str ("socket,id=charvserialCC,path=" +:+ Join vmPath "cc"
                        +:+ ",server,nowait")] b in
  let b := append [Str "-device"] b in
  let b := append [Str cc_port] b in
  next_addr b.

(** The body of the loop over the virtio ports, on the builder and
    [virtio_slot]. *)
Definition virtio_port (st : builder * Z) (i : N) : builder * Z :=
  let '(b, virtio_slot) := st in
  let nr := (i mod DEV_PER_VIRTIO + 1)%N in
  let '(b, virtio_slot) :=
    if (nr =? 1)%N then
      let virtio_slot := (virtio_slot + 1)%Z in
      let b := append [Str "-device"] b in
      let b := append [VirtioSerialPci virtio_slot (bus b) (addr b)] b in
      (next_addr b, virtio_slot)
    else (b, virtio_slot) in
  let b := append [Str "-chardev"] b in
  let b := append [Str ("socket,id=charvserial" +:+ utoa i +:+ ",path="
                        +:+ Join vmPath "virtio-serial" +:+ utoa i
                        +:+ ",server,nowait")] b in
  let b := append [Str "-device"] b in
  let b := append [Str ("virtserialport,nr=" +:+ utoa nr
                        +:+ ",bus=virtio-serial" +:+ itoa virtio_slot
                        +:+ ".0,chardev=charvserial" +:+ utoa i
                        +:+ ",id=charvserial" +:+ utoa i
                        +:+ ",name=virtio-serial" +:+ utoa i)] b in
  (b, virtio_slot).

(** From [// net] to the end of the virtio loop. *)
Definition pci (args : list arg) : builder :=
  let b := Builder args 0 0 in
  let b := addBus b in
  let b := fold_left network (Networks vm) b in
  let b := cc b in
  let virtio_slot := 0%Z in
  let '(b, _) := fold_left virtio_port (upto (VirtioPorts (KVM vm))) (b, virtio_slot) in
  b.

(** The vector as tokens. *)
Definition qemuArgs_tokens : list arg :=
  let args := before_net in
  let 'Builder args _ _ := pci args in
  let args := args ++
    if negb (String.eqb hugepagesMountPath "") then
      [Str "-mem-info"; Str hugepagesMountPath]
    else [] in
  let args := args ++
    if (0 <? length (QemuAppend (KVM vm)))%nat then
      map Str (QemuAppend (KVM vm))
    else [] in
  let args := args ++ [Str "-uuid"] in
  let args := args ++ [Str (UUID vm)] in
  args.

(** [qemuArgs]: the vector of strings handed to QEMU. *)
Definition qemuArgs : list string := map render qemuArgs_tokens.
End Builder.

(** What the vector says about PCI buses: the bridges it creates and the
    devices it puts at an address of a bus, in order. *)
Inductive pci_event :=
| EBridge (bus : Z)
| EDevice (bus addr : Z).

Definition pci_event_of (a : arg) : option pci_event :=
  match a with
  | Str _ => None
  | PciBridge bus => Some (EBridge bus)
  | NetDevice _ bus addr => Some (EDevice bus addr)
  | VirtioSerialPci _ bus addr => Some (EDevice bus addr)
  end.

Definition pci_trace (l : list arg) : list pci_event := omap pci_event_of l.

(** The addresses taken on bus [n]. *)
Definition on_bus (n : Z) (t : list pci_event) : list Z :=
  omap (fun e => match e with
                 | EDevice bus addr => if (bus =? n)%Z then Some addr else None
                 | EBridge _ => None
                 end) t.

Definition bridges (t : list pci_event) : list Z :=
  omap (fun e => match e with EBridge bus => Some bus | EDevice _ _ => None end) t.

(** The NIC device tokens of a vector. *)
Definition net_devices (l : list arg) : list arg :=
  omap (fun a => match a with NetDevice _ _ _ => Some a | _ => None end) l.

(** How often the token [s] occurs in a vector. *)
Definition count (s : string) (v : list string) : nat :=
  length (List.filter (String.eqb s) v).

(** A directory joined with a file name, for directories written without a
    trailing slash; the empty directory gives the bare name. *)
Definition join_clean (dir name : string) : string :=
  if String.eqb dir "" then name else dir +:+ "/" +:+ name.

(** Tokens joined by single spaces, as unescapeString does for tokens free of
    white space. *)
Definition join_spaces (l : list string) : string :=
  String.concat " " l.

End Args.

Module ConfigFacts.
Import Config.

Section ArrayFacts.
Context {A : Type} (zero : A).
Implicit Types (h : gmap positive (list A)) (s : slice).

Lemma make_fresh n h : h !! base (make zero n h).1 = None.
Proof. cbn. apply not_elem_of_dom, is_fresh. Qed.

Lemma set_index_base s i v h h' :
  set_index s i v h = Some h' -> i < len s /\ is_Some (h !! base s).
Proof.
  unfold set_index. case_decide; [|discriminate].
  destruct (h !! base s); [eauto|discriminate].
Qed.

(** A write through one header is invisible through a header on another
    array. *)
Lemma set_index_elems_other s t i v h h' :
  set_index s i v h = Some h' -> base t <> base s -> elems h' t = elems h t.
Proof.
  unfold set_index, elems. case_decide; [|discriminate].
  destruct (h !! base s); [|discriminate].
  intros [= <-] Hne. by rewrite lookup_insert_ne.
Qed.

(** ... and visible through any header on the same window. *)
Lemma set_index_elems_same s i v h h' :
  set_index s i v h = Some h' -> valid h s ->
  elems h' s = <[i := v]> (elems h s).
Proof.
  unfold set_index, elems, valid. case_decide; [|discriminate].
  destruct (h !! base s) as [a|]; [|discriminate].
  intros [= <-] [Hv|(a' & [= <-] & Hv)]; [lia|]. rewrite lookup_insert_eq.
  rewrite <- take_insert_lt by lia. f_equal.
  rewrite drop_insert_ge by lia. f_equal. lia.
Qed.

Lemma copy_lookup_other dst src h l :
  l <> base dst -> copy dst src h !! l = h !! l.
Proof.
  intros Hne. unfold copy. destruct (h !! base dst); [|done].
  by rewrite lookup_insert_ne.
Qed.

Lemma copy_dom dst src h : dom (copy dst src h) = dom h.
Proof.
  unfold copy. destruct (h !! base dst) eqn:E; [|done].
  rewrite dom_insert_L. apply elem_of_dom_2 in E. clear -E. set_solver.
Qed.

Lemma elems_length h s : valid h s -> length (elems h s) = len s.
Proof.
  unfold valid, elems. intros [->|(a & -> & Hv)].
  - by destruct (h !! base s).
  - rewrite length_take, length_drop. lia.
Qed.

(** [make] then [copy] of a whole valid slice reproduces its elements in
    the new array. *)
Lemma make_copy_elems h src :
  valid h src ->
  let '(dst, h1) := make zero (len src) h in
  elems (copy dst src h1) dst = elems h src.
Proof.
  intros Hv. cbn.
  pose proof (is_fresh (dom h)) as Hf. set (l := fresh (dom h)) in *.
  unfold copy. cbn. rewrite lookup_insert_eq. unfold elems at 1. cbn.
  rewrite lookup_insert_eq, drop_0, Nat.min_id.
  assert (elems (<[l := replicate (len src) zero]> h) src = elems h src) as ->.
  { unfold elems.
    destruct (decide (base src = l)) as [E|Hne]; [|by rewrite lookup_insert_ne].
    rewrite E, lookup_insert_eq. apply not_elem_of_dom in Hf. rewrite Hf.
    destruct Hv as [->|(a & Ha & _)]; [done|congruence]. }
  pose proof (elems_length h src Hv) as Hl.
  rewrite (take_ge (elems h src)) by lia.
  assert (list_inserts 0 (elems h src) (replicate (len src) zero) = elems h src) as ->.
  { pose proof (list_inserts_0_l (elems h src) [] (replicate (len src) zero)) as H.
    rewrite app_nil_r in H. apply H. by rewrite length_replicate. }
  apply take_ge. lia.
Qed.
(** Arrays are only ever added: a valid header reads the same elements
    in a store that kept every array it had. *)
Lemma elems_extend h h' s :
  valid h s -> (forall l a, h !! l = Some a -> h' !! l = Some a) ->
  elems h' s = elems h s.
Proof.
  unfold valid, elems. intros [Hv|(a & E & _)] Hsub.
  - rewrite Hv. by destruct (h !! base s), (h' !! base s).
  - by rewrite E, (Hsub _ _ E).
Qed.

Lemma valid_extend h h' s :
  valid h s -> (forall l a, h !! l = Some a -> h' !! l = Some a) -> valid h' s.
Proof.
  unfold valid. intros [Hv|(a & E & Hv)] Hsub; [by left|].
  right. exists a. eauto.
Qed.

Lemma make_copy_keeps h src l a :
  h !! l = Some a ->
  copy (make zero (len src) h).1 src (make zero (len src) h).2 !! l = Some a.
Proof.
  intros E. rewrite copy_lookup_other; cbn.
  - rewrite lookup_insert_ne; [done|]. intros <-.
    pose proof (is_fresh (dom h)) as Hf. apply not_elem_of_dom in Hf. congruence.
  - intros ->.
    pose proof (is_fresh (dom h)) as Hf. apply not_elem_of_dom in Hf. congruence.
Qed.
End ArrayFacts.

Definition with_overrides (o : gmap positive (list qemuOverride)) (st : store) : store :=
  Store (strings st) o.

(** Copy leaves the headers of Append and QemuOverride as they are: copy and
    original read the same array in every later store. *)
Lemma Copy_keeps_headers old st :
  Append (Copy old st).1 = Append old /\
  QemuOverride (Copy old st).1 = QemuOverride old /\
  overrides (Copy old st).2 = overrides st.
Proof. done. Qed.

(** The two sequences Copy does duplicate: a later write through the
    original's header does not show through the copy's. *)
Lemma Copy_duplicates_DiskPaths old st i v h :
  valid (strings st) (DiskPaths old) ->
  set_index (DiskPaths old) i v (strings (Copy old st).2) = Some h ->
  elems h (DiskPaths (Copy old st).1) =
  elems (strings (Copy old st).2) (DiskPaths (Copy old st).1).
Proof.
  intros Hv Hw. eapply set_index_elems_other; [exact Hw|].
  cbn. intros Heq.
  apply set_index_base in Hw as [Hi _].
  destruct Hv as [Hv|(a & Ha & _)]; [lia|]. rewrite <- Heq in Ha.
  pose proof (is_fresh (dom (strings st))) as Hf.
  apply not_elem_of_dom in Hf. congruence.
Qed.

Lemma Copy_duplicates_QemuAppend old st i v h :
  valid (strings st) (QemuAppend old) ->
  set_index (QemuAppend old) i v (strings (Copy old st).2) = Some h ->
  elems h (QemuAppend (Copy old st).1) =
  elems (strings (Copy old st).2) (QemuAppend (Copy old st).1).
Proof.
  intros Hv Hw. eapply set_index_elems_other; [exact Hw|].
  cbn. intros Heq.
  apply set_index_base in Hw as [Hi _].
  destruct Hv as [Hv|(a & Ha & _)]; [lia|]. rewrite <- Heq in Ha.
  apply elem_of_dom_2 in Ha.
  lazymatch type of Heq with fresh ?D = _ => pose proof (is_fresh D) as Hf end.
  revert Ha Hf. generalize (fresh (dom (copy
    (Slice (fresh (dom (strings st))) 0 (len (DiskPaths old)) (len (DiskPaths old)))
    (DiskPaths old)
    (<[fresh (dom (strings st)) := replicate (len (DiskPaths old)) ""]> (strings st))))).
  intros l Ha. rewrite copy_dom, dom_insert_L. set_solver.
Qed.

(** On valid headers, the copy reads what the original reads. *)
Lemma Copy_contents old st :
  valid (strings st) (Append old) ->
  valid (strings st) (DiskPaths old) ->
  valid (strings st) (QemuAppend old) ->
  contents (Copy old st).2 (Copy old st).1 = contents st old.
Proof.
  intros Ha Hd Hq. unfold contents, Copy.
  pose proof (make_copy_elems "" (strings st) (DiskPaths old) Hd) as E1.
  pose proof (make_copy_keeps "" (strings st) (DiskPaths old)) as K1.
  destruct (make "" (len (DiskPaths old)) (strings st)) as [d h1] eqn:M1.
  cbn [fst snd DiskPaths with_DiskPaths] in *.
  set (h2 := copy d (DiskPaths old) h1) in *.
  assert (valid h2 (QemuAppend old)) as Hq2 by (by eapply valid_extend).
  pose proof (make_copy_elems "" h2 (QemuAppend old) Hq2) as E2.
  pose proof (make_copy_keeps "" h2 (QemuAppend old)) as K2.
  destruct (make "" (len (QemuAppend old)) h2) as [q h3] eqn:M2.
  cbn [fst snd QemuAppend with_QemuAppend Append DiskPaths QemuOverride
       QemuPath KernelPath InitrdPath CdromPath MigratePath CPU SerialPorts
       VirtioPorts strings overrides with_strings] in *.
  set (h4 := copy q (QemuAppend old) h3) in *.
  assert (forall l a, strings st !! l = Some a -> h4 !! l = Some a) as K
    by (intros l a E; by apply K2, K1).
  f_equal.
  - by apply elems_extend.
  - rewrite <- E1. apply elems_extend; [|exact K2].
    right. injection M1 as <- <-. subst h2. cbn.
    unfold copy. cbn. rewrite !lookup_insert_eq. eexists. split; [done|].
    rewrite length_inserts, length_replicate. lia.
  - rewrite E2. by apply elems_extend.
Qed.

(** C2, at a configuration whose four sequences hold one element each.
    After Copy, the copy reads the same contents as the original.  A write to
    element 0 of the original's kernel append tokens, or of its
    qemu-overrides, then changes what the copy reads: Copy duplicated
    DiskPaths and QemuAppend only, and the other two sequences are aliased. *)
Theorem Copy_aliases_Append_and_QemuOverride :
  let res := (Copy sample_config sample_store).1 in
  let st1 := (Copy sample_config sample_store).2 in
  contents st1 res = contents sample_store sample_config /\
  (exists h2,
     set_index (Append sample_config) 0 "quiet" (strings st1) = Some h2 /\
     Append (contents st1 res) = ["ip=10.0.0.5"] /\
     Append (contents (with_strings h2 st1) res) = ["quiet"]) /\
  (exists o2,
     set_index (QemuOverride sample_config) 0 {| Match := "-S"; Repl := "" |}
       (overrides st1) = Some o2 /\
     QemuOverride (contents st1 res) =
       [{| Match := "-enable-kvm"; Repl := "-no-kvm" |}] /\
     QemuOverride (contents (with_overrides o2 st1) res) =
       [{| Match := "-S"; Repl := "" |}]) /\
  (exists h2,
     set_index (DiskPaths sample_config) 0 "/other.img" (strings st1) = Some h2 /\
     DiskPaths (contents (with_strings h2 st1) res) = ["/disk.img"]) /\
  (exists h2,
     set_index (QemuAppend sample_config) 0 "-monitor" (strings st1) = Some h2 /\
     QemuAppend (contents (with_strings h2 st1) res) = ["-serial"]).
Proof.
  cbv zeta. split; [vm_compute; reflexivity|].
  split; [eexists; split; [vm_compute; reflexivity|split; vm_compute; reflexivity]|].
  split; [eexists; split; [vm_compute; reflexivity|split; vm_compute; reflexivity]|].
  split; eexists; (split; [vm_compute; reflexivity|vm_compute; reflexivity]).
Qed.

(** X2. On a configuration whose Append, DiskPaths and QemuAppend headers
    are valid, the copy made by Copy reads, field by field, exactly what the
    original reads in the store before the call. *)
Theorem Copy_preserves_contents old st :
  valid (strings st) (Append old) ->
  valid (strings st) (DiskPaths old) ->
  valid (strings st) (QemuAppend old) ->
  contents (Copy old st).2 (Copy old st).1 = contents st old.
Proof. apply Copy_contents. Qed.

Lemma Copy_preserves_contents_witness :
  contents (Copy sample_config sample_store).2 (Copy sample_config sample_store).1
  = contents sample_store sample_config.
Proof.
  apply (Copy_preserves_contents sample_config sample_store);
    right; eexists; (split; [vm_compute; reflexivity|cbn; lia]).
Defined.

(** X3. The arrays Copy makes for DiskPaths and QemuAppend are new: a write
    through any header whose array was live before the call, the original's
    four headers among them, changes nothing the copy reads in its DiskPaths
    or QemuAppend.  Every array that was live before the call is unchanged
    by the call. *)
Theorem Copy_makes_fresh_arrays old st s i v h :
  is_Some (strings st !! base s) ->
  set_index s i v (strings (Copy old st).2) = Some h ->
  elems h (DiskPaths (Copy old st).1)
    = elems (strings (Copy old st).2) (DiskPaths (Copy old st).1) /\
  elems h (QemuAppend (Copy old st).1)
    = elems (strings (Copy old st).2) (QemuAppend (Copy old st).1) /\
  (forall l a, strings st !! l = Some a -> strings (Copy old st).2 !! l = Some a).
Proof.
  intros Hs Hw. split; [|split].
  - eapply set_index_elems_other; [exact Hw|].
    cbn. intros Heq. rewrite <- Heq in Hs.
    pose proof (is_fresh (dom (strings st))) as Hf.
    apply not_elem_of_dom in Hf. rewrite Hf in Hs. by destruct Hs.
  - eapply set_index_elems_other; [exact Hw|].
    cbn. intros Heq. rewrite <- Heq in Hs.
    apply elem_of_dom in Hs.
    lazymatch type of Heq with fresh ?D = _ => pose proof (is_fresh D) as Hf end.
    revert Hs Hf. generalize (fresh (dom (copy
      (Slice (fresh (dom (strings st))) 0 (len (DiskPaths old)) (len (DiskPaths old)))
      (DiskPaths old)
      (<[fresh (dom (strings st)) := replicate (len (DiskPaths old)) ""]> (strings st))))).
    intros l Hs. rewrite copy_dom, dom_insert_L. set_solver.
  - intros l a Hl. unfold Copy.
    pose proof (make_copy_keeps "" (strings st) (DiskPaths old)) as K1.
    destruct (make "" (len (DiskPaths old)) (strings st)) as [d h1] eqn:M1.
    cbn [fst snd DiskPaths with_DiskPaths] in *.
    set (h2 := copy d (DiskPaths old) h1) in *.
    pose proof (make_copy_keeps "" h2 (QemuAppend old)) as K2.
    destruct (make "" (len (QemuAppend old)) h2) as [q h3] eqn:M2.
    cbn [fst snd QemuAppend with_QemuAppend strings with_strings] in *.
    by apply K2, K1.
Qed.

Lemma Copy_makes_fresh_arrays_witness :
  exists h,
    set_index (DiskPaths sample_config) 0 "/other.img"
      (strings (Copy sample_config sample_store).2) = Some h /\
    elems h (DiskPaths (Copy sample_config sample_store).1) = ["/disk.img"].
Proof.
  eexists. split; [vm_compute; reflexivity|].
  rewrite (proj1 (Copy_makes_fresh_arrays sample_config sample_store
                    (DiskPaths sample_config) 0 "/other.img" _
                    ltac:(vm_compute; eauto) ltac:(vm_compute; reflexivity))).
  vm_compute. reflexivity.
Defined.

End ConfigFacts.

Module ArgsFacts.
Import Config Args.

Definition minimal_kvm : KVMConfig (list string) (list qemuOverride) :=
  {| QemuPath := ""; KernelPath := ""; InitrdPath := ""; CdromPath := "";
     MigratePath := ""; CPU := "host"; SerialPorts := 0; VirtioPorts := 0;
     Append := []; DiskPaths := []; QemuAppend := []; QemuOverride := [] |}.

Definition minimal (nets : list NetConfig) : VMConfig :=
  {| Memory := 512; VCPUs := 1;
     UUID := "00000000-0000-0000-0000-000000000001"; Snapshot := true;
     Networks := nets; KVM := minimal_kvm |}.

Definition nic : NetConfig :=
  {| Bridge := "mega_bridge"; VLAN := 100; MAC := "00:11:22:33:44:55";
     Tap := "mega_tap0"; Driver := "e1000" |}.

Definition run (vm : VMConfig) : list string :=
  qemuArgs join_clean join_spaces "" vm 0 "/x".

(** *** Decimal numerals *)

Definition is_digit (c : ascii) : bool :=
  (48 <=? nat_of_ascii c)%nat && (nat_of_ascii c <=? 57)%nat.

Fixpoint last_char (s : string) : option ascii :=
  match s with
  | EmptyString => None
  | String c EmptyString => Some c
  | String _ r => last_char r
  end.

Lemma last_char_append a b c :
  last_char b = Some c -> last_char (a +:+ b) = Some c.
Proof.
  intros Hb. induction a as [|x a IH]; [done|].
  change (String x a +:+ b) with (String x (a +:+ b)).
  revert IH. destruct (a +:+ b); [done|]. intros IH. exact IH.
Qed.

Lemma string_of_uint_head d :
  exists c r, DecimalString.NilZero.string_of_uint d = String c r /\ is_digit c = true.
Proof. destruct d; cbn; eauto. Qed.

Lemma string_of_uint_last d :
  exists c, last_char (DecimalString.NilZero.string_of_uint d) = Some c /\
            is_digit c = true.
Proof.
  assert (forall d k, is_digit k = true ->
            exists c, last_char (String k (DecimalString.NilEmpty.string_of_uint d))
                      = Some c /\ is_digit c = true) as H.
  { clear d. induction d as [|d IH|d IH|d IH|d IH|d IH|d IH|d IH|d IH|d IH|d IH];
      intros k Hk; [cbn; eauto|..];
      cbn [DecimalString.NilEmpty.string_of_uint last_char]; by apply IH. }
  destruct d; [cbn; eauto|..]; by apply H.
Qed.

(** A string whose first character is neither a digit nor, when a sign may
    come first, a minus sign followed by a digit, is no numeral. *)
Definition no_numeral (s : string) : bool :=
  match s with
  | EmptyString => true
  | String c r =>
      if Ascii.eqb c "-"
      then match r with EmptyString => true | String c2 _ => negb (is_digit c2) end
      else negb (is_digit c)
  end.

Lemma eqb_head_digit s c r :
  no_numeral s = true -> is_digit c = true -> String.eqb s (String c r) = false.
Proof.
  intros Hs Hc. destruct s as [|c' r']; [done|]. cbn.
  destruct (Ascii.eqb_spec c' c) as [->|Hne]; [|done].
  cbn in Hs. destruct (Ascii.eqb_spec c "-") as [->|_]; [done|].
  by rewrite Hc in Hs.
Qed.

Lemma eqb_utoa s n : no_numeral s = true -> String.eqb s (utoa n) = false.
Proof.
  intros Hs. unfold utoa.
  destruct (string_of_uint_head (N.to_uint n)) as (c & r & -> & Hc).
  by apply eqb_head_digit.
Qed.

Lemma eqb_itoa s z : no_numeral s = true -> String.eqb s (itoa z) = false.
Proof.
  intros Hs. unfold itoa, DecimalString.NilZero.string_of_int.
  destruct (Z.to_int z) as [d|d];
    destruct (string_of_uint_head d) as (c & r & -> & Hc).
  - by apply eqb_head_digit.
  - destruct s as [|c' r']; [done|]. cbn.
    destruct (Ascii.eqb_spec c' "-") as [->|Hne]; [|done].
    cbn in Hs. destruct r' as [|c2 r2]; [done|]. cbn.
    destruct (Ascii.eqb_spec c2 c) as [->|_]; [|done].
    by rewrite Hc in Hs.
Qed.

Lemma utoa_last n : exists c, last_char (utoa n) = Some c /\ is_digit c = true.
Proof. apply string_of_uint_last. Qed.

(** *** Counting a token *)

Definition occ (s : string) (ts : list arg) : nat := count s (map render ts).

Lemma occ_app s a b : occ s (a ++ b) = occ s a + occ s b.
Proof. unfold occ, count. by rewrite map_app, List.filter_app, length_app. Qed.

Lemma occ_nil s : occ s [] = 0.
Proof. done. Qed.

Lemma occ_cons s t ts :
  occ s (t :: ts) = (if String.eqb s (render t) then 1 else 0) + occ s ts.
Proof. unfold occ, count. cbn. by destruct (String.eqb s (render t)). Qed.

Lemma occ_cons_0 s t ts :
  String.eqb s (render t) = false -> occ s (t :: ts) = occ s ts.
Proof. intros H. by rewrite occ_cons, H. Qed.

Lemma occ_flat_map_0 {B} s (g : B -> list arg) (l : list B) :
  (forall x, occ s (g x) = 0) -> occ s (flat_map g l) = 0.
Proof.
  intros Hg. induction l as [|x l IH]; [done|].
  cbn [flat_map]. by rewrite occ_app, Hg, IH.
Qed.

Lemma occ_Str_0 s (l : list string) :
  Forall (fun u => String.eqb s u = false) l -> occ s (map Str l) = 0.
Proof.
  induction 1 as [|u l Hu _ IH]; [done|].
  cbn [map]. by rewrite occ_cons_0.
Qed.

(** The three tokens of (A1). *)
Definition target (s : string) : Prop :=
  s = "-uuid" \/ s = "-pidfile" \/ s = cc_port.

Ltac target_cases H := destruct H as [->|[->| ->]].

Ltac eqb_leaf :=
  first [reflexivity | assumption
        | apply eqb_utoa; reflexivity | apply eqb_itoa; reflexivity].

Lemma occ_if_0 s (c : bool) a b :
  occ s a = 0 -> occ s b = 0 -> occ s (if c then a else b) = 0.
Proof. by destruct c. Qed.

(** A port of the virtio loop is never the cc port: its token ends in the
    digits of the port index. *)
Lemma eqb_cc_port_virtio (nr : N) (slot : Z) (i : N) :
  String.eqb cc_port
    ("virtserialport,nr=" +:+ utoa nr +:+ ",bus=virtio-serial" +:+ itoa slot
     +:+ ".0,chardev=charvserial" +:+ utoa i +:+ ",id=charvserial" +:+ utoa i
     +:+ ",name=virtio-serial" +:+ utoa i) = false.
Proof.
  apply String.eqb_neq. intros H.
  destruct (utoa_last i) as (c & Hc & Hd).
  apply (f_equal last_char) in H.
  rewrite !(last_char_append _ _ c) in H by (repeat apply last_char_append; exact Hc).
  cbn in H. injection H as <-. done.
Qed.

(** *** The PCI layout in closed form *)

(** Device number [k], counting from 0, sits at address [1 + k mod 31] of bus
    [1 + k / 31]; the device that takes address 31 is followed by the bridge
    of the next bus. *)
Definition slot_events (k : nat) : list pci_event :=
  EDevice (1 + Z.of_nat k / 31) (1 + Z.of_nat k mod 31)
  :: (if (Z.of_nat k mod 31 =? 30)%Z then [EBridge (2 + Z.of_nat k / 31)] else []).

Definition layout (n : nat) : list pci_event :=
  EBridge 1 :: flat_map slot_events (seq 0 n).

Definition laid_out (k : nat) (b : builder) : Prop :=
  pci_trace (args b) = layout k /\
  bus b = (1 + Z.of_nat k / 31)%Z /\
  addr b = (1 + Z.of_nat k mod 31)%Z.

Lemma pci_trace_app l1 l2 : pci_trace (l1 ++ l2) = pci_trace l1 ++ pci_trace l2.
Proof. apply omap_app. Qed.

Lemma layout_S k : layout (S k) = layout k ++ slot_events k.
Proof.
  unfold layout. rewrite seq_S, flat_map_app. cbn [flat_map Nat.add].
  by rewrite app_nil_r.
Qed.

Lemma laid_out_append k b ts :
  pci_trace ts = [] -> laid_out k b -> laid_out k (append ts b).
Proof.
  intros Hts (Ht & Hb & Ha). unfold laid_out, append. cbn.
  by rewrite pci_trace_app, Hts, app_nil_r.
Qed.

(** Placing a device at the current bus and address, then advancing. *)
Lemma laid_out_place k b dev :
  pci_event_of dev = Some (EDevice (bus b) (addr b)) ->
  laid_out k b -> laid_out (S k) (next_addr (append [dev] b)).
Proof.
  intros Hdev (Ht & Hb & Ha). unfold laid_out, next_addr, append, addBus.
  cbn [args bus addr]. unfold DEV_PER_BUS.
  rewrite layout_S. unfold slot_events. rewrite Nat2Z.inj_succ.
  destruct (addr b + 1 =? 32)%Z eqn:E; cbn [args bus addr].
  - apply Z.eqb_eq in E.
    assert (Z.of_nat k mod 31 = 30)%Z as Hm by lia.
    rewrite Hm. cbn [Z.eqb Pos.eqb].
    rewrite !pci_trace_app. cbn. rewrite Hdev, Ht, Hb, Ha, <- app_assoc. cbn.
    replace (1 + Z.of_nat k / 31 + 1)%Z with (2 + Z.of_nat k / 31)%Z by lia.
    rewrite Hm.
    split; [reflexivity|]. split; Z.div_mod_to_equations; lia.
  - apply Z.eqb_neq in E.
    assert (Z.of_nat k mod 31 <> 30)%Z as Hm by lia.
    apply Z.eqb_neq in Hm. rewrite Hm.
    rewrite !pci_trace_app. cbn. rewrite Hdev, Ht, Hb, Ha. cbn.
    apply Z.eqb_neq in Hm.
    repeat split; Z.div_mod_to_equations; lia.
Qed.

(** *** What the closed form says *)

Lemma elem_of_layout n e :
  e ∈ layout n ->
  e = EBridge 1 \/
  exists k, k < n /\
    (e = EDevice (1 + Z.of_nat k / 31) (1 + Z.of_nat k mod 31) \/
     (Z.of_nat k mod 31 = 30)%Z /\ e = EBridge (2 + Z.of_nat k / 31)).
Proof.
  unfold layout. rewrite elem_of_cons. intros [->|H]; [by left|right].
  apply list_elem_of_In, in_flat_map in H as (k & Hk & He).
  apply in_seq in Hk. exists k. split; [lia|].
  unfold slot_events in He. destruct He as [<-|He]; [by left|right].
  destruct (Z.of_nat k mod 31 =? 30)%Z eqn:E; [|done].
  apply Z.eqb_eq in E. destruct He as [<-|[]]. done.
Qed.

(** The number of addresses taken on bus [c] once [n] devices are placed. *)
Definition taken (c : Z) (n : nat) : nat :=
  if (c <? 1)%Z then 0 else Z.to_nat (Z.min 31 (Z.of_nat n - 31 * (c - 1))).

Lemma taken_le c n : taken c n <= 31.
Proof. unfold taken. destruct (c <? 1)%Z; lia. Qed.

Lemma on_bus_app c t1 t2 : on_bus c (t1 ++ t2) = on_bus c t1 ++ on_bus c t2.
Proof. apply omap_app. Qed.

(** On every bus the addresses are handed out as 1, 2, 3, ... *)
Lemma on_bus_layout c n :
  on_bus c (layout n) = map Z.of_nat (seq 1 (taken c n)).
Proof.
  induction n as [|n IH].
  - unfold taken. destruct (c <? 1)%Z eqn:E1; [done|]. apply Z.ltb_ge in E1.
    replace (Z.to_nat _) with 0 by lia. done.
  - rewrite layout_S, on_bus_app, IH. unfold slot_events.
    assert (on_bus c (EDevice (1 + Z.of_nat n / 31) (1 + Z.of_nat n mod 31)
                      :: (if (Z.of_nat n mod 31 =? 30)%Z
                          then [EBridge (2 + Z.of_nat n / 31)] else []))
            = if (1 + Z.of_nat n / 31 =? c)%Z then [(1 + Z.of_nat n mod 31)%Z] else [])
      as ->.
    { cbn. destruct (1 + Z.of_nat n / 31 =? c)%Z, (Z.of_nat n mod 31 =? 30)%Z; done. }
    unfold taken. rewrite Nat2Z.inj_succ.
    destruct (1 + Z.of_nat n / 31 =? c)%Z eqn:E.
    + apply Z.eqb_eq in E.
      destruct (c <? 1)%Z eqn:E1;
        [apply Z.ltb_lt in E1; Z.div_mod_to_equations; lia|].
      replace (Z.to_nat (Z.min 31 (Z.succ (Z.of_nat n) - 31 * (c - 1))))
        with (S (Z.to_nat (Z.min 31 (Z.of_nat n - 31 * (c - 1)))))
        by (Z.div_mod_to_equations; lia).
      rewrite seq_S, map_app. cbn. do 3 f_equal.
      Z.div_mod_to_equations; lia.
    + apply Z.eqb_neq in E. rewrite app_nil_r.
      destruct (c <? 1)%Z eqn:E1; [done|]. apply Z.ltb_ge in E1.
      do 2 f_equal. Z.div_mod_to_equations; lia.
Qed.

Lemma bridges_app t1 t2 : bridges (t1 ++ t2) = bridges t1 ++ bridges t2.
Proof. apply omap_app. Qed.

(** The bridges are those of buses 1, 2, ..., 1 + n / 31. *)
Lemma bridges_layout n :
  bridges (layout n) = map Z.of_nat (seq 1 (S (n / 31))).
Proof.
  induction n as [|n IH]; [done|].
  rewrite layout_S, bridges_app, IH. unfold slot_events.
  assert (Z.of_nat n / 31 = Z.of_nat (n / 31))%Z as Hd
    by (by rewrite Nat2Z.inj_div).
  assert (Z.of_nat n mod 31 = Z.of_nat (n mod 31))%Z as Hm
    by (by rewrite Nat2Z.inj_mod).
  pose proof (Nat.div_mod_eq n 31) as Hn.
  pose proof (Nat.mod_upper_bound n 31 ltac:(lia)) as Hlt.
  pose proof (Nat.div_mod_eq (S n) 31) as HSn.
  pose proof (Nat.mod_upper_bound (S n) 31 ltac:(lia)) as HSlt.
  rewrite Hd, Hm.
  destruct (Z.of_nat (n mod 31) =? 30)%Z eqn:E.
  - apply Z.eqb_eq in E.
    assert (S n / 31 = S (n / 31)) as -> by nia.
    rewrite (seq_S (S (n / 31))), map_app. cbn [bridges omap].
    cbn. do 3 f_equal. lia.
  - apply Z.eqb_neq in E.
    assert (S n / 31 = n / 31) as -> by nia.
    cbn. by rewrite app_nil_r.
Qed.

(** A bridge follows a device exactly when the device took the last address,
    that is when [addr] reached [DEV_PER_BUS] after it; and a bridge other
    than the first one always follows a device. *)
Definition rotates (t : list pci_event) : Prop :=
  (forall i b a, t !! i = Some (EDevice b a) ->
     ((a + 1 = DEV_PER_BUS)%Z -> t !! S i = Some (EBridge (b + 1))) /\
     (forall b', t !! S i = Some (EBridge b') -> (a + 1 = DEV_PER_BUS)%Z)) /\
  (forall i b, t !! i = Some (EBridge b) ->
     i = 0 \/ exists b' a', t !! (i - 1) = Some (EDevice b' a')).

(** The trace does not stop at a device that took the last address. *)
Definition settled (t : list pci_event) : Prop :=
  forall b a, last t = Some (EDevice b a) -> (a + 1 < DEV_PER_BUS)%Z.

Lemma rotates_snoc t b a :
  rotates t -> settled t -> (1 <= a <= 31)%Z ->
  let t' := t ++ EDevice b a :: (if (a =? 31)%Z then [EBridge (b + 1)] else []) in
  rotates t' /\ settled t'.
Proof.
  intros [Hdev Hbr] Hlast Ha t'.
  unfold rotates, settled, DEV_PER_BUS in *. split; [split|].
  - intros i b0 a0 Hi. destruct (decide (i < length t)) as [Hlt|Hge].
    + unfold t' in Hi. rewrite lookup_app_l in Hi by done.
      destruct (decide (S i < length t)) as [Hlt'|Hge'].
      * unfold t'. rewrite lookup_app_l by done. by apply Hdev.
      * assert (last t = Some (EDevice b0 a0)) as Hl.
        { rewrite last_lookup. by replace (pred (length t)) with i by lia. }
        apply Hlast in Hl. unfold t'. rewrite lookup_app_r by lia.
        replace (S i - length t) with 0 by lia. cbn.
        split; [lia|]. intros b' [=].
    + unfold t' in *. rewrite lookup_app_r in Hi by lia.
      rewrite lookup_app_r by lia.
      replace (S i - length t) with (S (i - length t)) by lia.
      destruct (i - length t) as [|j]; cbn in *.
      * injection Hi as <- <-.
        destruct (a =? 31)%Z eqn:E; cbn.
        -- apply Z.eqb_eq in E. split; [done|intros; lia].
        -- apply Z.eqb_neq in E. split; [lia|]. intros b' [=].
      * destruct (a =? 31)%Z; [|done]. by destruct j.
  - intros i b0 Hi. destruct (decide (i < length t)) as [Hlt|Hge].
    + unfold t' in *. rewrite lookup_app_l in Hi by done.
      destruct (Hbr i b0 Hi) as [->|(b' & a' & H')]; [by left|right].
      exists b', a'. rewrite lookup_app_l by lia. done.
    + unfold t' in *. rewrite lookup_app_r in Hi by lia. right.
      destruct (i - length t) as [|j] eqn:Ej; cbn in Hi; [done|].
      exists b, a. rewrite lookup_app_r by lia.
      destruct (a =? 31)%Z; [|done]. destruct j; [|done].
      by replace (i - 1 - length t) with 0 by lia.
  - intros b0 a0. unfold t'. rewrite last_app.
    destruct (a =? 31)%Z eqn:E; cbn; [done|].
    apply Z.eqb_neq in E. intros [= <- <-]. lia.
Qed.

Lemma rotates_layout n : rotates (layout n) /\ settled (layout n).
Proof.
  induction n as [|n [IH1 IH2]].
  - split; [split|].
    + intros [|i] b a; [done|]. by destruct i.
    + intros [|i] b; [by left|]. by destruct i.
    + done.
  - rewrite layout_S. unfold slot_events.
    pose proof (rotates_snoc (layout n) (1 + Z.of_nat n / 31)
                  (1 + Z.of_nat n mod 31) IH1 IH2) as H.
    replace (1 + Z.of_nat n mod 31 =? 31)%Z with (Z.of_nat n mod 31 =? 30)%Z in H
      by (destruct (Z.of_nat n mod 31 =? 30)%Z eqn:E; symmetry;
          [apply Z.eqb_eq; apply Z.eqb_eq in E|apply Z.eqb_neq; apply Z.eqb_neq in E];
          lia).
    replace (1 + Z.of_nat n / 31 + 1)%Z with (2 + Z.of_nat n / 31)%Z in H by lia.
    apply H. Z.div_mod_to_equations; lia.
Qed.

(** *** The shape of the loops *)

Lemma fold_left_appends {A B} (f : list A -> B -> list A) (l : list B) (a : list A) :
  (forall a x, f a x = a ++ f [] x) ->
  fold_left f l a = a ++ flat_map (f []) l.
Proof.
  intros Hf. revert a. induction l as [|x l IH]; intros a; cbn.
  - by rewrite app_nil_r.
  - rewrite IH, (Hf a x). by rewrite <- app_assoc.
Qed.

Lemma omap_flat_map_nil {B C} (h : arg -> option C) (g : B -> list arg) (l : list B) :
  (forall x, omap h (g x) = []) -> omap h (flat_map g l) = [].
Proof.
  intros Hg. induction l as [|x l IH]; [done|].
  cbn [flat_map]. by rewrite omap_app, Hg, IH.
Qed.

Lemma omap_if_nil {C} (h : arg -> option C) (c : bool) (a b : list arg) :
  omap h a = [] -> omap h b = [] -> omap h (if c then a else b) = [].
Proof. by destruct c. Qed.

Lemma omap_Str {C} (h : arg -> option C) (l : list string) :
  (forall s, h (Str s) = None) -> omap h (map Str l) = [].
Proof. intros Hh. induction l as [|x l IH]; [done|]. cbn. by rewrite Hh. Qed.

Lemma pci_trace_Str (l : list string) : pci_trace (map Str l) = [].
Proof. by apply omap_Str. Qed.

(** The devices the virtio loop adds: one per started group of 30 ports. *)
Definition virtio_devices (l : list N) : nat :=
  length (filter (fun i => (i mod DEV_PER_VIRTIO + 1 = 1)%N) l).

(** The number of devices the builder puts on PCI buses: the NICs, the cc
    device, and the devices of the virtio loop. *)
Definition n_devices (vm : VMConfig) : nat :=
  length (Networks vm) + 1 + virtio_devices (upto (VirtioPorts (KVM vm))).

Section BuilderFacts.
Variable Join : string -> string -> string.
Variable unescapeString : list string -> string.
Variable hugepagesMountPath : string.
Variable vm : VMConfig.
Variable id : Z.
Variable vmPath : string.

Lemma fold_serial_port l a :
  fold_left (serial_port Join vmPath) l a
  = a ++ flat_map (serial_port Join vmPath []) l.
Proof.
  apply fold_left_appends. intros a' x. unfold serial_port. cbn.
  by rewrite <- !app_assoc.
Qed.

Lemma fold_disk l a : fold_left disk l a = a ++ flat_map (disk []) l.
Proof.
  apply fold_left_appends. intros a' x. unfold disk. cbn.
  by rewrite <- !app_assoc.
Qed.

(** Before [// net] every token is a plain string: a selection that
    skips those finds nothing there. *)
Lemma omap_before_net {B} (h : arg -> option B) :
  (forall s, h (Str s) = None) ->
  omap h (before_net Join unescapeString vm id vmPath) = [].
Proof.
  intros Hh. unfold before_net. cbv zeta.
  rewrite fold_serial_port.
  destruct (negb (length (DiskPaths (KVM vm)) =? 0)%nat);
    [rewrite fold_disk|];
    rewrite !omap_app;
    rewrite ?(omap_flat_map_nil h (serial_port Join vmPath []))
      by (intros; cbn; by rewrite !Hh);
    rewrite ?(omap_flat_map_nil h (disk [])) by (intros; cbn; by rewrite !Hh);
    rewrite !omap_if_nil by (cbn; by rewrite ?Hh);
    cbn; by rewrite ?Hh.
Qed.

Lemma pci_trace_before_net :
  pci_trace (before_net Join unescapeString vm id vmPath) = [].
Proof. by apply omap_before_net. Qed.

Lemma network_laid_out k b net :
  laid_out k b -> laid_out (S k) (network b net).
Proof.
  intros H. unfold network. cbv zeta.
  apply (laid_out_place k _ (NetDevice net _ _)); [done|].
  by repeat apply laid_out_append.
Qed.

Lemma networks_laid_out nets k b :
  laid_out k b -> laid_out (k + length nets) (fold_left network nets b).
Proof.
  revert k b. induction nets as [|net nets IH]; intros k b H; cbn.
  - by rewrite Nat.add_0_r.
  - rewrite <- Nat.add_succ_comm. by apply IH, network_laid_out.
Qed.

Lemma cc_laid_out k b : laid_out k b -> laid_out (S k) (cc Join vmPath b).
Proof.
  intros H. unfold cc. cbv zeta.
  set (b1 := append [Str "-device"] b).
  assert (laid_out k b1) as H1 by (by apply laid_out_append).
  pose proof (laid_out_place k b1 (VirtioSerialPci 0 (bus b1) (addr b1)) eq_refl H1)
    as H2.
  revert H2. unfold next_addr, append. cbn [args bus addr].
  unfold laid_out, addBus.
  destruct (addr b1 + 1 =? DEV_PER_BUS)%Z; cbn [args bus addr];
    rewrite !pci_trace_app; cbn; rewrite ?app_nil_r; done.
Qed.
Lemma virtio_port_laid_out k b slot i :
  laid_out k b ->
  laid_out (k + virtio_devices [i]) (virtio_port Join vmPath (b, slot) i).1.
Proof.
  intros H. unfold virtio_port, virtio_devices. cbv zeta.
  rewrite filter_cons, filter_nil.
  destruct (decide (i mod DEV_PER_VIRTIO + 1 = 1)%N) as [E|E].
  - rewrite (proj2 (N.eqb_eq _ _) E). cbn [length fst].
    rewrite Nat.add_1_r.
    repeat apply laid_out_append; try done.
    apply (laid_out_place k _ (VirtioSerialPci _ _ _)); [done|].
    by apply laid_out_append.
  - rewrite (proj2 (N.eqb_neq _ _) E). cbn [length fst].
    rewrite Nat.add_0_r.
    by repeat apply laid_out_append.
Qed.

Lemma virtio_ports_laid_out l k b slot :
  laid_out k b ->
  laid_out (k + virtio_devices l) (fold_left (virtio_port Join vmPath) l (b, slot)).1.
Proof.
  revert k b slot. induction l as [|i l IH]; intros k b slot H.
  - unfold virtio_devices. cbn. by rewrite Nat.add_0_r.
  - cbn [fold_left].
    pose proof (virtio_port_laid_out k b slot i H) as H1.
    destruct (virtio_port Join vmPath (b, slot) i) as [b1 slot1].
    apply (IH _ _ slot1) in H1.
    replace (k + virtio_devices (i :: l)) with (k + virtio_devices [i] + virtio_devices l);
      [done|].
    unfold virtio_devices. rewrite (filter_cons _ i l), (filter_cons _ i []), filter_nil.
    destruct (decide _); cbn; lia.
Qed.

(** The PCI part of the builder lays its devices out as [layout] says. *)
Lemma pci_laid_out a0 :
  pci_trace a0 = [] -> laid_out (n_devices vm) (pci Join vm vmPath a0).
Proof.
  intros H0. unfold pci, n_devices. cbv zeta.
  assert (laid_out 0 (addBus (Builder a0 0 0))) as H1.
  { unfold laid_out, addBus. cbn. by rewrite pci_trace_app, H0. }
  apply (networks_laid_out (Networks vm)) in H1.
  apply cc_laid_out in H1.
  apply (virtio_ports_laid_out (upto (VirtioPorts (KVM vm))) _ _ 0%Z) in H1.
  destruct (fold_left _ _ _) as [b slot]. cbn in H1.
  by rewrite Nat.add_1_r.
Qed.

Lemma pci_trace_qemuArgs_tokens :
  pci_trace (qemuArgs_tokens Join unescapeString hugepagesMountPath vm id vmPath)
  = layout (n_devices vm).
Proof.
  unfold qemuArgs_tokens. cbv zeta.
  pose proof (pci_laid_out _ pci_trace_before_net) as (Ht & _ & _).
  destruct (pci _ _ _ _) as [a b c]. cbn [args] in Ht.
  rewrite !pci_trace_app, Ht.
  destruct (negb _), (0 <? _)%nat; cbn; rewrite ?pci_trace_Str, ?app_nil_r; done.
Qed.

Lemma net_devices_append ts b :
  net_devices (args (append ts b)) = net_devices (args b) ++ net_devices ts.
Proof. apply omap_app. Qed.

Lemma net_devices_next_addr b :
  net_devices (args (next_addr b)) = net_devices (args b).
Proof.
  unfold next_addr, addBus. cbn [args bus addr].
  destruct (_ =? _)%Z; cbn [args]; [|done].
  unfold net_devices. rewrite omap_app. cbn. by rewrite app_nil_r.
Qed.

Lemma net_devices_network b net :
  net_devices (args (network b net))
  = net_devices (args b) ++ [NetDevice net (bus b) (addr b)].
Proof.
  unfold network. cbv zeta. rewrite net_devices_next_addr.
  unfold append, net_devices. cbn [args bus addr]. by rewrite !omap_app, !app_nil_r.
Qed.

(** NIC number [j] of the loop, started after [k] devices, is device
    number [k + j]. *)
Lemma net_devices_networks nets k b :
  laid_out k b ->
  net_devices (args (fold_left network nets b))
  = net_devices (args b)
    ++ imap (fun j net => NetDevice net (1 + Z.of_nat (k + j) / 31)
                                        (1 + Z.of_nat (k + j) mod 31)) nets.
Proof.
  revert k b. induction nets as [|net nets IH]; intros k b H.
  - cbn. by rewrite app_nil_r.
  - cbn [fold_left]. rewrite (IH (S k)) by (by apply network_laid_out).
    rewrite net_devices_network, <- app_assoc. f_equal.
    rewrite imap_cons. destruct H as (_ & -> & ->).
    rewrite Nat.add_0_r. cbn [app]. f_equal.
    apply imap_ext. intros j x _. cbn. by rewrite Nat.add_succ_r.
Qed.

Lemma net_devices_cc b :
  net_devices (args (cc Join vmPath b)) = net_devices (args b).
Proof.
  unfold cc. cbv zeta. rewrite net_devices_next_addr.
  unfold append, net_devices. cbn [args bus addr]. by rewrite !omap_app, !app_nil_r.
Qed.

Lemma net_devices_virtio_ports l b slot :
  net_devices (args (fold_left (virtio_port Join vmPath) l (b, slot)).1)
  = net_devices (args b).
Proof.
  revert b slot. induction l as [|i l IH]; intros b slot; [done|].
  cbn [fold_left].
  destruct (virtio_port Join vmPath (b, slot) i) as [b1 slot1] eqn:E.
  rewrite IH. unfold virtio_port in E.
  destruct (_ =? 1)%N; injection E as <- _;
    rewrite !net_devices_append, ?net_devices_next_addr, ?net_devices_append;
    cbn; by rewrite !app_nil_r.
Qed.

Lemma occ_append s ts b : occ s (args (append ts b)) = occ s (args b) + occ s ts.
Proof. apply occ_app. Qed.

Lemma occ_next_addr s b :
  target s -> occ s (args (next_addr b)) = occ s (args b).
Proof.
  intros H. unfold next_addr, addBus. cbn [args bus addr].
  destruct (_ =? _)%Z; cbn [args]; [|done].
  rewrite occ_app. target_cases H; rewrite !occ_cons_0 by reflexivity; rewrite ?occ_nil; lia.
Qed.

Lemma occ_network s b net :
  target s -> occ s (args (network b net)) = occ s (args b).
Proof.
  intros H. unfold network. cbv zeta.
  rewrite occ_next_addr, !occ_append by done.
  target_cases H; rewrite !occ_cons_0 by reflexivity; rewrite ?occ_nil; lia.
Qed.

Lemma occ_networks s nets b :
  target s -> occ s (args (fold_left network nets b)) = occ s (args b).
Proof.
  intros H. revert b. induction nets as [|net nets IH]; intros b; [done|].
  cbn [fold_left]. by rewrite IH, occ_network.
Qed.

Lemma occ_cc s b :
  target s ->
  occ s (args (cc Join vmPath b))
  = occ s (args b) + (if String.eqb s cc_port then 1 else 0).
Proof.
  intros H. unfold cc. cbv zeta.
  rewrite occ_next_addr, !occ_append by done.
  target_cases H; rewrite ?occ_cons_0 by reflexivity;
    rewrite ?occ_cons, ?occ_nil; cbn [render]; rewrite ?String.eqb_refl;
    [change (String.eqb "-uuid" cc_port) with false
    |change (String.eqb "-pidfile" cc_port) with false|]; cbv iota; lia.
Qed.

Lemma occ_virtio_port s b slot i :
  target s ->
  occ s (args (virtio_port Join vmPath (b, slot) i).1) = occ s (args b).
Proof.
  intros H. unfold virtio_port. cbv zeta.
  destruct (_ =? 1)%N; cbn [fst];
    rewrite !occ_append, ?occ_next_addr, ?occ_append by done;
    target_cases H;
    rewrite ?occ_cons_0 by (first [reflexivity|apply eqb_cc_port_virtio]);
    rewrite ?occ_nil; lia.
Qed.

Lemma occ_virtio_ports s l b slot :
  target s ->
  occ s (args (fold_left (virtio_port Join vmPath) l (b, slot)).1) = occ s (args b).
Proof.
  intros H. revert b slot. induction l as [|i l IH]; intros b slot; [done|].
  cbn [fold_left].
  pose proof (occ_virtio_port s b slot i H) as H1.
  destruct (virtio_port Join vmPath (b, slot) i) as [b1 slot1].
  by rewrite IH.
Qed.

Lemma occ_pci s a0 :
  target s ->
  occ s (args (pci Join vm vmPath a0))
  = occ s a0 + (if String.eqb s cc_port then 1 else 0).
Proof.
  intros H. unfold pci. cbv zeta.
  pose proof (occ_virtio_ports s (upto (VirtioPorts (KVM vm)))
                (cc Join vmPath (fold_left network (Networks vm)
                                   (addBus (Builder a0 0 0)))) 0%Z H) as H1.
  destruct (fold_left (virtio_port Join vmPath) _ _) as [b slot].
  cbn [fst] in H1. rewrite H1, occ_cc, occ_networks by done.
  unfold addBus. cbn [args]. rewrite occ_app.
  target_cases H; rewrite !occ_cons_0 by reflexivity; rewrite ?occ_nil; lia.
Qed.

(** The strings that come into the vector as whole tokens from outside
    the builder. *)
Definition user_strings : list string :=
  [Join vmPath "qemu.pid"; CPU (KVM vm); KernelPath (KVM vm);
   InitrdPath (KVM vm); unescapeString (Append (KVM vm));
   hugepagesMountPath; UUID vm] ++ QemuAppend (KVM vm).

Lemma occ_serial_port s i :
  target s -> occ s (serial_port Join vmPath [] i) = 0.
Proof.
  intros H. unfold serial_port. cbn [app].
  target_cases H; rewrite !occ_cons_0 by reflexivity; done.
Qed.

Lemma occ_disk s d : target s -> occ s (disk [] d) = 0.
Proof.
  intros H. unfold disk. cbn [app].
  target_cases H; rewrite !occ_cons_0 by reflexivity; done.
Qed.

Lemma occ_before_net s :
  target s ->
  Forall (fun u => String.eqb s u = false) user_strings ->
  occ s (before_net Join unescapeString vm id vmPath)
  = if String.eqb s "-pidfile" then 1 else 0.
Proof.
  intros H Hu. unfold user_strings in Hu.
  apply Forall_app in Hu as [Hu _].
  rewrite !Forall_cons in Hu.
  destruct Hu as (Hjoin & Hcpu & Hkernel & Hinitrd & Happend & _).
  unfold before_net. cbv zeta. rewrite fold_serial_port.
  assert (occ s ((if negb (length (DiskPaths (KVM vm)) =? 0)%nat
                  then fold_left disk (DiskPaths (KVM vm))
                  else fun args => args) [])
          = 0) as Hdisks.
  { destruct (negb _); [|done]. rewrite fold_disk. cbn [app].
    apply occ_flat_map_0. intros d. by apply occ_disk. }
  assert (forall a, (if negb (length (DiskPaths (KVM vm)) =? 0)%nat
                     then fold_left disk (DiskPaths (KVM vm))
                     else fun args => args) a
                    = a ++ (if negb (length (DiskPaths (KVM vm)) =? 0)%nat
                            then fold_left disk (DiskPaths (KVM vm))
                            else fun args => args) []) as Hshape.
  { intros a. destruct (negb _); [|by rewrite app_nil_r].
    by rewrite !fold_disk. }
  rewrite Hshape, !occ_app, Hdisks.
  rewrite (occ_flat_map_0 s (serial_port Join vmPath []))
    by (intros; by apply occ_serial_port).
  target_cases H.
  - rewrite !occ_if_0 by (rewrite ?occ_cons_0 by eqb_leaf; done).
    rewrite !occ_cons_0 by eqb_leaf. done.
  - rewrite (occ_cons "-pidfile" (Str "-pidfile")).
    rewrite !occ_if_0 by (rewrite ?occ_cons_0 by eqb_leaf; done).
    rewrite !occ_cons_0 by eqb_leaf. done.
  - rewrite !occ_if_0 by (rewrite ?occ_cons_0 by eqb_leaf; done).
    rewrite !occ_cons_0 by eqb_leaf. done.
Qed.

(** The builder only ever appends. *)
Definition extends (b b' : builder) : Prop := exists ts, args b' = args b ++ ts.

Lemma extends_refl b : extends b b.
Proof. exists []. by rewrite app_nil_r. Qed.

Lemma extends_trans b1 b2 b3 : extends b1 b2 -> extends b2 b3 -> extends b1 b3.
Proof.
  intros [t1 H1] [t2 H2]. exists (t1 ++ t2). by rewrite H2, H1, app_assoc.
Qed.

Lemma extends_append ts b : extends b (append ts b).
Proof. by exists ts. Qed.

Lemma extends_next_addr b : extends b (next_addr b).
Proof.
  unfold next_addr, addBus, extends. cbn [args bus addr].
  destruct (_ =? _)%Z; cbn [args]; [by eexists|].
  exists []. by rewrite app_nil_r.
Qed.

Lemma extends_append_r ts b b' : extends b b' -> extends b (append ts b').
Proof. intros H. eapply extends_trans; [exact H|apply extends_append]. Qed.

Lemma extends_next_addr_r b b' : extends b b' -> extends b (next_addr b').
Proof. intros H. eapply extends_trans; [exact H|apply extends_next_addr]. Qed.

Lemma extends_network b net : extends b (network b net).
Proof.
  unfold network. cbv zeta.
  apply extends_next_addr_r. do 4 apply extends_append_r. apply extends_refl.
Qed.

Lemma extends_networks nets b : extends b (fold_left network nets b).
Proof.
  revert b. induction nets as [|net nets IH]; intros b; [apply extends_refl|].
  cbn [fold_left]. eapply extends_trans; [apply extends_network|apply IH].
Qed.

Lemma extends_cc b : extends b (cc Join vmPath b).
Proof.
  unfold cc. cbv zeta.
  apply extends_next_addr_r. do 6 apply extends_append_r. apply extends_refl.
Qed.

Lemma extends_virtio_port b slot i :
  extends b (virtio_port Join vmPath (b, slot) i).1.
Proof.
  unfold virtio_port. cbv zeta. destruct (_ =? 1)%N; cbn [fst].
  - do 4 apply extends_append_r. apply extends_next_addr_r.
    do 2 apply extends_append_r. apply extends_refl.
  - do 4 apply extends_append_r. apply extends_refl.
Qed.

Lemma extends_virtio_ports l b slot :
  extends b (fold_left (virtio_port Join vmPath) l (b, slot)).1.
Proof.
  revert b slot. induction l as [|i l IH]; intros b slot; [apply extends_refl|].
  cbn [fold_left].
  pose proof (extends_virtio_port b slot i) as H1.
  destruct (virtio_port Join vmPath (b, slot) i) as [b1 slot1].
  eapply extends_trans; [exact H1|apply IH].
Qed.

Lemma pci_extends a0 : exists ts, args (pci Join vm vmPath a0) = a0 ++ ts.
Proof.
  unfold pci. cbv zeta.
  pose proof (extends_virtio_ports (upto (VirtioPorts (KVM vm)))
                (cc Join vmPath (fold_left network (Networks vm)
                                   (addBus (Builder a0 0 0)))) 0%Z) as H.
  destruct (fold_left (virtio_port Join vmPath) _ _) as [b slot]. cbn [fst] in H.
  change (extends (Builder a0 0 0) b).
  eapply extends_trans; [|exact H].
  eapply extends_trans; [|apply extends_cc].
  eapply extends_trans; [|apply extends_networks].
  by eexists.
Qed.

Lemma before_net_pidfile :
  exists pre post,
    before_net Join unescapeString vm id vmPath
    = pre ++ [Str "-pidfile"; Str (Join vmPath "qemu.pid")] ++ post.
Proof.
  unfold before_net. cbv zeta.
  assert (forall (l r m : list arg),
            (exists pre post, l = pre ++ m ++ post) ->
            exists pre post, l ++ r = pre ++ m ++ post) as split_l.
  { intros l r m (pre & post & ->). exists pre, (post ++ r).
    by rewrite <- !app_assoc. }
  assert (forall (f : list arg -> list arg) (l m : list arg),
            (forall a, f a = a ++ f []) ->
            (exists pre post, l = pre ++ m ++ post) ->
            exists pre post, f l = pre ++ m ++ post) as split_f.
  { intros f l m Hf H. rewrite Hf. by apply split_l. }
  repeat lazymatch goal with
    | |- exists pre post, (_ ++ [Str "-pidfile"]) ++ [Str _] = _ =>
        fail
    | |- exists pre post, _ ++ _ = _ => apply split_l
    | |- exists pre post, (if ?c then _ else _) _ = _ =>
        apply split_f;
        [intros a; destruct c; [by rewrite !fold_disk|by rewrite app_nil_r]|]
    end.
  eexists _, []. by rewrite app_nil_r, <- app_assoc.
Qed.

(** NIC number [j], counting from 0, is device number [j]. *)
Lemma net_devices_qemuArgs_tokens :
  net_devices (qemuArgs_tokens Join unescapeString hugepagesMountPath vm id vmPath)
  = imap (fun j net => NetDevice net (1 + Z.of_nat j / 31) (1 + Z.of_nat j mod 31))
      (Networks vm).
Proof.
  unfold qemuArgs_tokens, pci. cbv zeta.
  set (a0 := before_net Join unescapeString vm id vmPath).
  set (b0 := addBus (Builder a0 0 0)).
  assert (laid_out 0 b0) as H0.
  { unfold laid_out, b0, addBus, a0. cbn [args bus addr].
    by rewrite pci_trace_app, pci_trace_before_net. }
  pose proof (net_devices_virtio_ports (upto (VirtioPorts (KVM vm)))
                (cc Join vmPath (fold_left network (Networks vm) b0)) 0%Z) as H.
  destruct (fold_left (virtio_port Join vmPath) _ _) as [[a b c] slot].
  cbn [fst args] in H. unfold net_devices in *.
  rewrite !omap_app, H.
  fold (net_devices (args (cc Join vmPath (fold_left network (Networks vm) b0)))).
  rewrite net_devices_cc, (net_devices_networks _ 0 b0 H0).
  assert (net_devices (args b0) = []) as ->.
  { unfold b0, addBus, net_devices, a0. cbn [args]. rewrite omap_app.
    rewrite (omap_before_net _ (fun _ => eq_refl)). done. }
  cbn [app]. fold net_devices.
  assert (forall l, net_devices (map Str l) = []) as HS
    by (intros l; by apply omap_Str).
  unfold net_devices in HS.
  destruct (negb _), (0 <? _)%nat; cbn; rewrite ?HS, ?app_nil_r; done.
Qed.
End BuilderFacts.

Lemma virtio_devices_seq m :
  virtio_devices (map N.of_nat (seq 0 m)) = (m + 29) / 30.
Proof.
  induction m as [|m IH]; [done|].
  unfold virtio_devices in *. rewrite seq_S, map_app, filter_app, length_app, IH.
  cbn [Nat.add map]. rewrite filter_cons, filter_nil. unfold DEV_PER_VIRTIO.
  pose proof (Nat.div_mod_eq m 30) as Hm.
  pose proof (Nat.mod_upper_bound m 30 ltac:(lia)) as Hlt.
  pose proof (Nat.div_mod_eq (m + 29) 30) as H1.
  pose proof (Nat.mod_upper_bound (m + 29) 30 ltac:(lia)) as H1lt.
  pose proof (Nat.div_mod_eq (S (m + 29)) 30) as H2.
  pose proof (Nat.mod_upper_bound (S (m + 29)) 30 ltac:(lia)) as H2lt.
  assert (N.of_nat m mod 30 = N.of_nat (m mod 30))%N as Hc
    by (by rewrite Nat2N.inj_mod).
  destruct (decide _) as [E|E]; cbn [length]; rewrite Hc in E; lia.
Qed.

Lemma n_devices_eq vm :
  n_devices vm
  = length (Networks vm) + 1 + (N.to_nat (VirtioPorts (KVM vm)) + 29) / 30.
Proof. unfold n_devices, upto. by rewrite virtio_devices_seq. Qed.

(** The tokens of a vector that begin with [p]. *)
Definition with_prefix (p : string) (v : list string) : list string :=
  List.filter (String.prefix p) v.

Definition with_virtio (n : N) (vm : VMConfig) : VMConfig :=
  {| Memory := Memory vm; VCPUs := VCPUs vm; UUID := UUID vm;
     Snapshot := Snapshot vm; Networks := Networks vm;
     KVM := {| QemuPath := QemuPath (KVM vm); KernelPath := KernelPath (KVM vm);
               InitrdPath := InitrdPath (KVM vm); CdromPath := CdromPath (KVM vm);
               MigratePath := MigratePath (KVM vm); CPU := CPU (KVM vm);
               SerialPorts := SerialPorts (KVM vm); VirtioPorts := n;
               Append := Append (KVM vm); DiskPaths := DiskPaths (KVM vm);
               QemuAppend := QemuAppend (KVM vm);
               QemuOverride := QemuOverride (KVM vm) |} |}.

(** The claim of C3 fails at the minimal configuration with 33 copies of one
    NIC: it is the 32nd NIC that carries bus=pci.2,addr=0x1, and the 33rd
    carries bus=pci.2,addr=0x2.  With 811 virtio ports besides, a third
    bridge appears. *)
Lemma nic_33_is_at_addr_2 :
  let v := run (minimal (replicate 33 nic)) in
  with_prefix "driver=" v !! 32
    = Some "driver=e1000,netdev=mega_tap0,mac=00:11:22:33:44:55,bus=pci.2,addr=0x2" /\
  with_prefix "driver=" v !! 31
    = Some "driver=e1000,netdev=mega_tap0,mac=00:11:22:33:44:55,bus=pci.2,addr=0x1" /\
  with_prefix "pci-bridge," v
    = ["pci-bridge,id=pci.1,chassis_nr=1"; "pci-bridge,id=pci.2,chassis_nr=2"] /\
  with_prefix "pci-bridge," (run (with_virtio 811 (minimal (replicate 33 nic))))
    = ["pci-bridge,id=pci.1,chassis_nr=1"; "pci-bridge,id=pci.2,chassis_nr=2";
       "pci-bridge,id=pci.3,chassis_nr=3"].
Proof. cbv zeta. repeat split; vm_compute; reflexivity. Qed.

(** C3 (amended). For a configuration with 33 identical NICs and at most 810
    virtio ports, the builder emits exactly two pci-bridge devices, pci.1 and
    pci.2; the 32nd NIC's device token carries bus=pci.2,addr=0x1 and the
    33rd NIC's carries bus=pci.2,addr=0x2. *)
Theorem qemuArgs_33_nics
    (Join : string -> string -> string) (unescapeString : list string -> string)
    (hugepagesMountPath : string) (vm : VMConfig) (id : Z) (vmPath : string)
    (net : NetConfig) :
  Networks vm = replicate 33 net ->
  (VirtioPorts (KVM vm) <= 810)%N ->
  let ts := qemuArgs_tokens Join unescapeString hugepagesMountPath vm id vmPath in
  bridges (pci_trace ts) = [1; 2]%Z /\
  length (net_devices ts) = 33 /\
  net_devices ts !! 31 = Some (NetDevice net 2 1) /\
  net_devices ts !! 32 = Some (NetDevice net 2 2) /\
  render (PciBridge 1) = "pci-bridge,id=pci.1,chassis_nr=1" /\
  render (PciBridge 2) = "pci-bridge,id=pci.2,chassis_nr=2" /\
  render (NetDevice net 2 1)
    = "driver=" +:+ Driver net +:+ ",netdev=" +:+ Tap net +:+ ",mac=" +:+ MAC net
      +:+ ",bus=pci.2,addr=0x1" /\
  render (NetDevice net 2 2)
    = "driver=" +:+ Driver net +:+ ",netdev=" +:+ Tap net +:+ ",mac=" +:+ MAC net
      +:+ ",bus=pci.2,addr=0x2".
Proof.
  intros Hn Hv ts. unfold ts.
  rewrite pci_trace_qemuArgs_tokens, net_devices_qemuArgs_tokens, bridges_layout.
  rewrite n_devices_eq, Hn, length_replicate.
  split; [|split; [|split; [|split]]]; [| | | |repeat split].
  - assert (31 <= 33 + 1 + (N.to_nat (VirtioPorts (KVM vm)) + 29) / 30 < 62) as H.
    { pose proof (Nat.div_mod_eq (N.to_nat (VirtioPorts (KVM vm)) + 29) 30).
      pose proof (Nat.mod_upper_bound (N.to_nat (VirtioPorts (KVM vm)) + 29) 30
                    ltac:(lia)). lia. }
    revert H. generalize (33 + 1 + (N.to_nat (VirtioPorts (KVM vm)) + 29) / 30).
    intros n H.
    assert (n / 31 = 1) as ->; [|done].
    pose proof (Nat.div_mod_eq n 31). pose proof (Nat.mod_upper_bound n 31 ltac:(lia)).
    nia.
  - by rewrite length_imap, length_replicate.
  - rewrite list_lookup_imap, lookup_replicate_2 by lia. done.
  - rewrite list_lookup_imap, lookup_replicate_2 by lia. done.
Qed.

Lemma qemuArgs_33_nics_witness :
  let ts := qemuArgs_tokens join_clean join_spaces "" (minimal (replicate 33 nic))
              0 "/x" in
  bridges (pci_trace ts) = [1; 2]%Z /\
  net_devices ts !! 32 = Some (NetDevice nic 2 2).
Proof.
  pose proof (qemuArgs_33_nics join_clean join_spaces ""
                (minimal (replicate 33 nic)) 0 "/x" nic eq_refl
                ltac:(vm_compute; discriminate)) as H.
  cbv zeta in *. destruct H as (H1 & _ & _ & H2 & _). split; assumption.
Defined.

Definition appended (l : list string) : VMConfig :=
  {| Memory := 512; VCPUs := 1;
     UUID := "00000000-0000-0000-0000-000000000001"; Snapshot := true;
     Networks := []; KVM := with_QemuAppend l minimal_kvm |}.

(** The claim of C5 fails at a configuration whose qemu-append holds a -uuid
    option, and at one whose qemu-append holds a -pidfile option: the tokens
    are appended verbatim, so each option occurs twice, and the second
    pidfile is outside the instance directory. *)
Lemma qemu_append_repeats_options :
  count "-uuid" (run (appended ["-uuid"; "11111111-2222-3333-4444-555555555555"])) = 2 /\
  count "-pidfile" (run (appended ["-pidfile"; "/tmp/other.pid"])) = 2 /\
  with_prefix "/tmp/" (run (appended ["-pidfile"; "/tmp/other.pid"]))
    = ["/tmp/other.pid"].
Proof. repeat split; vm_compute; reflexivity. Qed.

(** C5 (amended). For every configuration the vector ends with -uuid and the
    uuid, and holds -pidfile followed by the path qemu.pid of the instance
    directory.  When none of the strings passed through from outside the
    builder (that path, the cpu model, kernel and initrd paths, the joined
    append, the hugepages path, the uuid, and the qemu-append tokens) is itself
    the token in question, the vector contains exactly one -uuid, exactly one
    -pidfile, and exactly one virtserialport token with nr=1, name=cc on
    virtio-serial0. *)
Theorem qemuArgs_one_uuid_cc_pidfile
    (Join : string -> string -> string) (unescapeString : list string -> string)
    (hugepagesMountPath : string) (vm : VMConfig) (id : Z) (vmPath : string) :
  let v := qemuArgs Join unescapeString hugepagesMountPath vm id vmPath in
  (exists body, v = body ++ ["-uuid"; UUID vm]) /\
  (exists pre post, v = pre ++ ["-pidfile"; Join vmPath "qemu.pid"] ++ post) /\
  (forall s, target s ->
     Forall (fun u => u <> s)
       (user_strings Join unescapeString hugepagesMountPath vm vmPath) ->
     count s v = 1).
Proof.
  cbv zeta. unfold qemuArgs, qemuArgs_tokens. cbv zeta.
  destruct (pci_extends Join vm vmPath (before_net Join unescapeString vm id vmPath))
    as [ts Hts].
  pose proof (occ_pci Join vm vmPath) as Hpci.
  specialize (Hpci) with (a0 := before_net Join unescapeString vm id vmPath).
  destruct (pci Join vm vmPath _) as [a b c]. cbn [args] in *. subst a.
  split; [|split].
  - rewrite <- (app_assoc _ [Str "-uuid"]), map_app. by eexists.
  - destruct (before_net_pidfile Join unescapeString vm id vmPath)
      as (pre & post & ->).
    exists (map render pre). eexists.
    rewrite <- !app_assoc, !map_app. cbn [map render app]. reflexivity.
  - intros s Hs Hu.
    assert (Forall (fun u => String.eqb s u = false)
              (user_strings Join unescapeString hugepagesMountPath vm vmPath)) as Hu'.
    { eapply Forall_impl; [exact Hu|]. intros u Hne. cbn in Hne.
      apply String.eqb_neq. congruence. }
    fold (occ s (((((before_net Join unescapeString vm id vmPath ++ ts) ++
              (if negb (hugepagesMountPath =? "")%string
               then [Str "-mem-info"; Str hugepagesMountPath] else [])) ++
             (if (0 <? length (QemuAppend (KVM vm)))%nat
              then map Str (QemuAppend (KVM vm)) else [])) ++ [Str "-uuid"]) ++
           [Str (UUID vm)])).
    do 4 rewrite occ_app.
    rewrite (Hpci s Hs), (occ_before_net _ _ _ _ _ _ s Hs Hu').
    unfold user_strings in Hu'. apply Forall_app in Hu' as [Hu1 Hqa].
    rewrite !Forall_cons in Hu1.
    destruct Hu1 as (_ & _ & _ & _ & _ & Hhp & Huuid & _).
    assert (occ s (if (0 <? length (QemuAppend (KVM vm)))%nat
                   then map Str (QemuAppend (KVM vm)) else []) = 0) as ->.
    { destruct (0 <? _)%nat; [by apply occ_Str_0|done]. }
    target_cases Hs.
    + rewrite !occ_if_0 by (rewrite ?occ_cons_0 by eqb_leaf; done).
      rewrite (occ_cons_0 _ (Str (UUID vm))) by eqb_leaf. done.
    + rewrite !occ_if_0 by (rewrite ?occ_cons_0 by eqb_leaf; done).
      rewrite !occ_cons_0 by eqb_leaf. done.
    + rewrite !occ_if_0 by (rewrite ?occ_cons_0 by eqb_leaf; done).
      rewrite !occ_cons_0 by eqb_leaf. done.
Qed.

Lemma qemuArgs_one_uuid_cc_pidfile_witness :
  count "-uuid" (run (minimal [nic])) = 1 /\
  count "-pidfile" (run (minimal [nic])) = 1 /\
  count cc_port (run (minimal [nic])) = 1.
Proof.
  pose proof (qemuArgs_one_uuid_cc_pidfile join_clean join_spaces ""
                (minimal [nic]) 0 "/x") as (_ & _ & H).
  repeat split; apply H;
    solve [ by left | by (right; left) | by (right; right)
          | repeat constructor; discriminate ].
Defined.

(** C4. For every configuration, the devices the builder places on PCI buses
    take addresses 1 through 31 only; no bus holds more than 31 of them, and
    on each bus the addresses are 1, 2, 3, ... in order; the first event is
    the bridge of bus 1, and afterwards a pci-bridge token follows a device
    token exactly when the address counter reached 32 (DEV_PER_BUS) after
    that device. *)
Theorem qemuArgs_at_most_31_per_bus
    (Join : string -> string -> string) (unescapeString : list string -> string)
    (hugepagesMountPath : string) (vm : VMConfig) (id : Z) (vmPath : string) :
  let t := pci_trace (qemuArgs_tokens Join unescapeString hugepagesMountPath
                        vm id vmPath) in
  (forall b a, EDevice b a ∈ t -> (1 <= a <= 31)%Z) /\
  (forall n, length (on_bus n t) <= 31 /\
             on_bus n t = map Z.of_nat (seq 1 (length (on_bus n t)))) /\
  t !! 0 = Some (EBridge 1) /\
  rotates t.
Proof.
  cbv zeta. rewrite pci_trace_qemuArgs_tokens.
  split; [|split; [|split]].
  - intros b a H. apply elem_of_layout in H as [H|(k & _ & [H|[_ H]])];
      try discriminate H.
    injection H as -> ->. Z.div_mod_to_equations; lia.
  - intros n. rewrite on_bus_layout, length_map, length_seq.
    split; [apply taken_le|done].
  - done.
  - apply rotates_layout.
Qed.

(** *** The general placement of NICs and bridges *)

(** X4. For every configuration the NIC device tokens of the vector are
    those of the configured NICs, in order, and NIC number j (from 0) is at
    address 1 + j mod 31 of bus 1 + j / 31. *)
Theorem qemuArgs_nic_placement
    (Join : string -> string -> string) (unescapeString : list string -> string)
    (hugepagesMountPath : string) (vm : VMConfig) (id : Z) (vmPath : string) :
  net_devices (qemuArgs_tokens Join unescapeString hugepagesMountPath vm id vmPath)
  = imap (fun j net => NetDevice net (1 + Z.of_nat j / 31) (1 + Z.of_nat j mod 31))
      (Networks vm).
Proof. apply net_devices_qemuArgs_tokens. Qed.

(** The devices of a trace. *)
Definition devices (t : list pci_event) : list (Z * Z) :=
  omap (fun e => match e with EDevice b a => Some (b, a) | EBridge _ => None end) t.

Lemma devices_layout n :
  devices (layout n)
  = map (fun k => (1 + Z.of_nat k / 31, 1 + Z.of_nat k mod 31)%Z) (seq 0 n).
Proof.
  induction n as [|n IH]; [done|].
  rewrite layout_S. unfold devices in *. rewrite omap_app, IH, seq_S, map_app.
  f_equal. unfold slot_events. cbn. by destruct (_ =? 30)%Z.
Qed.

(** X5. With n the number of NICs plus one for the cc device plus one for
    each started group of 30 virtio ports, the vector puts exactly n devices
    on PCI buses, device k at address 1 + k mod 31 of bus 1 + k / 31, and
    creates exactly the bridges pci.1, ..., pci.(1 + n / 31), in that
    order. *)
Theorem qemuArgs_bridge_count
    (Join : string -> string -> string) (unescapeString : list string -> string)
    (hugepagesMountPath : string) (vm : VMConfig) (id : Z) (vmPath : string) :
  let t := pci_trace (qemuArgs_tokens Join unescapeString hugepagesMountPath
                        vm id vmPath) in
  let n := length (Networks vm) + 1
           + (N.to_nat (VirtioPorts (KVM vm)) + 29) / 30 in
  devices t = map (fun k => (1 + Z.of_nat k / 31, 1 + Z.of_nat k mod 31)%Z) (seq 0 n) /\
  bridges t = map Z.of_nat (seq 1 (S (n / 31))).
Proof.
  cbv zeta. rewrite pci_trace_qemuArgs_tokens, n_devices_eq.
  split; [apply devices_layout|apply bridges_layout].
Qed.

(** *** The virtio-serial devices and their ports *)

(** The ids of the virtio-serial-pci devices of a vector, in order. *)
Definition virtio_slots (l : list arg) : list Z :=
  omap (fun a => match a with VirtioSerialPci s _ _ => Some s | _ => None end) l.

(** The device token of port [i] when it is port number [i mod 30 + 1] of
    the virtio-serial device [1 + i / 30]. *)
Definition port_token (i : N) : string :=
  "virtserialport,nr=" +:+ utoa (i mod 30 + 1)
  +:+ ",bus=virtio-serial" +:+ itoa (1 + Z.of_N (i / 30))
  +:+ ".0,chardev=charvserial" +:+ utoa i
  +:+ ",id=charvserial" +:+ utoa i +:+ ",name=virtio-serial" +:+ utoa i.

Section VirtioFacts.
Variable Join : string -> string -> string.
Variable vmPath : string.

Lemma virtio_slots_next_addr b :
  virtio_slots (args (next_addr b)) = virtio_slots (args b).
Proof.
  unfold next_addr, addBus. cbn [args bus addr].
  destruct (_ =? _)%Z; cbn [args]; [|done].
  unfold virtio_slots. rewrite omap_app. cbn. by rewrite app_nil_r.
Qed.

Lemma virtio_slots_network b net :
  virtio_slots (args (network b net)) = virtio_slots (args b).
Proof.
  unfold network. cbv zeta. rewrite virtio_slots_next_addr.
  unfold append, virtio_slots. cbn [args bus addr].
  rewrite !omap_app. cbn. by rewrite !app_nil_r.
Qed.

Lemma virtio_slots_networks nets b :
  virtio_slots (args (fold_left network nets b)) = virtio_slots (args b).
Proof.
  revert b. induction nets as [|net nets IH]; intros b; [done|].
  cbn [fold_left]. by rewrite IH, virtio_slots_network.
Qed.

Lemma virtio_slots_cc b :
  virtio_slots (args (cc Join vmPath b)) = virtio_slots (args b) ++ [0%Z].
Proof.
  unfold cc. cbv zeta. rewrite virtio_slots_next_addr.
  unfold append, virtio_slots. cbn [args bus addr].
  rewrite !omap_app. cbn. by rewrite !app_nil_r.
Qed.

(** One turn of the virtio loop: a port whose index is a multiple of 30
    opens the next virtio-serial device, and every port goes to the device
    that is current after that. *)
Lemma virtio_port_step b slot i :
  let st := virtio_port Join vmPath (b, slot) i in
  let slot' := if (i mod 30 =? 0)%N then (slot + 1)%Z else slot in
  st.2 = slot' /\
  virtio_slots (args st.1)
    = virtio_slots (args b) ++ (if (i mod 30 =? 0)%N then [slot'] else []) /\
  Str ("virtserialport,nr=" +:+ utoa (i mod 30 + 1)
       +:+ ",bus=virtio-serial" +:+ itoa slot'
       +:+ ".0,chardev=charvserial" +:+ utoa i
       +:+ ",id=charvserial" +:+ utoa i +:+ ",name=virtio-serial" +:+ utoa i)
    ∈ args st.1.
Proof.
  cbv zeta. unfold virtio_port. cbv zeta. unfold DEV_PER_VIRTIO.
  destruct (N.eqb_spec (i mod 30 + 1) 1) as [E|E].
  - assert ((i mod 30 =? 0)%N = true) as -> by (apply N.eqb_eq; lia).
    cbn [fst snd]. split; [done|]. split.
    + rewrite virtio_slots_next_addr || idtac.
      unfold append, virtio_slots. cbn [args bus addr].
      unfold next_addr, addBus. cbn [args bus addr].
      destruct (_ =? _)%Z; cbn [args]; rewrite !omap_app; cbn;
        by rewrite ?app_nil_r.
    + unfold append. cbn [args]. set_solver.
  - assert ((i mod 30 =? 0)%N = false) as -> by (apply N.eqb_neq; lia).
    cbn [fst snd]. split; [done|]. split.
    + unfold append, virtio_slots. cbn [args bus addr].
      rewrite !omap_app. cbn. by rewrite !app_nil_r.
    + unfold append. cbn [args]. set_solver.
Qed.

Lemma virtio_loop m b0 :
  let st := fold_left (virtio_port Join vmPath) (map N.of_nat (seq 0 m)) (b0, 0%Z) in
  st.2 = Z.of_nat ((m + 29) / 30) /\
  virtio_slots (args st.1)
    = virtio_slots (args b0) ++ map Z.of_nat (seq 1 ((m + 29) / 30)) /\
  (forall i, i < m -> Str (port_token (N.of_nat i)) ∈ args st.1).
Proof.
  cbv zeta. induction m as [|m IH].
  - cbn [seq map fold_left fst snd].
    split; [done|]. split; [by rewrite app_nil_r|]. intros i Hi. lia.
  - rewrite seq_S, map_app, fold_left_app, Nat.add_0_l. cbn [map fold_left].
    destruct IH as (Hs & Hv & Hp).
    destruct (fold_left _ _ _) as [b slot]. cbn [fst snd] in Hs, Hv, Hp.
    subst slot.
    pose proof (virtio_port_step b (Z.of_nat ((m + 29) / 30)) (N.of_nat m))
      as (S1 & S2 & S3).
    pose proof (extends_virtio_port Join vmPath b (Z.of_nat ((m + 29) / 30))
                  (N.of_nat m)) as [ts Hts].
    cbv zeta in S1, S2, S3.
    pose proof (Nat.div_mod_eq m 30) as Hm.
    pose proof (Nat.mod_upper_bound m 30 ltac:(lia)) as Hlt.
    pose proof (Nat.div_mod_eq (m + 29) 30) as H1.
    pose proof (Nat.mod_upper_bound (m + 29) 30 ltac:(lia)) as H1lt.
    pose proof (Nat.div_mod_eq (S m + 29) 30) as H2.
    pose proof (Nat.mod_upper_bound (S m + 29) 30 ltac:(lia)) as H2lt.
    assert (N.of_nat m mod 30 = N.of_nat (m mod 30))%N as Hc
      by (by rewrite Nat2N.inj_mod).
    assert (N.of_nat m / 30 = N.of_nat (m / 30))%N as Hd
      by (by rewrite Nat2N.inj_div).
    destruct (virtio_port Join vmPath (b, Z.of_nat ((m + 29) / 30)) (N.of_nat m))
      as [b1 slot1].
    cbn [fst snd] in *.
    revert S1 S2 S3.
    destruct (N.eqb_spec (N.of_nat m mod 30) 0) as [E|E]; intros S1 S2 S3.
    + assert ((S m + 29) / 30 = S ((m + 29) / 30)) as Hq by lia.
      split; [lia|]. split.
      * rewrite S2, Hv, <- app_assoc, Hq, seq_S, map_app. cbn [map].
        do 3 f_equal. lia.
      * intros i Hi. destruct (decide (i = m)) as [->|Hne].
        -- unfold port_token. rewrite Hd.
           replace (1 + Z.of_N (N.of_nat (m / 30)))%Z
             with (Z.of_nat ((m + 29) / 30) + 1)%Z by lia.
           exact S3.
        -- rewrite Hts. apply elem_of_app. left. apply Hp. lia.
    + assert ((S m + 29) / 30 = (m + 29) / 30) as Hq by lia.
      split; [lia|]. split.
      * by rewrite S2, Hv, app_nil_r, Hq.
      * intros i Hi. destruct (decide (i = m)) as [->|Hne].
        -- unfold port_token. rewrite Hd.
           replace (1 + Z.of_N (N.of_nat (m / 30)))%Z
             with (Z.of_nat ((m + 29) / 30)) by lia.
           exact S3.
        -- rewrite Hts. apply elem_of_app. left. apply Hp. lia.
Qed.

End VirtioFacts.

(** X6. The virtio-serial devices of the vector have the ids 0, 1, ...,
    ceil(VirtioPorts / 30), in that order: device 0 carries the cc port, and
    a new device is opened for every 30 ports.  Port i of the configuration
    is port number i mod 30 + 1 of device 1 + i / 30, a device the vector
    creates. *)
Theorem qemuArgs_virtio_ports
    (Join : string -> string -> string) (unescapeString : list string -> string)
    (hugepagesMountPath : string) (vm : VMConfig) (id : Z) (vmPath : string) :
  let v := qemuArgs_tokens Join unescapeString hugepagesMountPath vm id vmPath in
  let n := N.to_nat (VirtioPorts (KVM vm)) in
  virtio_slots v = map Z.of_nat (seq 0 (1 + (n + 29) / 30)) /\
  (forall i, (i < VirtioPorts (KVM vm))%N ->
     port_token i ∈ qemuArgs Join unescapeString hugepagesMountPath vm id vmPath /\
     (1 + Z.of_N (i / 30))%Z ∈ virtio_slots v).
Proof.
  cbv zeta.
  assert (virtio_slots (qemuArgs_tokens Join unescapeString hugepagesMountPath
                          vm id vmPath)
          = map Z.of_nat (seq 0 (1 + (N.to_nat (VirtioPorts (KVM vm)) + 29) / 30))
          /\ forall i, i < N.to_nat (VirtioPorts (KVM vm)) ->
               Str (port_token (N.of_nat i))
               ∈ qemuArgs_tokens Join unescapeString hugepagesMountPath vm id vmPath)
    as [Hslots Hports].
  { unfold qemuArgs_tokens, pci, upto. cbv zeta.
    set (b0 := cc Join vmPath
                 (fold_left network (Networks vm)
                    (addBus (Builder (before_net Join unescapeString vm id vmPath) 0 0)))).
    pose proof (virtio_loop Join vmPath (N.to_nat (VirtioPorts (KVM vm))) b0)
      as (_ & Hv & Hp).
    destruct (fold_left (virtio_port Join vmPath) _ _) as [[a b c] slot].
    cbn [fst args] in Hv, Hp.
    assert (virtio_slots (args b0) = [0%Z]) as Hb0.
    { unfold b0. rewrite virtio_slots_cc, virtio_slots_networks.
      unfold addBus, virtio_slots. cbn [args]. rewrite omap_app.
      rewrite (omap_before_net _ _ _ _ _ _ (fun _ => eq_refl)). done. }
    assert (forall l, virtio_slots (map Str l) = []) as HS
      by (intros l; by apply omap_Str).
    split.
    - unfold virtio_slots in *. rewrite !omap_app, Hv, Hb0.
      destruct (negb _), (0 <? _)%nat; cbn [omap]; rewrite ?HS, ?app_nil_r;
        cbn; rewrite ?app_nil_r; by rewrite <- seq_shift, map_map.
    - intros i Hi. rewrite !elem_of_app. do 4 left. by apply Hp. }
  split; [exact Hslots|]. intros i Hi. split.
  - unfold qemuArgs. apply (list_elem_of_fmap_2 render _ (Str (port_token i))).
    rewrite <- (N2Nat.id i). apply Hports. lia.
  - rewrite Hslots. apply list_elem_of_fmap.
    exists (S (N.to_nat (i / 30))). split; [lia|].
    apply elem_of_seq.
    assert (N.to_nat (i / 30) = N.to_nat i / 30) as -> by (by rewrite N2Nat.inj_div).
    pose proof (Nat.div_mod_eq (N.to_nat i) 30).
    pose proof (Nat.mod_upper_bound (N.to_nat i) 30 ltac:(lia)).
    pose proof (Nat.div_mod_eq (N.to_nat (VirtioPorts (KVM vm)) + 29) 30).
    pose proof (Nat.mod_upper_bound (N.to_nat (VirtioPorts (KVM vm)) + 29) 30 ltac:(lia)).
    lia.
Qed.

(** *** The optional flags *)

(** The flags that qemuArgs emits under a condition on the configuration,
    each with its condition. *)
Definition optional_flags (hugepagesMountPath : string) (vm : VMConfig)
    : list (string * bool) :=
  [("-cpu", negb (String.eqb (CPU (KVM vm)) ""));
   ("-incoming", negb (String.eqb (MigratePath (KVM vm)) ""));
   ("-snapshot", Snapshot vm);
   ("-kernel", negb (String.eqb (KernelPath (KVM vm)) ""));
   ("-initrd", negb (String.eqb (InitrdPath (KVM vm)) ""));
   ("-append", (0 <? length (Append (KVM vm)))%nat);
   ("-boot", negb (String.eqb (CdromPath (KVM vm)) ""));
   ("-mem-info", negb (String.eqb hugepagesMountPath ""))].

Definition optional (s : string) : Prop :=
  In s ["-cpu"; "-incoming"; "-snapshot"; "-kernel"; "-initrd"; "-append";
        "-boot"; "-mem-info"].

Ltac optional_cases H :=
  cbn in H; repeat (destruct H as [<-|H]); [..|destruct H].

Section FlagFacts.
Variable Join : string -> string -> string.
Variable unescapeString : list string -> string.
Variable hugepagesMountPath : string.
Variable vm : VMConfig.
Variable id : Z.
Variable vmPath : string.

Lemma opt_next_addr s b :
  optional s -> occ s (args (next_addr b)) = occ s (args b).
Proof.
  intros H. unfold next_addr, addBus. cbn [args bus addr].
  destruct (_ =? _)%Z; cbn [args]; [|done].
  rewrite occ_app.
  optional_cases H; rewrite !occ_cons_0 by reflexivity; rewrite ?occ_nil; lia.
Qed.

Lemma opt_network s b net :
  optional s -> occ s (args (network b net)) = occ s (args b).
Proof.
  intros H. unfold network. cbv zeta.
  rewrite opt_next_addr, !occ_append by done.
  optional_cases H; rewrite !occ_cons_0 by reflexivity; rewrite ?occ_nil; lia.
Qed.

Lemma opt_networks s nets b :
  optional s -> occ s (args (fold_left network nets b)) = occ s (args b).
Proof.
  intros H. revert b. induction nets as [|net nets IH]; intros b; [done|].
  cbn [fold_left]. by rewrite IH, opt_network.
Qed.

Lemma opt_cc s b :
  optional s -> occ s (args (cc Join vmPath b)) = occ s (args b).
Proof.
  intros H. unfold cc. cbv zeta.
  rewrite opt_next_addr, !occ_append by done.
  optional_cases H; rewrite !occ_cons_0 by reflexivity; rewrite ?occ_nil; lia.
Qed.

Lemma opt_virtio_port s b slot i :
  optional s ->
  occ s (args (virtio_port Join vmPath (b, slot) i).1) = occ s (args b).
Proof.
  intros H. unfold virtio_port. cbv zeta.
  destruct (_ =? 1)%N; cbn [fst];
    rewrite !occ_append, ?opt_next_addr, ?occ_append by done;
    optional_cases H; rewrite ?occ_cons_0 by reflexivity; rewrite ?occ_nil; lia.
Qed.

Lemma opt_virtio_ports s l b slot :
  optional s ->
  occ s (args (fold_left (virtio_port Join vmPath) l (b, slot)).1) = occ s (args b).
Proof.
  intros H. revert b slot. induction l as [|i l IH]; intros b slot; [done|].
  cbn [fold_left].
  pose proof (opt_virtio_port s b slot i H) as H1.
  destruct (virtio_port Join vmPath (b, slot) i) as [b1 slot1].
  by rewrite IH.
Qed.

Lemma opt_pci s a0 :
  optional s -> occ s (args (pci Join vm vmPath a0)) = occ s a0.
Proof.
  intros H. unfold pci. cbv zeta.
  pose proof (opt_virtio_ports s (upto (VirtioPorts (KVM vm)))
                (cc Join vmPath (fold_left network (Networks vm)
                                   (addBus (Builder a0 0 0)))) 0%Z H) as H1.
  destruct (fold_left (virtio_port Join vmPath) _ _) as [b slot].
  cbn [fst] in H1. rewrite H1, opt_cc, opt_networks by done.
  unfold addBus. cbn [args]. rewrite occ_app.
  optional_cases H; rewrite !occ_cons_0 by reflexivity; rewrite ?occ_nil; lia.
Qed.

Lemma opt_serial_port s i :
  optional s -> occ s (serial_port Join vmPath [] i) = 0.
Proof.
  intros H. unfold serial_port. cbn [app].
  optional_cases H; rewrite !occ_cons_0 by reflexivity; done.
Qed.

Lemma opt_disk s d : optional s -> occ s (disk [] d) = 0.
Proof.
  intros H. unfold disk. cbn [app].
  optional_cases H; rewrite !occ_cons_0 by reflexivity; done.
Qed.

Ltac count_flag :=
  lazymatch goal with
  | |- context [occ ?s _] =>
      rewrite ?(occ_cons s (Str s));
      rewrite ?occ_if_0 by (rewrite ?occ_cons_0 by eqb_leaf; done);
      rewrite ?occ_cons_0 by eqb_leaf;
      cbn [render]; rewrite ?String.eqb_refl; rewrite ?occ_nil
  end.

Lemma opt_before_net s c :
  In (s, c) (optional_flags hugepagesMountPath vm) ->
  Forall (fun u => String.eqb s u = false)
    (user_strings Join unescapeString hugepagesMountPath vm vmPath) ->
  occ s (before_net Join unescapeString vm id vmPath)
  = if String.eqb s "-mem-info" then 0 else if c then 1 else 0.
Proof.
  intros H Hu. unfold user_strings in Hu.
  apply Forall_app in Hu as [Hu _].
  rewrite !Forall_cons in Hu.
  destruct Hu as (Hjoin & Hcpu & Hkernel & Hinitrd & Happend & _).
  assert (optional s) as Hs.
  { unfold optional_flags in H. cbn in H.
    repeat (destruct H as [[= <- _]|H]; [cbn; tauto|]). destruct H. }
  unfold before_net. cbv zeta. rewrite fold_serial_port.
  assert (occ s ((if negb (length (DiskPaths (KVM vm)) =? 0)%nat
                  then fold_left disk (DiskPaths (KVM vm))
                  else fun args => args) [])
          = 0) as Hdisks.
  { destruct (negb _); [|done]. rewrite fold_disk. cbn [app].
    apply occ_flat_map_0. intros d. by apply opt_disk. }
  assert (forall a, (if negb (length (DiskPaths (KVM vm)) =? 0)%nat
                     then fold_left disk (DiskPaths (KVM vm))
                     else fun args => args) a
                    = a ++ (if negb (length (DiskPaths (KVM vm)) =? 0)%nat
                            then fold_left disk (DiskPaths (KVM vm))
                            else fun args => args) []) as Hshape.
  { intros a. destruct (negb _); [|by rewrite app_nil_r].
    by rewrite !fold_disk. }
  rewrite Hshape, !occ_app, Hdisks.
  rewrite (occ_flat_map_0 s (serial_port Join vmPath []))
    by (intros; by apply opt_serial_port).
  unfold optional_flags in H. cbn [In] in H.
  repeat (destruct H as [[= <- <-]|H]); [..|destruct H].
  all: lazymatch goal with
       | |- _ = if _ then _ else if ?c then _ else _ => destruct c
       end.
  all: repeat count_flag.
  all: try reflexivity.
Qed.

End FlagFacts.

(** X7. Each flag that qemuArgs emits under a condition (-cpu, -incoming,
    -snapshot, -kernel, -initrd, -append, -boot, -mem-info) occurs in the
    vector once when its condition holds and not at all otherwise, provided
    no string passed through verbatim is itself that flag. *)
Theorem qemuArgs_optional_flags
    (Join : string -> string -> string) (unescapeString : list string -> string)
    (hugepagesMountPath : string) (vm : VMConfig) (id : Z) (vmPath : string)
    (s : string) (c : bool) :
  In (s, c) (optional_flags hugepagesMountPath vm) ->
  Forall (fun u => u <> s)
    (user_strings Join unescapeString hugepagesMountPath vm vmPath) ->
  count s (qemuArgs Join unescapeString hugepagesMountPath vm id vmPath)
  = if c then 1 else 0.
Proof.
  intros H Hu.
  assert (Forall (fun u => String.eqb s u = false)
            (user_strings Join unescapeString hugepagesMountPath vm vmPath)) as Hu'.
  { eapply Forall_impl; [exact Hu|]. intros u Hne. cbn in Hne.
    apply String.eqb_neq. congruence. }
  assert (optional s) as Hs.
  { unfold optional_flags in H. cbn in H.
    repeat (destruct H as [[= <- _]|H]; [cbn; tauto|]). destruct H. }
  unfold qemuArgs, qemuArgs_tokens. cbv zeta.
  pose proof (opt_pci Join vm vmPath s
                (before_net Join unescapeString vm id vmPath) Hs) as Hpci.
  destruct (pci Join vm vmPath _) as [a b0 c0]. cbn [args] in Hpci.
  fold (occ s ((((a ++
              (if negb (hugepagesMountPath =? "")%string
               then [Str "-mem-info"; Str hugepagesMountPath] else [])) ++
             (if (0 <? length (QemuAppend (KVM vm)))%nat
              then map Str (QemuAppend (KVM vm)) else [])) ++ [Str "-uuid"]) ++
           [Str (UUID vm)])).
  do 4 rewrite occ_app.
  rewrite Hpci, (opt_before_net Join unescapeString hugepagesMountPath vm id vmPath
                   s c H Hu').
  unfold user_strings in Hu'. apply Forall_app in Hu' as [Hu1 Hqa].
  rewrite !Forall_cons in Hu1.
  destruct Hu1 as (_ & _ & _ & _ & _ & Hhp & Huuid & _).
  assert (occ s (if (0 <? length (QemuAppend (KVM vm)))%nat
                 then map Str (QemuAppend (KVM vm)) else []) = 0) as ->.
  { destruct (0 <? _)%nat; [by apply occ_Str_0|done]. }
  rewrite (occ_cons_0 _ (Str (UUID vm))) by eqb_leaf. rewrite occ_nil.
  unfold optional_flags in H. cbn [In] in H.
  repeat (destruct H as [[= <- <-]|H]); [..|destruct H].
  1-7: rewrite !occ_if_0 by (rewrite ?occ_cons_0 by eqb_leaf; done);
       rewrite !occ_cons_0 by eqb_leaf; rewrite occ_nil;
       change (String.eqb _ "-mem-info") with false; cbv iota; lia.
  rewrite (occ_cons_0 _ (Str "-uuid")) by eqb_leaf. rewrite occ_nil.
  destruct (negb _).
  - rewrite (occ_cons "-mem-info" (Str "-mem-info")), occ_cons_0 by eqb_leaf.
    done.
  - done.
Qed.

Lemma qemuArgs_optional_flags_witness :
  count "-snapshot" (run (minimal [nic])) = 1 /\
  count "-cpu" (run (minimal [nic])) = 1 /\
  count "-kernel" (run (minimal [nic])) = 0 /\
  count "-boot" (run (minimal [nic])) = 0.
Proof.
  split; [|split; [|split]].
  - apply (qemuArgs_optional_flags join_clean join_spaces "" (minimal [nic]) 0 "/x"
             "-snapshot" true);
      [cbn; tauto|repeat constructor; discriminate].
  - apply (qemuArgs_optional_flags join_clean join_spaces "" (minimal [nic]) 0 "/x"
             "-cpu" true);
      [cbn; tauto|repeat constructor; discriminate].
  - apply (qemuArgs_optional_flags join_clean join_spaces "" (minimal [nic]) 0 "/x"
             "-kernel" false);
      [cbn; tauto|repeat constructor; discriminate].
  - apply (qemuArgs_optional_flags join_clean join_spaces "" (minimal [nic]) 0 "/x"
             "-boot" false);
      [cbn; tauto|repeat constructor; discriminate].
Defined.

End ArgsFacts.


(** ** The supervisor: state changes, hotplug and cdrom of a [KvmVM] *)

Module Supervisor.

(** Modelled from the spec: [VMState] and its constants are declared outside
    kvm.go; the data model gives the five states and makes each a bit, so that
    [vm.State&VM_RUNNING] tests one of them. *)
Definition VM_BUILDING : Z := 1.
Definition VM_RUNNING : Z := 2.
Definition VM_PAUSED : Z := 4.
Definition VM_QUIT : Z := 8.
Definition VM_ERROR : Z := 16.

Record vmHotplug := { Disk : string; Version : string }.

(** The fields of [KvmVM], with those of the embedded [BaseVM] and
    [KVMConfig], that the operations below read or write. *)
Record KvmVM := VM {
  ID : Z;
  Name : string;
  State : Z;
  Snapshot : bool;
  DiskPaths : list string;
  CdromPath : string;
  hotplug : gmap Z vmHotplug
}.

Definition with_State (s : Z) (vm : KvmVM) : KvmVM :=
  VM (ID vm) (Name vm) s (Snapshot vm) (DiskPaths vm) (CdromPath vm) (hotplug vm).
Definition with_CdromPath (c : string) (vm : KvmVM) : KvmVM :=
  VM (ID vm) (Name vm) (State vm) (Snapshot vm) (DiskPaths vm) c (hotplug vm).
Definition with_hotplug (h : gmap Z vmHotplug) (vm : KvmVM) : KvmVM :=
  VM (ID vm) (Name vm) (State vm) (Snapshot vm) (DiskPaths vm) (CdromPath vm) h.

(** The calls made on the QMP connection [vm.q]. *)
Inductive qmp_cmd :=
| QStart
| QStop
| QDriveAdd (id file : string)
| QUSBDeviceAdd (id bus : string)
| QUSBDeviceDel (id : string)
| QDriveDel (id : string)
| QBlockdevEject (device : string)
| QBlockdevChange (device file : string).

Inductive error :=
| ErrUnstoppable
| ErrNotRunning (id : string)
| ErrQMP (e : string)
| ErrInvalidVersion (version : string)
| ErrNoHotplugDevices
| ErrNoSuchHotplug
| ErrNoCdrom
| ErrDiskConflict (name disk : string)
| ErrOther (e : string).

Section Peer.
(** QEMU behind the QMP socket: a state [Q] and its answer to each call, an
    error message or nil. *)
Variable Q : Type.
Variable qmp : qmp_cmd -> Q -> option string * Q.

(** A VM, its peer, and the calls sent so far. *)
Record world := World { vm : KvmVM; peer : Q; sent : list qmp_cmd }.

Definition call (c : qmp_cmd) (w : world) : option string * world :=
  let '(r, q) := qmp c (peer w) in
  (r, World (vm w) q (sent w ++ [c])).

Definition update (f : KvmVM -> KvmVM) (w : world) : world :=
  World (f (vm w)) (peer w) (sent w).

(** Modelled from the spec: [BaseVM.setState] and [BaseVM.setError] are
    defined outside kvm.go; the first moves the VM to the given state, the
    second to [ERROR]. *)
Definition setState (s : Z) (w : world) : world := update (with_State s) w.
Definition setError (w : world) : world := update (with_State VM_ERROR) w.

Definition Stop (w : world) : option error * world :=
  if String.eqb (Name (vm w)) "vince" then (Some ErrUnstoppable, w)
  else if negb (State (vm w) =? VM_RUNNING)%Z then
    (Some (ErrNotRunning (Args.itoa (ID (vm w)))), w)
  else
    match call QStop w with
    | (Some err, w) => (Some (ErrQMP err), setError w)
    | (None, w) => (None, setState VM_PAUSED w)
    end.

(** [launch] spawns QEMU and connects to it; [Start] only looks at its
    result. *)
Variable launch : world -> option error * world.

Definition Start (w : world) : option error * world :=
  if negb (Z.land (State (vm w)) VM_RUNNING =? 0)%Z then (None, w)
  else
    let '(r, w) :=
      if ((State (vm w) =? VM_QUIT) || (State (vm w) =? VM_ERROR))%Z
      then launch w else (None, w) in
    match r with
    | Some err => (Some err, w)
    | None =>
      match call QStart w with
      | (Some err, w) => (Some (ErrQMP err), setError w)
      | (None, w) => (None, setState VM_RUNNING w)
      end
    end.

(** The id search of [Hotplug]: one pass over the table in whatever order
    the map is ranged over. *)
Definition next_id (h : gmap Z vmHotplug) : Z :=
  map_fold (fun k _ id => if (k >=? id)%Z then (k + 1)%Z else id) 0%Z h.

Definition hid (id : Z) : string := "hotplug" +:+ Args.itoa id.

Definition Hotplug (f version : string) (w : world) : option error * world :=
  let sel :=
    if String.eqb version "" || String.eqb version "1.1"
    then inr ("1.1", "usb-bus.0")
    else if String.eqb version "2.0" then inr (version, "ehci.0")
    else inl (ErrInvalidVersion version) in
  match sel with
  | inl err => (Some err, w)
  | inr (version, bus) =>
    let id := next_id (hotplug (vm w)) in
    match call (QDriveAdd (hid id) f) w with
    | (Some err, w) => (Some (ErrQMP err), w)
    | (None, w) =>
      match call (QUSBDeviceAdd (hid id) bus) w with
      | (Some err, w) => (Some (ErrQMP err), w)
      | (None, w) =>
        (None, update (fun v => with_hotplug (<[id := {| Disk := f; Version := version |}]> (hotplug v)) v) w)
      end
    end
  end.

Definition hotplugRemove (id : Z) (w : world) : option error * world :=
  match hotplug (vm w) !! id with
  | None => (Some ErrNoSuchHotplug, w)
  | Some _ =>
    match call (QUSBDeviceDel (hid id)) w with
    | (Some err, w) => (Some (ErrQMP err), w)
    | (None, w) =>
      match call (QDriveDel (hid id)) w with
      | (Some err, w) => (Some (ErrQMP err), w)
      | (None, w) => (None, update (fun v => with_hotplug (delete id (hotplug v)) v) w)
      end
    end
  end.

Definition HotplugRemove (id : Z) (w : world) : option error * world :=
  hotplugRemove id w.

(** The loop of [HotplugRemoveAll] over the keys in the order [ks] the range
    yields them; a key deleted before it is reached is not produced, and the
    first error ends the loop. *)
Fixpoint remove_each (ks : list Z) (w : world) : option error * world :=
  match ks with
  | [] => (None, w)
  | k :: ks =>
    match hotplug (vm w) !! k with
    | None => remove_each ks w
    | Some _ =>
      match hotplugRemove k w with
      | (Some err, w) => (Some err, w)
      | (None, w) => remove_each ks w
      end
    end
  end.

Definition HotplugRemoveAll (ks : list Z) (w : world) : option error * world :=
  if (size (hotplug (vm w)) =? 0)%nat then (Some ErrNoHotplugDevices, w)
  else remove_each ks w.

Definition HotplugInfo (w : world) : gmap Z vmHotplug :=
  map_fold (fun k v res => <[k := {| Disk := Disk v; Version := Version v |}]> res)
    ∅ (hotplug (vm w)).

Definition ejectCD (w : world) : option error * world :=
  match call (QBlockdevEject "ide0-cd1") w with
  | (None, w) => (None, update (with_CdromPath "") w)
  | (Some err, w) => (Some (ErrQMP err), w)
  end.

Definition EjectCD (w : world) : option error * world :=
  if String.eqb (CdromPath (vm w)) "" then (Some ErrNoCdrom, w)
  else ejectCD w.

Definition ChangeCD (f : string) (w : world) : option error * world :=
  let '(r, w) :=
    if negb (String.eqb (CdromPath (vm w)) "") then ejectCD w else (None, w) in
  match r with
  | Some err => (Some err, w)
  | None =>
    match call (QBlockdevChange "ide0-cd1" f) w with
    | (None, w) => (None, update (with_CdromPath f) w)
    | (Some err, w) => (Some (ErrQMP err), w)
    end
  end.

(** The state change of the goroutine that waits for QEMU to exit; [err] is
    what [cmd.Wait] returned. *)
Definition exited (err : option string) (v : KvmVM) : KvmVM :=
  match err with
  | Some e =>
    if negb (String.eqb e "signal: killed") then with_State VM_ERROR v
    else if negb (State v =? VM_ERROR)%Z then with_State VM_QUIT v else v
  | None =>
    if negb (State v =? VM_ERROR)%Z then with_State VM_QUIT v else v
  end.
End Peer.

(** The disk test of [ConflictsKVM]: the first pair of equal paths, in loop
    order, when one of the two VMs is not in snapshot mode. *)
Fixpoint shared_disk (ds ds2 : list string) (both_snapshot : bool) : option string :=
  match ds with
  | [] => None
  | d :: ds =>
    if existsb (fun d2 => String.eqb d d2 && negb both_snapshot) ds2
    then Some d else shared_disk ds ds2 both_snapshot
  end.

(** [conflicts] is the check of the embedded [BaseVM], defined outside
    kvm.go. *)
Definition ConflictsKVM (conflicts : KvmVM -> KvmVM -> option error)
    (v v2 : KvmVM) : option error :=
  match shared_disk (DiskPaths v) (DiskPaths v2) (Snapshot v && Snapshot v2) with
  | Some d => Some (ErrDiskConflict (Name v) d)
  | None => conflicts v v2
  end.

(** [connectQMP]: up to [retry] dials, sleeping after each failure.  [dial k]
    is the error of attempt [k], or nil.  The result is the final error, with
    the numbers of dials made and of sleeps taken. *)
Fixpoint connect_from (dial : nat -> option string) (count n : nat) (dials : nat)
    (last : option string) : option (option string) * nat * nat :=
  match n with
  | 0 => (Some last, dials, dials)
  | S n =>
    match dial count with
    | None => (None, S dials, dials)
    | Some e => connect_from dial (S count) n (S dials) (Some e)
    end
  end.

Definition connectQMP (QMP_CONNECT_RETRY : nat) (dial : nat -> option string)
    : option (option string) * nat * nat :=
  connect_from dial 0 QMP_CONNECT_RETRY 0 None.

End Supervisor.

Module SupervisorFacts.
Import Supervisor.

(** *** The hotplug table *)

Lemma next_id_bounds (h : gmap Z vmHotplug) :
  (0 <= next_id h)%Z /\
  (forall k, is_Some (h !! k) -> (k < next_id h)%Z) /\
  (next_id h = 0%Z \/ is_Some (h !! (next_id h - 1)%Z)).
Proof.
  unfold next_id.
  apply (map_fold_weak_ind
           (fun r (m : gmap Z vmHotplug) =>
              (0 <= r)%Z /\ (forall k, is_Some (m !! k) -> (k < r)%Z) /\
              (r = 0%Z \/ is_Some (m !! (r - 1)%Z)))).
  - split; [lia|]. split; [|by left].
    intros k [x Hx]. by rewrite lookup_empty in Hx.
  - intros i x m r Hi (H0 & Hlt & Htight).
    destruct (i >=? r)%Z eqn:E.
    + apply Z.geb_le in E. split; [lia|]. split.
      * intros k Hk. destruct (decide (k = i)) as [->|Hne]; [lia|].
        rewrite lookup_insert_ne in Hk by done. apply Hlt in Hk. lia.
      * right. replace (i + 1 - 1)%Z with i by lia. rewrite lookup_insert_eq. eauto.
    + assert (i < r)%Z as Hir by (rewrite Z.geb_leb in E; apply Z.leb_gt in E; lia).
      split; [lia|]. split.
      * intros k Hk. destruct (decide (k = i)) as [->|Hne]; [lia|].
        rewrite lookup_insert_ne in Hk by done. by apply Hlt.
      * destruct Htight as [->|Hs]; [lia|]. right.
        destruct (decide (i = r - 1)%Z) as [->|Hne].
        -- rewrite lookup_insert_eq. eauto.
        -- by rewrite lookup_insert_ne.
Qed.

Lemma next_id_fresh (h : gmap Z vmHotplug) : h !! next_id h = None.
Proof.
  destruct (next_id_bounds h) as (_ & Hlt & _).
  destruct (h !! next_id h) eqn:E; [|done].
  assert (next_id h < next_id h)%Z by (apply Hlt; eauto). lia.
Qed.

(** X8. The id Hotplug picks is 0 for an empty table and otherwise one more
    than the largest id in the table, whatever the order in which the map is
    ranged over: it is not in the table, it is above every id present, and
    when it is not 0 its predecessor is present. *)
Theorem next_id_is_max_plus_one (h : gmap Z vmHotplug) :
  next_id ∅ = 0%Z /\
  h !! next_id h = None /\
  (forall k, is_Some (h !! k) -> (k < next_id h)%Z) /\
  (next_id h = 0%Z \/ is_Some (h !! (next_id h - 1)%Z)).
Proof.
  destruct (next_id_bounds h) as (H0 & Hlt & Htight).
  split; [done|]. split; [apply next_id_fresh|done].
Qed.

Section PeerFacts.
Variable Q : Type.
Variable qmp : qmp_cmd -> Q -> option string * Q.

Lemma call_sent c (w : world Q) :
  vm Q (call Q qmp c w).2 = vm Q w /\
  sent Q (call Q qmp c w).2 = sent Q w ++ [c].
Proof. unfold call. by destruct (qmp c (peer Q w)). Qed.

Lemma Hotplug_cases (f version : string) (w : world Q) :
  let id := next_id (hotplug (vm Q w)) in
  let r := (Hotplug Q qmp f version w).1 in
  let w' := (Hotplug Q qmp f version w).2 in
  (version <> "" -> version <> "1.1" -> version <> "2.0" ->
     r = Some (ErrInvalidVersion version) /\ w' = w) /\
  (r = None ->
     exists bus v,
       (version = "2.0" /\ bus = "ehci.0" /\ v = "2.0" \/
        (version = "" \/ version = "1.1") /\ bus = "usb-bus.0" /\ v = "1.1") /\
       sent Q w' = sent Q w ++ [QDriveAdd (hid id) f; QUSBDeviceAdd (hid id) bus] /\
       hotplug (vm Q w') = <[id := {| Disk := f; Version := v |}]> (hotplug (vm Q w))) /\
  (r <> None -> hotplug (vm Q w') = hotplug (vm Q w)).
Proof.
  cbv zeta. unfold Hotplug.
  destruct (String.eqb_spec version "") as [E1|E1];
    [|destruct (String.eqb_spec version "1.1") as [E2|E2];
      [|destruct (String.eqb_spec version "2.0") as [E3|E3]]]; cbn [orb].
  4: { repeat split; try done. }
  all: (split; [intros; congruence|]).
  all: unfold call; cbn [peer vm sent];
       destruct (qmp (QDriveAdd _ _) (peer Q w)) as [[e1|] q1];
       [split; [done|intros _; reflexivity]|];
       cbn [peer vm sent];
       destruct (qmp (QUSBDeviceAdd _ _) q1) as [[e2|] q2];
       [split; [done|intros _; reflexivity]|];
       (split; [intros _|done]);
       eexists _, _; (split; [|split; [cbn; rewrite <- app_assoc; reflexivity
                                      |cbn; reflexivity]]).
  - right. auto.
  - right. auto.
  - left. auto.
Qed.

(** X9. Hotplug accepts the versions "", "1.1" and "2.0" only; any other
    version is refused before anything is sent.  When it returns nil it has
    sent drive_add and then device_add for the id above, on usb-bus.0 for
    versions "" and "1.1" and on ehci.0 for "2.0", and the table has gained
    exactly that entry; when it returns an error the table is unchanged. *)
Theorem Hotplug_outcomes (f version : string) (w : world Q) :
  let id := next_id (hotplug (vm Q w)) in
  let r := (Hotplug Q qmp f version w).1 in
  let w' := (Hotplug Q qmp f version w).2 in
  (version <> "" -> version <> "1.1" -> version <> "2.0" ->
     r = Some (ErrInvalidVersion version) /\ w' = w) /\
  (r = None ->
     exists bus v,
       (version = "2.0" /\ bus = "ehci.0" /\ v = "2.0" \/
        (version = "" \/ version = "1.1") /\ bus = "usb-bus.0" /\ v = "1.1") /\
       sent Q w' = sent Q w ++ [QDriveAdd (hid id) f; QUSBDeviceAdd (hid id) bus] /\
       hotplug (vm Q w') = <[id := {| Disk := f; Version := v |}]> (hotplug (vm Q w))) /\
  (r <> None -> hotplug (vm Q w') = hotplug (vm Q w)).
Proof.
  cbv zeta. destruct (Hotplug_cases f version w) as (H1 & H2 & H3).
  split; [exact H1|]. split; [exact H2|exact H3].
Qed.
Lemma hotplugRemove_cases (id : Z) (w : world Q) :
  let r := (hotplugRemove Q qmp id w).1 in
  let w' := (hotplugRemove Q qmp id w).2 in
  (hotplug (vm Q w) !! id = None -> r = Some ErrNoSuchHotplug /\ w' = w) /\
  (r = None ->
     is_Some (hotplug (vm Q w) !! id) /\
     sent Q w' = sent Q w ++ [QUSBDeviceDel (hid id); QDriveDel (hid id)] /\
     hotplug (vm Q w') = delete id (hotplug (vm Q w))) /\
  (r <> None -> hotplug (vm Q w') = hotplug (vm Q w)).
Proof.
  cbv zeta. unfold hotplugRemove.
  destruct (hotplug (vm Q w) !! id) as [x|] eqn:E; [|by repeat split].
  split; [done|].
  unfold call; cbn [peer vm sent].
  destruct (qmp (QUSBDeviceDel _) (peer Q w)) as [[e1|] q1];
    [split; [done|intros _; reflexivity]|].
  cbn [peer vm sent].
  destruct (qmp (QDriveDel _) q1) as [[e2|] q2];
    [split; [done|intros _; reflexivity]|].
  split; [intros _|done].
  split; [eauto|]. cbn. by rewrite <- app_assoc.
Qed.

(** X10. hotplugRemove refuses an id that is not in the table without sending
    anything; when it returns nil it has sent device_del and then drive_del
    for that id and the table has lost exactly that entry; when it returns an
    error the table is unchanged. *)
Theorem hotplugRemove_outcomes (id : Z) (w : world Q) :
  let r := (hotplugRemove Q qmp id w).1 in
  let w' := (hotplugRemove Q qmp id w).2 in
  (hotplug (vm Q w) !! id = None -> r = Some ErrNoSuchHotplug /\ w' = w) /\
  (r = None ->
     is_Some (hotplug (vm Q w) !! id) /\
     sent Q w' = sent Q w ++ [QUSBDeviceDel (hid id); QDriveDel (hid id)] /\
     hotplug (vm Q w') = delete id (hotplug (vm Q w))) /\
  (r <> None -> hotplug (vm Q w') = hotplug (vm Q w)).
Proof.
  cbv zeta. destruct (hotplugRemove_cases id w) as (H1 & H2 & H3).
  split; [exact H1|]. split; [exact H2|exact H3].
Qed.

(** X11. A Hotplug that succeeds followed by a HotplugRemove of the id it
    assigned that succeeds leaves the hotplug table exactly as it was. *)
Theorem Hotplug_then_remove (f version : string) (w : world Q) :
  let w1 := (Hotplug Q qmp f version w).2 in
  let id := next_id (hotplug (vm Q w)) in
  (Hotplug Q qmp f version w).1 = None ->
  (HotplugRemove Q qmp id w1).1 = None ->
  hotplug (vm Q (HotplugRemove Q qmp id w1).2) = hotplug (vm Q w).
Proof.
  cbv zeta. intros H1 H2.
  destruct (Hotplug_cases f version w) as (_ & Hok & _).
  destruct (Hok H1) as (bus & v & _ & _ & Ht).
  destruct (hotplugRemove_cases (next_id (hotplug (vm Q w)))
              (Hotplug Q qmp f version w).2) as (_ & Hok2 & _).
  destruct (Hok2 H2) as (_ & _ & Ht2).
  unfold HotplugRemove. rewrite Ht2, Ht.
  apply delete_insert_id. apply next_id_fresh.
Qed.

(** The ids given out by a run of Hotplug requests, in order. *)
Fixpoint plug_each (reqs : list (string * string)) (w : world Q) : list Z :=
  match reqs with
  | [] => []
  | (f, version) :: reqs =>
    let id := next_id (hotplug (vm Q w)) in
    match Hotplug Q qmp f version w with
    | (None, w') => id :: plug_each reqs w'
    | (Some _, w') => plug_each reqs w'
    end
  end.

Lemma plug_each_above reqs (w : world Q) (b : Z) :
  (forall k, is_Some (hotplug (vm Q w) !! k) -> (k < b)%Z) ->
  (b <= next_id (hotplug (vm Q w)))%Z ->
  Forall (fun id => (b <= id)%Z) (plug_each reqs w) /\
  StronglySorted Z.lt (plug_each reqs w).
Proof.
  revert w b. induction reqs as [|[f version] reqs IH]; intros w b Hb Hn.
  - split; constructor.
  - cbn [plug_each].
    destruct (Hotplug_cases f version w) as (_ & Hok & Herr).
    destruct (next_id_bounds (hotplug (vm Q w))) as (_ & Hlt & _).
    destruct (Hotplug Q qmp f version w) as [[e|] w'] eqn:E; cbn [fst snd] in *.
    + assert (hotplug (vm Q w') = hotplug (vm Q w)) as Ht by (by apply Herr).
      apply IH; rewrite Ht; done.
    + destruct (Hok eq_refl) as (bus & v & _ & _ & Ht).
      set (id := next_id (hotplug (vm Q w))) in *.
      assert (forall k, is_Some (hotplug (vm Q w') !! k) -> (k < id + 1)%Z) as Hb'.
      { intros k. rewrite Ht. destruct (decide (k = id)) as [->|Hne]; [lia|].
        rewrite lookup_insert_ne by done. intros Hk. apply Hlt in Hk. lia. }
      assert (id + 1 <= next_id (hotplug (vm Q w')))%Z as Hn'.
      { destruct (next_id_bounds (hotplug (vm Q w'))) as (_ & Hlt' & _).
        assert (id < next_id (hotplug (vm Q w')))%Z; [|lia].
        apply Hlt'. rewrite Ht, lookup_insert_eq. eauto. }
      destruct (IH w' (id + 1)%Z Hb' Hn') as [Hall Hsorted].
      split.
      * constructor; [done|]. eapply Forall_impl; [exact Hall|].
        intros x Hx. cbn in Hx. lia.
      * constructor; [done|]. eapply Forall_impl; [exact Hall|].
        intros x Hx. cbn in Hx. lia.
Qed.

(** X12. In a run of Hotplug operations with no removal in between, the ids
    assigned are strictly increasing, and each is above every id the table
    held at the start. *)
Theorem Hotplug_ids_increase reqs (w : world Q) :
  StronglySorted Z.lt (plug_each reqs w) /\
  (forall id k, id ∈ plug_each reqs w -> is_Some (hotplug (vm Q w) !! k) ->
     (k < id)%Z).
Proof.
  destruct (next_id_bounds (hotplug (vm Q w))) as (_ & Hlt & _).
  destruct (plug_each_above reqs w (next_id (hotplug (vm Q w))) Hlt ltac:(lia))
    as [Hall Hsorted].
  split; [done|]. intros id k Hid Hk.
  rewrite Forall_forall in Hall. apply Hall in Hid. apply Hlt in Hk. lia.
Qed.

Lemma remove_each_ok ks (w : world Q) :
  (forall c q, (qmp c q).1 = None) ->
  (remove_each Q qmp ks w).1 = None /\
  forall k, hotplug (vm Q (remove_each Q qmp ks w).2) !! k
            = if decide (k ∈ ks) then None else hotplug (vm Q w) !! k.
Proof.
  intros Hok. revert w. induction ks as [|k0 ks IH]; intros w.
  - split; [done|]. intros k. cbn. by rewrite decide_False by set_solver.
  - cbn [remove_each].
    destruct (hotplug (vm Q w) !! k0) as [x|] eqn:E.
    + destruct (hotplugRemove_cases k0 w) as (_ & Hrm & _).
      assert ((hotplugRemove Q qmp k0 w).1 = None) as Hr.
      { unfold hotplugRemove. rewrite E. unfold call. cbn [peer vm sent].
        pose proof (Hok (QUSBDeviceDel (hid k0)) (peer Q w)) as H1.
        destruct (qmp (QUSBDeviceDel (hid k0)) (peer Q w)) as [r1 q1].
        cbn in H1. subst r1. cbn [peer vm sent].
        pose proof (Hok (QDriveDel (hid k0)) q1) as H2.
        destruct (qmp (QDriveDel (hid k0)) q1) as [r2 q2].
        cbn in H2. by subst r2. }
      destruct (Hrm Hr) as (_ & _ & Ht).
      destruct (hotplugRemove Q qmp k0 w) as [r w1]. cbn [fst snd] in *. subst r.
      destruct (IH w1) as [H1 H2]. split; [done|].
      intros k. rewrite H2, Ht.
      destruct (decide (k = k0)) as [->|Hne].
      * rewrite lookup_delete_eq. rewrite (decide_True (P := k0 ∈ k0 :: ks)) by set_solver.
        by destruct (decide _).
      * rewrite lookup_delete_ne by done.
        destruct (decide (k ∈ ks)), (decide (k ∈ k0 :: ks)); set_solver.
    + destruct (IH w) as [H1 H2]. split; [done|].
      intros k. rewrite H2.
      destruct (decide (k = k0)) as [->|Hne].
      * rewrite (decide_True (P := k0 ∈ k0 :: ks)) by set_solver.
        by destruct (decide _).
      * destruct (decide (k ∈ ks)), (decide (k ∈ k0 :: ks)); set_solver.
Qed.

(** X13. HotplugRemoveAll fails on an empty table, sending nothing.  On a
    table that is not empty, ranged over in any order that reaches every id,
    and with a peer that accepts every command, it returns nil and leaves
    the table empty. *)
Theorem HotplugRemoveAll_outcomes (ks : list Z) (w : world Q) :
  (hotplug (vm Q w) = ∅ ->
     HotplugRemoveAll Q qmp ks w = (Some ErrNoHotplugDevices, w)) /\
  (hotplug (vm Q w) <> ∅ ->
   (forall k, is_Some (hotplug (vm Q w) !! k) -> k ∈ ks) ->
   (forall c q, (qmp c q).1 = None) ->
     (HotplugRemoveAll Q qmp ks w).1 = None /\
     hotplug (vm Q (HotplugRemoveAll Q qmp ks w).2) = ∅).
Proof.
  unfold HotplugRemoveAll. split.
  - intros ->. by rewrite map_size_empty.
  - intros Hne Hks Hok.
    apply map_size_non_empty_iff in Hne.
    destruct (size (hotplug (vm Q w))) as [|n] eqn:E; [done|]. cbn [Nat.eqb].
    destruct (remove_each_ok ks w Hok) as [H1 H2]. split; [done|].
    apply map_eq. intros k. rewrite H2, lookup_empty.
    destruct (decide (k ∈ ks)) as [|Hn]; [done|].
    destruct (hotplug (vm Q w) !! k) eqn:Ek; [|done].
    exfalso. apply Hn, Hks. eauto.
Qed.

(** *** State changes *)

(** X14. Stop sends the QMP stop command only to a VM that is RUNNING and is
    not named "vince".  It returns nil exactly when that command was
    accepted, and the VM is then PAUSED; when the command is refused the VM
    is in ERROR; in every other case nothing is sent and nothing changes. *)
Theorem Stop_outcomes (w : world Q) :
  let r := (Stop Q qmp w).1 in
  let w' := (Stop Q qmp w).2 in
  (Name (vm Q w) = "vince" -> r = Some ErrUnstoppable /\ w' = w) /\
  (Name (vm Q w) <> "vince" -> State (vm Q w) <> VM_RUNNING ->
     r = Some (ErrNotRunning (Args.itoa (ID (vm Q w)))) /\ w' = w) /\
  (Name (vm Q w) <> "vince" -> State (vm Q w) = VM_RUNNING ->
     sent Q w' = sent Q w ++ [QStop] /\
     peer Q w' = (qmp QStop (peer Q w)).2 /\
     match (qmp QStop (peer Q w)).1 with
     | None => r = None /\ vm Q w' = with_State VM_PAUSED (vm Q w)
     | Some e => r = Some (ErrQMP e) /\ vm Q w' = with_State VM_ERROR (vm Q w)
     end).
Proof.
  cbv zeta. unfold Stop.
  destruct (String.eqb_spec (Name (vm Q w)) "vince") as [E|E]; [by repeat split|].
  split; [done|].
  destruct (Z.eqb_spec (State (vm Q w)) VM_RUNNING) as [E2|E2]; cbn [negb].
  - split; [done|]. intros _ _. unfold call.
    destruct (qmp QStop (peer Q w)) as [[e|] q]; by cbn.
  - by repeat split.
Qed.

(** X15. Start does nothing to a VM whose RUNNING bit is set.  A VM in QUIT
    or ERROR is launched again first, and a failed launch ends Start with
    that error before any QMP command.  Otherwise Start sends cont: accepted,
    the VM is RUNNING and Start returns nil; refused, the VM is in ERROR. *)
Theorem Start_outcomes (launch : world Q -> option error * world Q) (w : world Q) :
  let r := (Start Q qmp launch w).1 in
  let w' := (Start Q qmp launch w).2 in
  let relaunch := State (vm Q w) = VM_QUIT \/ State (vm Q w) = VM_ERROR in
  let w0 := if ((State (vm Q w) =? VM_QUIT) || (State (vm Q w) =? VM_ERROR))%Z
            then (launch w).2 else w in
  (Z.land (State (vm Q w)) VM_RUNNING <> 0%Z -> r = None /\ w' = w) /\
  (Z.land (State (vm Q w)) VM_RUNNING = 0%Z ->
     (forall e, relaunch -> (launch w).1 = Some e ->
        r = Some e /\ w' = (launch w).2) /\
     ((relaunch -> (launch w).1 = None) ->
        sent Q w' = sent Q w0 ++ [QStart] /\
        match (qmp QStart (peer Q w0)).1 with
        | None => r = None /\ vm Q w' = with_State VM_RUNNING (vm Q w0)
        | Some e => r = Some (ErrQMP e) /\ vm Q w' = with_State VM_ERROR (vm Q w0)
        end)).
Proof.
  cbv zeta. unfold Start.
  destruct (Z.eqb_spec (Z.land (State (vm Q w)) VM_RUNNING) 0) as [E|E];
    cbn [negb]; [|by split].
  split; [done|]. intros _.
  assert (((State (vm Q w) =? VM_QUIT) || (State (vm Q w) =? VM_ERROR))%Z = true
          <-> (State (vm Q w) = VM_QUIT \/ State (vm Q w) = VM_ERROR)) as Hre.
  { rewrite orb_true_iff, !Z.eqb_eq. done. }
  destruct ((State (vm Q w) =? VM_QUIT) || (State (vm Q w) =? VM_ERROR))%Z.
  - destruct (launch w) as [[e|] w1]; cbn [fst snd].
    + split; [intros e' _ [= <-]; done|].
      intros H. specialize (H (proj1 Hre eq_refl)). done.
    + split; [intros e' _ [=]|]. intros _. unfold call.
      destruct (qmp QStart (peer Q w1)) as [[e|] q]; by cbn.
  - split.
    + intros e' Hr. apply Hre in Hr. done.
    + intros _. unfold call.
      destruct (qmp QStart (peer Q w)) as [[e|] q]; by cbn.
Qed.

(** X16. When QEMU exits the VM ends in ERROR or QUIT: in ERROR when the exit
    reason is an error other than "signal: killed" or the VM was already in
    ERROR, and in QUIT otherwise.  Nothing else about the VM changes. *)
Theorem exited_state (err : option string) (v : KvmVM) :
  let abnormal := exists e, err = Some e /\ e <> "signal: killed" in
  (abnormal \/ State v = VM_ERROR -> State (exited err v) = VM_ERROR) /\
  (~ abnormal -> State v <> VM_ERROR -> State (exited err v) = VM_QUIT) /\
  exited err v = with_State (State (exited err v)) v.
Proof.
  cbv zeta. unfold exited.
  destruct err as [e|].
  - destruct (String.eqb_spec e "signal: killed") as [->|He]; cbn [negb].
    + destruct (Z.eqb_spec (State v) VM_ERROR) as [E|E]; cbn [negb].
      * split; [done|]. split; [done|]. by destruct v.
      * split; [|by split]. intros [(e & [= <-] & He)|H]; done.
    + split; [done|]. split; [|done]. intros H. exfalso. apply H. eauto.
  - destruct (Z.eqb_spec (State v) VM_ERROR) as [E|E]; cbn [negb].
    + split; [done|]. split; [done|]. by destruct v.
    + split; [|by split]. intros [(e & [=] & _)|H]; done.
Qed.

(** *** The cdrom *)

(** X17. EjectCD on a VM without a cdrom fails, sends nothing and changes
    nothing.  With a cdrom it sends the eject for ide0-cd1; the recorded
    cdrom becomes empty exactly when the eject is accepted, and the state of
    the VM is never touched. *)
Theorem EjectCD_outcomes (w : world Q) :
  let r := (EjectCD Q qmp w).1 in
  let w' := (EjectCD Q qmp w).2 in
  (CdromPath (vm Q w) = "" -> r = Some ErrNoCdrom /\ w' = w) /\
  (CdromPath (vm Q w) <> "" ->
     sent Q w' = sent Q w ++ [QBlockdevEject "ide0-cd1"] /\
     match (qmp (QBlockdevEject "ide0-cd1") (peer Q w)).1 with
     | None => r = None /\ vm Q w' = with_CdromPath "" (vm Q w)
     | Some e => r = Some (ErrQMP e) /\ vm Q w' = vm Q w
     end) /\
  State (vm Q w') = State (vm Q w).
Proof.
  cbv zeta. unfold EjectCD, ejectCD.
  destruct (String.eqb_spec (CdromPath (vm Q w)) "") as [E|E]; [by repeat split|].
  split; [done|]. unfold call.
  destruct (qmp (QBlockdevEject "ide0-cd1") (peer Q w)) as [[e|] q]; by cbn.
Qed.

(** X18. ChangeCD first ejects the current cdrom, if any; when that eject is
    refused the change is not attempted and the recorded cdrom stays.  The
    new path is recorded exactly when the change itself is accepted; when
    the eject was accepted and the change refused, the VM is left with no
    cdrom recorded. *)
Theorem ChangeCD_outcomes (f : string) (w : world Q) :
  let r := (ChangeCD Q qmp f w).1 in
  let w' := (ChangeCD Q qmp f w).2 in
  let eject := QBlockdevEject "ide0-cd1" in
  let change := QBlockdevChange "ide0-cd1" f in
  (CdromPath (vm Q w) = "" ->
     sent Q w' = sent Q w ++ [change] /\
     match (qmp change (peer Q w)).1 with
     | None => r = None /\ CdromPath (vm Q w') = f
     | Some e => r = Some (ErrQMP e) /\ CdromPath (vm Q w') = ""
     end) /\
  (CdromPath (vm Q w) <> "" ->
     match (qmp eject (peer Q w)).1 with
     | Some e =>
         r = Some (ErrQMP e) /\ sent Q w' = sent Q w ++ [eject] /\
         CdromPath (vm Q w') = CdromPath (vm Q w)
     | None =>
         sent Q w' = sent Q w ++ [eject; change] /\
         match (qmp change (qmp eject (peer Q w)).2).1 with
         | None => r = None /\ CdromPath (vm Q w') = f
         | Some e => r = Some (ErrQMP e) /\ CdromPath (vm Q w') = ""
         end
     end).
Proof.
  cbv zeta. unfold ChangeCD, ejectCD.
  destruct (String.eqb_spec (CdromPath (vm Q w)) "") as [E|E]; cbn [negb].
  - split; [|done]. intros _. unfold call.
    destruct (qmp (QBlockdevChange "ide0-cd1" f) (peer Q w)) as [[e|] q]; by cbn.
  - split; [done|]. intros _. unfold call.
    destruct (qmp (QBlockdevEject "ide0-cd1") (peer Q w)) as [[e|] q];
      cbn [fst snd peer vm sent update]; [done|].
    destruct (qmp (QBlockdevChange "ide0-cd1" f) q) as [[e|] q'];
      cbn; by rewrite <- app_assoc.
Qed.

(** X19. HotplugInfo returns a table equal to the VM's hotplug table. *)
Theorem HotplugInfo_is_table (w : world Q) :
  HotplugInfo Q w = hotplug (vm Q w).
Proof.
  unfold HotplugInfo.
  apply (map_fold_weak_ind (fun r (m : gmap Z vmHotplug) => r = m)); [done|].
  intros i [d v] m r _ ->. done.
Qed.

End PeerFacts.

(** A peer that accepts every command, and a running VM with an empty
    hotplug table. *)
Definition accept (c : qmp_cmd) (q : unit) : option string * unit := (None, q).

Definition sample_world : world unit :=
  World unit (VM 0 "vm0" VM_RUNNING false ["/disk.img"] "" ∅) tt [].

Lemma Hotplug_then_remove_witness :
  hotplug (vm unit
    (HotplugRemove unit accept (next_id (hotplug (vm unit sample_world)))
       (Hotplug unit accept "/usb.img" "2.0" sample_world).2).2)
  = hotplug (vm unit sample_world).
Proof.
  apply (Hotplug_then_remove unit accept "/usb.img" "2.0" sample_world);
    vm_compute; reflexivity.
Defined.

(** *** Disk conflicts *)

Lemma shared_disk_Some ds ds2 b d :
  shared_disk ds ds2 b = Some d -> d ∈ ds /\ d ∈ ds2 /\ b = false.
Proof.
  induction ds as [|d0 ds IH]; [done|]. cbn.
  destruct (existsb _ ds2) eqn:E.
  - intros [= <-]. apply existsb_exists in E as (d2 & Hin & Hd).
    apply andb_true_iff in Hd as [Hd Hb]. apply String.eqb_eq in Hd. subst d2.
    split; [left|]. split; [by apply list_elem_of_In|]. by destruct b.
  - intros H. destruct (IH H) as (H1 & H2 & H3). split; [by right|done].
Qed.

Lemma shared_disk_None ds ds2 b d :
  shared_disk ds ds2 b = None -> d ∈ ds -> d ∈ ds2 -> b = true.
Proof.
  induction ds as [|d0 ds IH]; [by intros _ ?%elem_of_nil|]. cbn.
  destruct (existsb _ ds2) eqn:E; [done|].
  intros H Hd Hd2. apply elem_of_cons in Hd as [->|Hd]; [|by apply IH].
  destruct b; [done|]. exfalso.
  assert (existsb (fun d2 => String.eqb d0 d2 && negb false) ds2 = true) as E';
    [|congruence].
  apply existsb_exists. exists d0. split; [by apply list_elem_of_In|].
  by rewrite String.eqb_refl.
Qed.

(** X20. ConflictsKVM reports a disk conflict exactly when the two VMs have
    a disk path in common and at least one of them is not in snapshot mode;
    the disk it names is such a path, and the VM it names is the receiver.
    In every other case the answer is that of the base check. *)
Theorem ConflictsKVM_disks (conflicts : KvmVM -> KvmVM -> option error)
    (v v2 : KvmVM) :
  let shared := exists d, d ∈ DiskPaths v /\ d ∈ DiskPaths v2 in
  let snapshots := Snapshot v = true /\ Snapshot v2 = true in
  (shared /\ ~ snapshots ->
     exists d, ConflictsKVM conflicts v v2 = Some (ErrDiskConflict (Name v) d) /\
               d ∈ DiskPaths v /\ d ∈ DiskPaths v2) /\
  (~ shared \/ snapshots -> ConflictsKVM conflicts v v2 = conflicts v v2).
Proof.
  cbv zeta. unfold ConflictsKVM.
  destruct (shared_disk (DiskPaths v) (DiskPaths v2) (Snapshot v && Snapshot v2))
    as [d|] eqn:E.
  - apply shared_disk_Some in E as (H1 & H2 & H3).
    apply andb_false_iff in H3. split; [eauto|].
    intros [Hn|[Hs1 Hs2]]; [exfalso; apply Hn; eauto|].
    destruct H3; congruence.
  - split; [|done]. intros [(d & H1 & H2) Hn]. exfalso. apply Hn.
    apply andb_true_iff. eapply shared_disk_None; eauto.
Qed.

(** *** Connecting to QMP *)

Lemma connect_from_spec dial n count dials last :
  let '(r, d, s) := connect_from dial count n dials last in
  (r = None <-> exists k, k < n /\ dial (count + k) = None) /\
  (forall k, k < n -> dial (count + k) = None ->
     (forall j, j < k -> dial (count + j) <> None) ->
     d = dials + k + 1 /\ s = dials + k) /\
  ((forall k, k < n -> dial (count + k) <> None) ->
     d = dials + n /\ s = dials + n /\
     r = Some (if (n =? 0)%nat then last else dial (count + n - 1))).
Proof.
  revert count dials last. induction n as [|n IH]; intros count dials last.
  - cbn. split; [|split].
    + split; [done|]. intros (k & Hk & _). lia.
    + intros k Hk. lia.
    + intros _. repeat split; lia.
  - cbn [connect_from]. destruct (dial count) as [e|] eqn:E.
    + specialize (IH (S count) (S dials) (Some e)).
      destruct (connect_from dial (S count) n (S dials) (Some e)) as [[r d] s].
      destruct IH as (H1 & H2 & H3). split; [|split].
      * rewrite H1. split; intros (k & Hk & Hd).
        -- exists (S k). split; [lia|]. by rewrite <- Nat.add_succ_comm.
        -- destruct k as [|k]; [rewrite Nat.add_0_r in Hd; congruence|].
           exists k. split; [lia|]. by rewrite Nat.add_succ_comm.
      * intros k Hk Hd Hfirst.
        destruct k as [|k]; [rewrite Nat.add_0_r in Hd; congruence|].
        destruct (H2 k) as [-> ->]; [lia|by rewrite Nat.add_succ_comm| |lia].
        intros j Hj. rewrite Nat.add_succ_comm. apply Hfirst. lia.
      * intros Hall.
        destruct H3 as (-> & -> & ->).
        { intros k Hk. rewrite Nat.add_succ_comm. apply Hall. lia. }
        split; [lia|]. split; [lia|]. f_equal.
        destruct n as [|n]; cbn [Nat.eqb].
        -- replace (count + 1 - 1) with count by lia. by rewrite E.
        -- f_equal. lia.
    + split; [|split].
      * split; [|done]. intros _. exists 0. split; [lia|]. by rewrite Nat.add_0_r.
      * intros k Hk Hd Hfirst. destruct k as [|k]; [lia|].
        exfalso. apply (Hfirst 0); [lia|]. by rewrite Nat.add_0_r.
      * intros Hall. exfalso. apply (Hall 0); [lia|]. by rewrite Nat.add_0_r.
Qed.

(** X21. connectQMP returns nil exactly when one of the first
    QMP_CONNECT_RETRY dials succeeds; it then stops at the first dial that
    succeeds, having slept once after each failed dial before it.  When
    every dial fails it makes QMP_CONNECT_RETRY dials and as many sleeps and
    returns the error of the last dial; with no attempt allowed it dials
    nothing and still returns an error. *)
Theorem connectQMP_retries (retry : nat) (dial : nat -> option string) :
  let r := (connectQMP retry dial).1.1 in
  let dials := (connectQMP retry dial).1.2 in
  let sleeps := (connectQMP retry dial).2 in
  (r = None <-> exists k, k < retry /\ dial k = None) /\
  (forall k, k < retry -> dial k = None -> (forall j, j < k -> dial j <> None) ->
     dials = k + 1 /\ sleeps = k) /\
  ((forall k, k < retry -> dial k <> None) ->
     dials = retry /\ sleeps = retry /\
     r = Some (if (retry =? 0)%nat then None else dial (retry - 1))).
Proof.
  cbv zeta. unfold connectQMP.
  pose proof (connect_from_spec dial retry 0 0 None) as H.
  destruct (connect_from dial 0 retry 0 None) as [[r d] s]. exact H.
Qed.

End SupervisorFacts.


(** ** igor: housekeeping and command dispatch *)

Module Igor.

(** Modelled from the spec: [Reservation] is declared outside main.go; the
    data model gives it as {id, name, owner, hosts, start-time, end-time,
    vlan, pxe-profile, kernel-args}, and housekeeping reads these fields. *)
Record Reservation := {
  ResName : string;
  Hosts : list string;
  StartTime : Z;
  EndTime : Z;
  Vlan : Z
}.

(** What an invocation does to the outside, in order. *)
Inductive event :=
| Deleted (names : list string)
| ReservationLog (tag : string) (r : Reservation)
| NetworkSet (hosts : list string) (vlan : Z)
| LogError (msg : string)
| Installed (r : Reservation)
| Powered (hosts : list string) (on : bool)
| LogFatal (msg : string)
| Expired
| PutSchedule
| Ran (name : string) (args : list string)
| Unknown (name : string).

Section Collaborators.
(** The file system, the switch and the nodes. *)
Variable W : Type.

Record state := State { world : W; trace : list event; exitStatus : Z }.

(** A step either goes on or ends the process, as [log.Fatal] does. *)
Inductive result (A : Type) :=
| Done (a : A) (st : state)
| Fatal (st : state).
Arguments Done {A}. Arguments Fatal {A}.

Definition M (A : Type) : Type := state -> result A.

Definition ret {A} (a : A) : M A := fun st => Done a st.
Definition bind {A B} (m : M A) (k : A -> M B) : M B :=
  fun st => match m st with
            | Done a st => k a st
            | Fatal st => Fatal st
            end.

Notation "x <- m ;; k" := (bind m (fun x => k))
  (at level 100, m at next level, right associativity).
Notation "m ;; k" := (bind m (fun _ => k))
  (at level 100, right associativity).

Definition emit (e : event) : M unit :=
  fun st => Done tt (State (world st) (trace st ++ [e]) (exitStatus st)).

(** A call on a collaborator that returns an error or nil. *)
Definition ask (f : W -> option string * W) (e : event) : M (option string) :=
  fun st => let '(r, w) := f (world st) in
            Done r (State w (trace st ++ [e]) (exitStatus st)).

(** Modelled from the spec: minilog's [Fatal] is defined outside main.go;
    a fatal failure aborts the invocation. *)
Definition fatal {A} (msg : string) : M A :=
  fun st => Fatal (State (world st) (trace st ++ [LogFatal msg]) (exitStatus st)).

Definition setExitStatus (n : Z) : M unit :=
  fun st => Done tt (State (world st) (trace st)
                       (if (exitStatus st <? n)%Z then n else exitStatus st)).

(** [os.Stat(r.Filename())] with [os.IsNotExist] on its error. *)
Variable missing : Reservation -> W -> bool.
Variable deleteReservation : list string -> W -> W.
Variable networkSet : list string -> Z -> W -> option string * W.
Variable Install : Reservation -> W -> option string * W.
Variable Power : list string -> bool -> W -> option string * W.
Variable expireSchedule : W -> W.
(** The error of encoding the schedule into its file. *)
Variable encodeSchedule : W -> option string * W.
Variable AutoReboot : bool.
Variable now : Z.

Definition act (f : W -> W) (e : event) : M unit :=
  fun st => Done tt (State (f (world st)) (trace st ++ [e]) (exitStatus st)).

(** The body of the loop of [housekeeping]. *)
Definition visit (r : Reservation) : M unit :=
  if (EndTime r <? now)%Z then
    act (deleteReservation [ResName r]) (Deleted [ResName r])
  else
    fun st =>
    if missing r (world st) && (StartTime r <? now)%Z then
      (emit (ReservationLog "INSTALL" r) ;;
       err <- ask (networkSet (Hosts r) (Vlan r)) (NetworkSet (Hosts r) (Vlan r)) ;;
       match err with
       | Some e => emit (LogError "error setting network isolation")
       | None => ret tt
       end ;;
       err <- ask (Install r) (Installed r) ;;
       match err with
       | Some e => fatal "unable to install"
       | None => ret tt
       end ;;
       if AutoReboot then
         err <- ask (Power (Hosts r) false) (Powered (Hosts r) false) ;;
         match err with
         | Some e => fatal "unable to power off"
         | None => ret tt
         end ;;
         err <- ask (Power (Hosts r) true) (Powered (Hosts r) true) ;;
         match err with
         | Some e => fatal "unable to power on"
         | None => ret tt
         end
       else ret tt) st
    else ret tt st.

Fixpoint for_each {A} (body : A -> M unit) (l : list A) : M unit :=
  match l with
  | [] => ret tt
  | x :: l => body x ;; for_each body l
  end.

Definition putSchedule : M unit :=
  err <- ask encodeSchedule PutSchedule ;;
  match err with
  | Some e => fatal "unable to encode schedule"
  | None => ret tt
  end.

(** [housekeeping], over the reservations in the order [rs] in which the
    map is ranged over. *)
Definition housekeeping (rs : list Reservation) : M unit :=
  for_each visit rs ;;
  act expireSchedule Expired ;;
  putSchedule.

(** A subcommand: its name, whether it has a [Run] function, and what that
    function does to the world. *)
Record Command := {
  CmdName : string;
  Runnable : bool;
  CustomFlags : bool;
  Parse : list string -> list string;
  Run : list string -> W -> W
}.

(** The loop of [main] over [commands]; [args] is not empty. *)
Fixpoint dispatch (commands : list Command) (name : string) (rest : list string)
    : M unit :=
  match commands with
  | [] => emit (Unknown name) ;; setExitStatus 2
  | cmd :: commands =>
    if String.eqb (CmdName cmd) name && Runnable cmd then
      let args := if CustomFlags cmd then rest else Parse cmd rest in
      act (Run cmd args) (Ran (CmdName cmd) args)
    else dispatch commands name rest
  end.

(** [main] from the call of [housekeeping] on. *)
Definition serve (rs : list Reservation) (commands : list Command)
    (name : string) (rest : list string) : M unit :=
  housekeeping rs ;;
  dispatch commands name rest.

End Collaborators.

Arguments Done {W A}. Arguments Fatal {W A}.

End Igor.

Module IgorFacts.
Import Igor.

Section CollaboratorFacts.
Variable W : Type.
Variable missing : Reservation -> W -> bool.
Variable deleteReservation : list string -> W -> W.
Variable networkSet : list string -> Z -> W -> option string * W.
Variable Install : Reservation -> W -> option string * W.
Variable Power : list string -> bool -> W -> option string * W.
Variable expireSchedule : W -> W.
Variable encodeSchedule : W -> option string * W.
Variable AutoReboot : bool.
Variable now : Z.

Local Abbreviation visit' :=
  (visit W missing deleteReservation networkSet Install Power AutoReboot now).
Local Abbreviation housekeeping' :=
  (housekeeping W missing deleteReservation networkSet Install Power
     expireSchedule encodeSchedule AutoReboot now).

(** A reservation that has started, has not ended, and has no PXE file. *)
Definition due (r : Reservation) (st : state W) : Prop :=
  (EndTime r <? now)%Z = false /\
  missing r (world W st) = true /\ (StartTime r <? now)%Z = true.

(** Events that are not the run of a subcommand. *)
Definition quiet (e : event) : Prop :=
  match e with Ran _ _ | Unknown _ => False | _ => True end.

(** A step that only appends quiet events and keeps the exit status. *)
Definition appends {A} (m : M W A) : Prop :=
  forall st,
    exists evs, Forall quiet evs /\
      match m st with
      | Done _ st' | Fatal st' =>
          trace W st' = trace W st ++ evs /\ exitStatus W st' = exitStatus W st
      end.

Lemma appends_bind {A B} (m : M W A) (k : A -> M W B) :
  appends m -> (forall a, appends (k a)) -> appends (bind W m k).
Proof.
  intros Hm Hk st. unfold bind. destruct (Hm st) as (e1 & Hq1 & H1).
  destruct (m st) as [a st1|st1].
  - destruct (Hk a st1) as (e2 & Hq2 & H2). exists (e1 ++ e2).
    split; [by apply Forall_app|].
    destruct (k a st1) as [b st2|st2]; destruct H1 as [E1 E1'], H2 as [E2 E2'];
      (split; [by rewrite E2, E1, app_assoc|by rewrite E2', E1']).
  - by exists e1.
Qed.

Lemma appends_ret {A} (a : A) : appends (ret W a).
Proof. intros st. exists []. split; [constructor|]. cbn. by rewrite app_nil_r. Qed.

Lemma appends_emit e : quiet e -> appends (emit W e).
Proof. intros He st. exists [e]. split; [by repeat constructor|done]. Qed.

Lemma appends_act f e : quiet e -> appends (act W f e).
Proof. intros He st. exists [e]. split; [by repeat constructor|done]. Qed.

Lemma appends_ask f e : quiet e -> appends (ask W f e).
Proof.
  intros He st. exists [e]. split; [by repeat constructor|].
  unfold ask. by destruct (f (world W st)).
Qed.

Lemma appends_fatal {A} msg : appends (@fatal W A msg).
Proof. intros st. exists [LogFatal msg]. split; [by repeat constructor|done]. Qed.

Lemma appends_visit r : appends (visit' r).
Proof.
  intros st. unfold visit.
  destruct (EndTime r <? now)%Z; [by apply appends_act|].
  destruct (missing r (world W st) && (StartTime r <? now)%Z);
    [|apply appends_ret].
  revert st.
  repeat first
    [ apply appends_bind; [|intros]
    | by apply appends_emit | by apply appends_ask
    | apply appends_fatal | apply appends_ret
    | match goal with
      | |- appends (match ?x with Some _ => _ | None => _ end) => destruct x
      | |- appends (if ?c then _ else _) => destruct c
      end ].
Qed.

Lemma appends_for_each rs : appends (for_each W visit' rs).
Proof.
  induction rs as [|r rs IH]; [apply appends_ret|].
  cbn [for_each]. apply appends_bind; [apply appends_visit|by intros].
Qed.

Lemma appends_housekeeping rs : appends (housekeeping' rs).
Proof.
  unfold housekeeping, putSchedule.
  apply appends_bind; [apply appends_for_each|intros].
  apply appends_bind; [by apply appends_act|intros].
  apply appends_bind; [by apply appends_ask|intros [e|]];
    [apply appends_fatal|apply appends_ret].
Qed.

(** What the visit of a due reservation does, call by call. *)
Lemma visit_due (r : Reservation) (st : state W) :
  due r st ->
  visit' r st =
    let '(n, w1) := networkSet (Hosts r) (Vlan r) (world W st) in
    let '(i, w2) := Install r w1 in
    let t := trace W st
             ++ [ReservationLog "INSTALL" r; NetworkSet (Hosts r) (Vlan r)]
             ++ match n with
                | Some _ => [LogError "error setting network isolation"]
                | None => []
                end
             ++ [Installed r] in
    let ex := exitStatus W st in
    match i with
    | Some _ => Fatal (State W w2 (t ++ [LogFatal "unable to install"]) ex)
    | None =>
      if AutoReboot then
        let '(o, w3) := Power (Hosts r) false w2 in
        match o with
        | Some _ =>
            Fatal (State W w3 (t ++ [Powered (Hosts r) false;
                                     LogFatal "unable to power off"]) ex)
        | None =>
          let '(p, w4) := Power (Hosts r) true w3 in
          match p with
          | Some _ =>
              Fatal (State W w4 (t ++ [Powered (Hosts r) false;
                                       Powered (Hosts r) true;
                                       LogFatal "unable to power on"]) ex)
          | None =>
              Done tt (State W w4 (t ++ [Powered (Hosts r) false;
                                         Powered (Hosts r) true]) ex)
          end
        end
      else Done tt (State W w2 t ex)
    end.
Proof.
  intros (He & Hm & Hs). unfold visit. rewrite He, Hm, Hs. cbn [andb].
  unfold bind, emit, ask, fatal, ret. cbn [world trace exitStatus].
  destruct (networkSet (Hosts r) (Vlan r) (world W st)) as [[n|] w1];
    cbn [world trace exitStatus];
    destruct (Install r w1) as [[i|] w2]; cbn [world trace exitStatus];
    try (f_equal; f_equal; rewrite <- ?app_assoc; reflexivity);
    destruct AutoReboot; cbn [world trace exitStatus];
    try (f_equal; f_equal; rewrite <- ?app_assoc; reflexivity);
    destruct (Power (Hosts r) false w2) as [[o|] w3]; cbn [world trace exitStatus];
    try (f_equal; f_equal; rewrite <- ?app_assoc; reflexivity);
    destruct (Power (Hosts r) true w3) as [[p|] w4]; cbn [world trace exitStatus];
    f_equal; f_equal; rewrite <- ?app_assoc; reflexivity.
Qed.

(** X22. On a reservation that is due, the visit of housekeeping is fatal
    exactly when the install fails or, with AutoReboot set, the power-off or
    the power-on that follows fails.  A failure of the VLAN isolation call is
    never fatal: it adds a logged error, and the install is asked for all the
    same.  A reservation that is not due and has not ended is left alone. *)
Theorem visit_fatal_iff (r : Reservation) (st : state W) :
  let w1 := (networkSet (Hosts r) (Vlan r) (world W st)).2 in
  let w2 := (Install r w1).2 in
  let w3 := (Power (Hosts r) false w2).2 in
  (due r st ->
     ((exists st', visit' r st = Fatal st') <->
      (Install r w1).1 <> None \/
      AutoReboot = true /\
      ((Power (Hosts r) false w2).1 <> None \/ (Power (Hosts r) true w3).1 <> None)) /\
     (forall st', visit' r st = Done tt st' \/ visit' r st = Fatal st' ->
        Installed r ∈ trace W st' /\
        ((networkSet (Hosts r) (Vlan r) (world W st)).1 <> None ->
           LogError "error setting network isolation" ∈ trace W st'))) /\
  ((EndTime r <? now)%Z = false -> ~ due r st -> visit' r st = Done tt st).
Proof.
  cbv zeta. split.
  - intros Hdue. rewrite (visit_due r st Hdue).
    destruct (networkSet (Hosts r) (Vlan r) (world W st)) as [n w1].
    cbn [fst snd].
    destruct (Install r w1) as [i w2]. cbn [fst snd].
    destruct (Power (Hosts r) false w2) as [o w3]. cbn [fst snd].
    destruct (Power (Hosts r) true w3) as [p w4]. cbn [fst snd].
    destruct n as [n|], i as [i|], AutoReboot, o as [o|], p as [p|];
      (split;
       [split;
        [intros [st' H];
         first [discriminate H
               |left; discriminate
               |right; split; [reflexivity|left; discriminate]
               |right; split; [reflexivity|right; discriminate]]
        |intros H;
         first [eexists; reflexivity
               |exfalso; destruct H as [H|[H1 [H|H]]]; congruence]]
       |intros st' [H|H]; try discriminate H; injection H as <-;
        cbn [trace]; (split; [|intros Hn; try congruence]);
        rewrite !elem_of_app, ?elem_of_cons, ?elem_of_nil; tauto]).
  - intros He Hn. unfold visit. rewrite He.
    destruct (missing r (world W st)) eqn:Hm;
      destruct (StartTime r <? now)%Z eqn:Hs; cbn [andb]; try done.
    exfalso. by apply Hn.
Qed.

Local Abbreviation serve' :=
  (serve W missing deleteReservation networkSet Install Power
     expireSchedule encodeSchedule AutoReboot now).

Lemma for_each_app {A} (body : A -> M W unit) (l1 l2 : list A) (st : state W) :
  for_each W body (l1 ++ l2) st =
  match for_each W body l1 st with
  | Done _ st1 => for_each W body l2 st1
  | Fatal st1 => Fatal st1
  end.
Proof.
  revert st. induction l1 as [|x l1 IH]; intros st; [done|].
  cbn [app for_each]. unfold bind. destruct (body x st) as [[] st1|st1]; [|done].
  apply IH.
Qed.

Lemma dispatch_done commands name rest (st : state W) :
  exists st', dispatch W commands name rest st = Done tt st'.
Proof.
  induction commands as [|cmd commands IH]; cbn [dispatch].
  - by eexists.
  - destruct (_ && _); [by eexists|exact IH].
Qed.


(** X24. Dispatch runs the first command of the list whose name is the
    subcommand and that has a Run function, on the arguments left after its
    flags (or on all of them when it parses its own), and runs nothing
    else.  When there is no such command nothing is run and the exit status
    becomes the larger of its old value and 2. *)
Theorem dispatch_first_match (commands : list (Command W)) (name : string)
    (rest : list string) (st : state W) :
  let hit (cmd : Command W) := String.eqb (CmdName W cmd) name && Runnable W cmd in
  (forall pre cmd post,
     commands = pre ++ cmd :: post ->
     Forall (fun c => hit c = false) pre -> hit cmd = true ->
     let args := if CustomFlags W cmd then rest else Parse W cmd rest in
     dispatch W commands name rest st =
       Done tt (State W (Run W cmd args (world W st))
                  (trace W st ++ [Ran (CmdName W cmd) args]) (exitStatus W st))) /\
  (Forall (fun c => hit c = false) commands ->
     dispatch W commands name rest st =
       Done tt (State W (world W st) (trace W st ++ [Unknown name])
                  (Z.max (exitStatus W st) 2))).
Proof.
  cbv zeta. split.
  - intros pre cmd post -> Hpre Hcmd.
    induction Hpre as [|c pre Hc _ IH]; cbn [app dispatch].
    + by rewrite Hcmd.
    + by rewrite Hc.
  - intros Hall. induction Hall as [|c cs Hc _ IH]; cbn [dispatch].
    + unfold bind, emit, setExitStatus. cbn [world trace exitStatus].
      do 2 f_equal. destruct (Z.ltb_spec (exitStatus W st) 2); lia.
    + by rewrite Hc.
Qed.

(** X25. setExitStatus never lowers the exit status: after any run of calls
    the status is the largest of the initial status and the values given,
    and nothing else has changed. *)
Theorem setExitStatus_max (ns : list Z) (st : state W) :
  for_each W (setExitStatus W) ns st =
  Done tt (State W (world W st) (trace W st)
             (fold_left Z.max ns (exitStatus W st))).
Proof.
  revert st. induction ns as [|n ns IH]; intros st; [by destruct st|].
  cbn [for_each fold_left]. unfold bind. unfold setExitStatus at 1.
  rewrite IH. cbn [world trace exitStatus]. do 3 f_equal.
  destruct (Z.ltb_spec (exitStatus W st) n); lia.
Qed.

End CollaboratorFacts.

End IgorFacts.


(** ** Network drivers: [isNetworkDriver] *)

Module Drivers.

(** [strings.Contains]. *)
Fixpoint contains (s sub : string) : bool :=
  String.prefix sub s ||
  match s with
  | EmptyString => false
  | String _ r => contains r sub
  end.

(** [strings.Split(s, " ")]: the fields between single spaces; never the
    empty list. *)
Fixpoint split_space (s : string) : list string :=
  match s with
  | EmptyString => [""]
  | String c r =>
    if Ascii.eqb c " " then "" :: split_space r
    else match split_space r with
         | f :: fs => String c f :: fs
         | [] => [String c ""]
         end
  end.

Definition in_cutset (cutset : string) (c : ascii) : bool :=
  existsb (Ascii.eqb c) (list_ascii_of_string cutset).

Fixpoint trim_left (cutset s : string) : string :=
  match s with
  | EmptyString => ""
  | String c r => if in_cutset cutset c then trim_left cutset r else s
  end.

Fixpoint trim_right (cutset s : string) : string :=
  match s with
  | EmptyString => ""
  | String c r =>
    let r := trim_right cutset r in
    if String.eqb r "" && in_cutset cutset c then "" else String c r
  end.

(** [strings.Trim]. *)
Definition trim (s cutset : string) : string :=
  trim_right cutset (trim_left cutset s).

(** The cutset of the [strings.Trim] call: a double quote and a comma. *)
Definition cutset : string := String (ascii_of_nat 34) ",".

(** The loop over the lines of [kvm -device help], as [bufio.Scanner] yields
    them; [None] is the panic of [parts[1]] on a line without a space. *)
Fixpoint scan (lines : list string) (foundHeader : bool) (drivers : list string)
    : option (list string) :=
  match lines with
  | [] => Some drivers
  | line :: lines =>
    if negb foundHeader && contains line "Network devices:" then
      scan lines true drivers
    else if foundHeader && String.eqb line "" then Some drivers
    else if foundHeader then
      match split_space line with
      | _ :: p1 :: _ =>
        let driver := trim p1 cutset in
        scan lines foundHeader (drivers ++ [driver])
      | _ => None
      end
    else scan lines foundHeader drivers
  end.

(** What the function passed to [KVMNetworkDrivers.Do] computes from the
    lines of the output. *)
Definition detect (lines : list string) : option (list string) :=
  scan lines false [].

(** The final loop of [isNetworkDriver] over the cached drivers. *)
Definition isNetworkDriver (drivers : list string) (driver : string) : bool :=
  existsb (fun d => String.eqb d driver) drivers.

End Drivers.

Module DriversFacts.
Import Drivers.

Definition has_space (s : string) : bool :=
  existsb (Ascii.eqb " ") (list_ascii_of_string s).

Definition first_char (s : string) : option ascii :=
  match s with
  | EmptyString => None
  | String c _ => Some c
  end.

Fixpoint final_char (s : string) : option ascii :=
  match s with
  | EmptyString => None
  | String c EmptyString => Some c
  | String _ r => final_char r
  end.

(** The driver named on a device line: its second field, without the quotes
    and commas around it. *)
Definition driver_of (line : string) : string :=
  trim (nth 1 (split_space line) "") cutset.

(** A name with no space in it and no quote or comma at either end. *)
Definition bare (d : string) : Prop :=
  has_space d = false /\
  (forall c, first_char d = Some c -> in_cutset cutset c = false) /\
  (forall c, final_char d = Some c -> in_cutset cutset c = false).

Lemma has_space_cons c r :
  has_space (String c r) = Ascii.eqb " " c || has_space r.
Proof. reflexivity. Qed.

Lemma split_space_cons s : exists f fs, split_space s = f :: fs.
Proof.
  induction s as [|c r (f & fs & IH)]; [by eexists _, _|].
  cbn. destruct (Ascii.eqb c " "); [by eexists _, _|].
  rewrite IH. by eexists _, _.
Qed.

Lemma split_space_second s :
  has_space s = true <-> exists p0 p1 ps, split_space s = p0 :: p1 :: ps.
Proof.
  induction s as [|c r IH].
  - split; [done|]. by intros (p0 & p1 & ps & [=]).
  - rewrite has_space_cons. cbn [split_space].
    rewrite (Ascii.eqb_sym " " c).
    destruct (Ascii.eqb c " ").
    + split; [intros _|done].
      destruct (split_space_cons r) as (f & fs & ->). by eexists _, _, _.
    + cbn [orb]. rewrite IH.
      destruct (split_space_cons r) as (f & fs & ->).
      destruct fs as [|p1 ps].
      * split; intros (? & ? & ? & [=]).
      * split; intros _; by eexists _, _, _.
Qed.

Lemma split_space_no_space s :
  Forall (fun f => has_space f = false) (split_space s).
Proof.
  induction s as [|c r IH]; [by repeat constructor|].
  cbn. destruct (Ascii.eqb c " ") eqn:E; [by constructor|].
  destruct (split_space r) as [|f fs].
  - constructor; [|constructor].
    by rewrite has_space_cons, Ascii.eqb_sym, E.
  - apply Forall_cons in IH as [Hf Hfs]. constructor; [|done].
    by rewrite has_space_cons, Ascii.eqb_sym, E.
Qed.

Lemma trim_left_bare cut s :
  (has_space s = false -> has_space (trim_left cut s) = false) /\
  (forall c, first_char (trim_left cut s) = Some c -> in_cutset cut c = false).
Proof.
  induction s as [|c r [IH1 IH2]]; [done|].
  cbn [trim_left]. destruct (in_cutset cut c) eqn:E.
  - split; [|done]. intros H. apply IH1. rewrite has_space_cons in H.
    by apply orb_false_iff in H as [_ H].
  - split; [done|]. by intros c' [= <-].
Qed.

Lemma trim_right_bare cut s :
  (has_space s = false -> has_space (trim_right cut s) = false) /\
  (forall c, first_char (trim_right cut s) = Some c -> first_char s = Some c) /\
  (forall c, final_char (trim_right cut s) = Some c -> in_cutset cut c = false).
Proof.
  induction s as [|c r (IH1 & IH2 & IH3)]; [done|].
  cbn [trim_right].
  destruct (trim_right cut r) as [|c1 r1] eqn:Er.
  - cbn [String.eqb andb]. destruct (in_cutset cut c) eqn:E; [done|].
    split; [|split].
    + intros H. rewrite has_space_cons in *.
      apply orb_false_iff in H as [-> _]. done.
    + done.
    + by intros c' [= <-].
  - cbn [String.eqb andb]. split; [|split].
    + intros H. rewrite !has_space_cons in *.
      apply orb_false_iff in H as [-> H]. cbn [orb].
      rewrite <- has_space_cons. by apply IH1.
    + done.
    + intros c'. cbn [final_char]. apply IH3.
Qed.

Lemma trim_bare s : has_space s = false -> bare (trim s cutset).
Proof.
  intros H. unfold trim.
  destruct (trim_left_bare cutset s) as [L1 L2].
  destruct (trim_right_bare cutset (trim_left cutset s)) as (R1 & R2 & R3).
  split; [by apply R1, L1|]. split; [|done].
  intros c Hc. by apply L2, R2.
Qed.

Lemma driver_of_bare line : bare (driver_of line).
Proof.
  unfold driver_of. apply trim_bare.
  pose proof (split_space_no_space line) as H.
  destruct (split_space line) as [|p0 [|p1 ps]]; [done|done|].
  cbn. apply Forall_cons in H as [_ H]. by apply Forall_cons in H as [H _].
Qed.

Lemma scan_before_header pre rest ds :
  Forall (fun l => contains l "Network devices:" = false) pre ->
  scan (pre ++ rest) false ds = scan rest false ds.
Proof.
  induction 1 as [|l pre Hl _ IH]; [done|].
  cbn [app scan negb andb]. by rewrite Hl.
Qed.

Lemma scan_section body rest ds :
  Forall (fun l => l <> "" /\ has_space l = true) body ->
  scan (body ++ rest) true ds = scan rest true (ds ++ map driver_of body).
Proof.
  intros H. revert ds. induction H as [|l body [Hne Hsp] _ IH]; intros ds.
  - cbn. by rewrite app_nil_r.
  - cbn [app scan negb andb map].
    apply String.eqb_neq in Hne. rewrite Hne.
    apply split_space_second in Hsp as (p0 & p1 & ps & E).
    unfold driver_of. rewrite E. cbn [nth]. rewrite IH, <- app_assoc. done.
Qed.



Lemma scan_bare lines fh acc ds :
  scan lines fh acc = Some ds -> Forall bare acc -> Forall bare ds.
Proof.
  revert fh acc. induction lines as [|l lines IH]; intros fh acc.
  - cbn. by intros [= <-].
  - cbn [scan]. destruct (negb fh && contains l "Network devices:"); [apply IH|].
    destruct (fh && String.eqb l ""); [by intros [= <-]|].
    destruct fh; [|apply IH].
    destruct (split_space l) as [|p0 [|p1 ps]] eqn:E; [done|done|].
    intros H Hacc. apply (IH _ _ H). apply Forall_app. split; [done|].
    constructor; [|done].
    pose proof (driver_of_bare l) as Hb. unfold driver_of in Hb.
    by rewrite E in Hb.
Qed.

(** X27. Whatever the output, every driver name detected has no space in
    it and no quote or comma at either end; isNetworkDriver answers true
    exactly for the names in the detected list, so never for a name written
    with a quote or a comma at an end. *)
Theorem detected_drivers_bare (lines : list string) (ds : list string) (d : string) :
  detect lines = Some ds ->
  Forall bare ds /\
  (isNetworkDriver ds d = true <-> In d ds) /\
  (~ bare d -> isNetworkDriver ds d = false).
Proof.
  intros H. assert (Forall bare ds) as Hb by (by eapply scan_bare).
  assert (isNetworkDriver ds d = true <-> In d ds) as Hin.
  { unfold isNetworkDriver. rewrite existsb_exists. split.
    - intros (x & Hx & E). apply String.eqb_eq in E. by subst.
    - intros Hd. exists d. by rewrite String.eqb_refl. }
  split; [done|]. split; [done|].
  intros Hn. destruct (isNetworkDriver ds d) eqn:E; [|done].
  exfalso. apply Hn. rewrite Forall_forall in Hb. apply Hb.
  apply list_elem_of_In. by apply Hin.
Qed.

Lemma detected_drivers_bare_witness :
  isNetworkDriver ["e1000"] "e1000," = false.
Proof.
  apply (proj2 (proj2 (detected_drivers_bare
           ["Network devices:";
            "name " +:+ String (ascii_of_nat 34) "e1000" +:+ String (ascii_of_nat 34) ", bus PCI"]
           ["e1000"] "e1000," ltac:(reflexivity)))).
  intros (_ & _ & H). specialize (H ","%char eq_refl). discriminate H.
Defined.

End DriversFacts.


(** ** miniweb: the shared connection to minimega *)

Module Miniclient.
Import Drivers.

Section Run.
(** The connections of the miniclient package, defined outside miniweb:
    [Error c] is what [c.Error()] returns, an error message or nil; a dial
    on the socket [D] gives a connection or an error.  Modelled from the
    package's convention: a failed dial returns the nil connection. *)
Variable Conn : Type.
Variable Error : Conn -> option string.
Variable D : Type.
Variable Dial : D -> (Conn + string) * D.

(** The package variable [mm], the socket, and the number of dials made. *)
Record state := State { mm : option Conn; net : D; dials : nat }.

(** What [run] returns: the closed channel of [noOp], or the channel of
    [mm.Run] on a connection. *)
Inductive outcome :=
| NoOp
| Ran (c : Conn).

(** [mm, err = miniclient.Dial(base)], with [base] the flag [f_base]. *)
Definition dial (st : state) : option Conn * state :=
  match Dial (net st) with
  | (inl c, d) => (Some c, State (Some c) d (S (dials st)))
  | (inr _, d) => (None, State None d (S (dials st)))
  end.

Definition run (st : state) : outcome * state :=
  let '(m, st) :=
    match mm st with
    | None => dial st
    | Some c => (Some c, st)
    end in
  match m with
  | None => (NoOp, st)
  | Some c =>
    match Error c with
    | Some s =>
      if contains s "broken pipe" || contains s "no such file or directory"
         || contains s "requester disconnected" then
        match dial st with
        | (Some c, st) => (Ran c, st)
        | (None, st) => (NoOp, st)
        end
      else if negb (contains s "requester disconnected") then (NoOp, st)
      else (Ran c, st)
    | None => (Ran c, st)
    end
  end.

End Run.

End Miniclient.

Module MiniclientFacts.
Import Drivers Miniclient.

Section RunFacts.
Variable Conn : Type.
Variable Error : Conn -> option string.
Variable D : Type.
Variable Dial : D -> (Conn + string) * D.

(** An error after which [run] dials again. *)
Definition redials (s : string) : bool :=
  contains s "broken pipe" || contains s "no such file or directory"
  || contains s "requester disconnected".

Lemma dial_cases (st : state Conn D) :
  dials Conn D (dial Conn D Dial st).2 = S (dials Conn D st) /\
  mm Conn D (dial Conn D Dial st).2 = (dial Conn D Dial st).1 /\
  forall c, (dial Conn D Dial st).1 = Some c -> (Dial (net Conn D st)).1 = inl c.
Proof.
  unfold dial. destruct (Dial (net Conn D st)) as [[c|e] d]; cbn; repeat split; try done.
  by intros c' [= <-].
Qed.

(** X28. run hands the command to a connection in two cases only: to the
    connection it already had, when that one reports no error, without
    dialing; or to a connection it has just dialed, which then is the shared
    connection.  It dials at most twice.  When the connection it has reports
    an error that is none of "broken pipe", "no such file or directory" and
    "requester disconnected", run does nothing and keeps that connection. *)
Theorem run_outcomes (st : state Conn D) :
  let r := (run Conn Error D Dial st).1 in
  let st' := (run Conn Error D Dial st).2 in
  (forall c, r = Ran Conn c ->
     mm Conn D st' = Some c /\
     (mm Conn D st = Some c /\ Error c = None /\ st' = st \/
      dials Conn D st < dials Conn D st' /\ exists d, (Dial d).1 = inl c)) /\
  (forall c s, mm Conn D st = Some c -> Error c = Some s ->
     (redials s = false -> r = NoOp Conn /\ st' = st) /\
     (redials s = true -> dials Conn D st' = S (dials Conn D st))) /\
  dials Conn D st' <= dials Conn D st + 2.
Proof.
  cbv zeta. unfold run.
  destruct (mm Conn D st) as [c0|] eqn:Em.
  - destruct (Error c0) as [s|] eqn:Ee.
    + fold (redials s).
      destruct (redials s) eqn:Er.
      * pose proof (dial_cases st) as (Hd & Hm & Hc).
        destruct (dial Conn D Dial st) as [[c1|] st1]; cbn [fst snd] in *.
        -- split; [|split; [|lia]].
           ++ intros c [= <-]. split; [exact Hm|]. right. split; [lia|]. eauto.
           ++ intros c s' [= <-] Hs. rewrite Ee in Hs. injection Hs as <-.
              split; [congruence|done].
        -- split; [done|]. split; [|lia].
           intros c s' [= <-] Hs. rewrite Ee in Hs. injection Hs as <-.
           split; [congruence|done].
      * assert (contains s "requester disconnected" = false) as ->.
        { unfold redials in Er. by apply orb_false_iff in Er as [_ Er]. }
        cbn [negb fst snd]. split; [done|]. split; [|lia].
        intros c s' [= <-] Hs. rewrite Ee in Hs. injection Hs as <-.
        split; [done|congruence].
    + cbn [fst snd]. split; [|split; [|lia]].
      * intros c [= <-]. split; [done|]. by left.
      * intros c s [= <-] Hs. congruence.
  - pose proof (dial_cases st) as (Hd & Hm & Hc).
    destruct (dial Conn D Dial st) as [[c1|] st1]; cbn [fst snd] in *.
    + destruct (Error c1) as [s|] eqn:Ee.
      * fold (redials s). destruct (redials s) eqn:Er.
        -- pose proof (dial_cases st1) as (Hd2 & Hm2 & Hc2).
           destruct (dial Conn D Dial st1) as [[c2|] st2]; cbn [fst snd] in *.
           ++ split; [|split; [done|lia]].
              intros c [= <-]. split; [exact Hm2|]. right. split; [lia|]. eauto.
           ++ split; [done|]. split; [done|lia].
        -- assert (contains s "requester disconnected" = false) as ->.
           { unfold redials in Er. by apply orb_false_iff in Er as [_ Er]. }
           cbn [negb fst snd]. split; [done|]. split; [done|lia].
      * cbn [fst snd]. split; [|split; [done|lia]].
        intros c [= <-]. split; [exact Hm|]. right. split; [lia|]. eauto.
    + split; [done|]. split; [done|lia].
Qed.

End RunFacts.
End MiniclientFacts.

(** ** Launching and flushing a VM: [KvmVM.launch], [KvmVM.Flush] *)

Module Launcher.

(** The fields of [KvmVM] that [launch] and [Flush] read or write. *)
Record KvmVM := VM {
  State : Z;
  Networks : list Args.NetConfig;
  QemuPath : string;
  pid : Z
}.

Definition with_State (s : Z) (v : KvmVM) : KvmVM :=
  VM s (Networks v) (QemuPath v) (pid v).
Definition with_Networks (n : list Args.NetConfig) (v : KvmVM) : KvmVM :=
  VM (State v) n (QemuPath v) (pid v).
Definition with_pid (p : Z) (v : KvmVM) : KvmVM :=
  VM (State v) (Networks v) (QemuPath v) p.

Definition with_Tap (t : string) (n : Args.NetConfig) : Args.NetConfig :=
  {| Args.Bridge := Args.Bridge n; Args.VLAN := Args.VLAN n; Args.MAC := Args.MAC n;
     Args.Tap := t; Args.Driver := Args.Driver n |}.

(** Which step failed, with the message of the collaborator. *)
Inductive error :=
| ErrGetBridge (e : string)
| ErrCreateTap (e : string)
| ErrWriteTaps (e : string)
| ErrProcess (e : string)
| ErrStart (e : string)
| ErrConnectQMP (e : string)
| ErrConnectVNC (e : string)
| ErrBaseFlush (e : string).

(** What is done to taps and to the QEMU process, in order. *)
Inductive event :=
| CreatedTap (bridge tap : string)
| Started (path : string)
| Killed
| DestroyedTap (bridge : option string) (tap : string)
| FlushedBase.

Section Host.
(** The host behind the calls that leave kvm.go: the file system, the
    bridges, the process table and the sockets.  [teardownf] and [mustWrite]
    may end the process instead of returning, which is [None]. *)
Variable H : Type.
Variable DisconnectedVLAN : Z.
Variable MkdirAll : H -> option string * H.
Variable teardownf : H -> option H.
Variable mustWrite : string -> H -> option H.
Variable getBridge : string -> H -> option string.
Variable CreateTap : string -> string -> Z -> H -> (string + string) * H.
Variable writeTaps : list Args.NetConfig -> H -> option string * H.
Variable process : string -> H -> string + string.
Variable cmdStart : string -> H -> (Z + string) * H.
Variable connectQMP : H -> option string * H.
Variable connectVNC : H -> option string * H.
Variable DialSerial : H -> option string * H.
Variable Kill : H -> H.
Variable DestroyTapRaw : string -> H -> option string * H.
Variable DestroyTap : string -> string -> H -> option string * H.
Variable BaseFlush : H -> option string * H.

Record host := Host { hw : H; log : list event }.

Definition emit (e : event) (h : host) : host := Host (hw h) (log h ++ [e]).
Definition on (h : host) (w : H) : host := Host w (log h).

(** Modelled from the spec: [BaseVM.setError] is defined outside kvm.go; it
    moves the VM to [ERROR]. *)
Definition setError (v : KvmVM) : KvmVM := with_State Supervisor.VM_ERROR v.

(** The loop of [launch] over [vm.Networks]: the NICs with their taps, and
    the error that ended the loop, if any. *)
Fixpoint create_taps (nets : list Args.NetConfig) (h : host)
    : list Args.NetConfig * option error * host :=
  match nets with
  | [] => ([], None, h)
  | nic :: nets =>
    if negb (String.eqb (Args.Tap nic) "") then
      let '(nets, e, h) := create_taps nets h in (nic :: nets, e, h)
    else
      match getBridge (Args.Bridge nic) (hw h) with
      | Some err => (nic :: nets, Some (ErrGetBridge err), h)
      | None =>
        match CreateTap (Args.Bridge nic) (Args.MAC nic) (Args.VLAN nic) (hw h) with
        | (inr err, w) => (nic :: nets, Some (ErrCreateTap err), on h w)
        | (inl tap, w) =>
          let h := emit (CreatedTap (Args.Bridge nic) tap) (on h w) in
          let '(nets, e, h) := create_taps nets h in
          (with_Tap tap nic :: nets, e, h)
        end
      end
  end.

(** A call of [launch] returns, or the process ends inside it. *)
Inductive outcome :=
| Return (err : option error) (v : KvmVM) (h : host)
| Exit.

Definition launch (v : KvmVM) (h : host) : outcome :=
  let dir :=
    if (State v =? Supervisor.VM_BUILDING)%Z then
      match MkdirAll (hw h) with
      | (Some _, w) => teardownf w
      | (None, w) => Some w
      end
    else Some (hw h) in
  match dir with
  | None => Exit
  | Some w =>
  match mustWrite "config" w with
  | None => Exit
  | Some w =>
  match mustWrite "name" w with
  | None => Exit
  | Some w =>
  let '(nets, e, h) := create_taps (Networks v) (on h w) in
  let v := with_Networks nets v in
  match e with
  | Some err => Return (Some err) (setError v) h
  | None =>
  let '(e, w) :=
    if (0 <? length (Networks v))%nat then writeTaps (Networks v) (hw h)
    else (None, hw h) in
  let h := on h w in
  match e with
  | Some err => Return (Some (ErrWriteTaps err)) (setError v) h
  | None =>
  let path :=
    if String.eqb (QemuPath v) "" then process "kvm" (hw h)
    else inl (QemuPath v) in
  match path with
  | inr err => Return (Some (ErrProcess err)) v h
  | inl path =>
  match cmdStart path (hw h) with
  | (inr err, w) => Return (Some (ErrStart err)) (setError v) (on h w)
  | (inl p, w) =>
    let h := emit (Started path) (on h w) in
    let v := with_pid p v in
    match connectQMP (hw h) with
    | (Some err, w) =>
        Return (Some (ErrConnectQMP err)) (setError v) (emit Killed (on h (Kill w)))
    | (None, w) =>
      match connectVNC w with
      | (Some err, w) =>
          Return (Some (ErrConnectVNC err)) (setError v) (emit Killed (on h (Kill w)))
      | (None, w) =>
        let '(_, w) := DialSerial w in
        Return None v (on h w)
      end
    end
  end end end end end end end.

(** The loop of [Flush] over [vm.Networks]. *)
Fixpoint destroy_taps (nets : list Args.NetConfig) (h : host) : option error * host :=
  match nets with
  | [] => (None, h)
  | net :: nets =>
    if (Args.VLAN net =? DisconnectedVLAN)%Z then
      let '(_, w) := DestroyTapRaw (Args.Tap net) (hw h) in
      destroy_taps nets (emit (DestroyedTap None (Args.Tap net)) (on h w))
    else
      match getBridge (Args.Bridge net) (hw h) with
      | Some err => (Some (ErrGetBridge err), h)
      | None =>
        let '(_, w) := DestroyTap (Args.Bridge net) (Args.Tap net) (hw h) in
        destroy_taps nets
          (emit (DestroyedTap (Some (Args.Bridge net)) (Args.Tap net)) (on h w))
      end
  end.

Definition Flush (v : KvmVM) (h : host) : option error * host :=
  match destroy_taps (Networks v) h with
  | (Some err, h) => (Some err, h)
  | (None, h) =>
    match BaseFlush (hw h) with
    | (Some err, w) => (Some (ErrBaseFlush err), emit FlushedBase (on h w))
    | (None, w) => (None, emit FlushedBase (on h w))
    end
  end.

End Host.

Arguments Return {H}. Arguments Exit {H}.

End Launcher.

Module LauncherFacts.
Import Launcher.

Section HostFacts.
Variable H : Type.
Variable DisconnectedVLAN : Z.
Variable MkdirAll : H -> option string * H.
Variable teardownf : H -> option H.
Variable mustWrite : string -> H -> option H.
Variable getBridge : string -> H -> option string.
Variable CreateTap : string -> string -> Z -> H -> (string + string) * H.
Variable writeTaps : list Args.NetConfig -> H -> option string * H.
Variable process : string -> H -> string + string.
Variable cmdStart : string -> H -> (Z + string) * H.
Variable connectQMP : H -> option string * H.
Variable connectVNC : H -> option string * H.
Variable DialSerial : H -> option string * H.
Variable Kill : H -> H.
Variable DestroyTapRaw : string -> H -> option string * H.
Variable DestroyTap : string -> string -> H -> option string * H.
Variable BaseFlush : H -> option string * H.

Local Abbreviation create_taps' := (create_taps H getBridge CreateTap).
Local Abbreviation launch' :=
  (launch H MkdirAll teardownf mustWrite getBridge CreateTap writeTaps process
     cmdStart connectQMP connectVNC DialSerial Kill).
Local Abbreviation destroy_taps' :=
  (destroy_taps H DisconnectedVLAN getBridge DestroyTapRaw DestroyTap).
Local Abbreviation Flush' :=
  (Flush H DisconnectedVLAN getBridge DestroyTapRaw DestroyTap BaseFlush).

(** Events of the tap loop. *)
Definition tap_created (e : event) : Prop := exists b t, e = CreatedTap b t.

(** The NICs are the same up to their taps, and a NIC that had a tap keeps
    it. *)
Definition same_nics (old new : list Args.NetConfig) : Prop :=
  map (with_Tap "") new = map (with_Tap "") old /\
  forall i n, old !! i = Some n -> Args.Tap n <> "" -> new !! i = Some n.

Lemma same_nics_refl l : same_nics l l.
Proof. by split. Qed.

Lemma same_nics_cons n n' l l' :
  with_Tap "" n' = with_Tap "" n -> (Args.Tap n <> "" -> n' = n) ->
  same_nics l l' -> same_nics (n :: l) (n' :: l').
Proof.
  intros Hn Ht [H1 H2]. split; [cbn; by rewrite Hn, H1|].
  intros [|i] m; cbn.
  - intros [= <-] Hm. by rewrite Ht.
  - apply H2.
Qed.

(** The errors of the tap loop. *)
Definition tap_error (e : option error) : Prop :=
  match e with
  | None | Some (ErrGetBridge _) | Some (ErrCreateTap _) => True
  | _ => False
  end.

Lemma create_taps_spec nets (h : host H) :
  same_nics nets (create_taps' nets h).1.1 /\
  tap_error (create_taps' nets h).1.2 /\
  exists evs, log H (create_taps' nets h).2 = log H h ++ evs /\ Forall tap_created evs.
Proof.
  revert h. induction nets as [|nic nets IH]; intros h.
  - split; [apply same_nics_refl|]. split; [done|]. exists []. by rewrite app_nil_r.
  - cbn [create_taps].
    destruct (String.eqb_spec (Args.Tap nic) "") as [E|E]; cbn [negb].
    + destruct (getBridge (Args.Bridge nic) (hw H h)) as [err|].
      { split; [apply same_nics_refl|]. split; [done|].
        exists []. by rewrite app_nil_r. }
      destruct (CreateTap _ _ _ _) as [[tap|err] w].
      2: { split; [apply same_nics_refl|]. split; [done|].
           exists []. by rewrite app_nil_r. }
      specialize (IH (emit H (CreatedTap (Args.Bridge nic) tap) (on H h w))).
      destruct (create_taps' nets _) as [[nets' e] h'].
      destruct IH as (Hs & He & evs & Hl & Hev). cbn [fst snd] in *.
      split; [|split; [done|]].
      * apply same_nics_cons; [done|done|done].
      * exists (CreatedTap (Args.Bridge nic) tap :: evs).
        split; [by rewrite Hl; cbn; rewrite <- app_assoc|].
        constructor; [by eexists _, _|done].
    + specialize (IH h). destruct (create_taps' nets h) as [[nets' e] h'].
      destruct IH as (Hs & He & Hev). cbn [fst snd] in *.
      split; [|done]. by apply same_nics_cons.
Qed.



(** What Flush does to the tap of a NIC. *)
Definition tap_event (net : Args.NetConfig) : event :=
  DestroyedTap
    (if (Args.VLAN net =? DisconnectedVLAN)%Z then None else Some (Args.Bridge net))
    (Args.Tap net).

(** The bridge of every connected NIC of the list is found. *)
Definition bridges_found (nets : list Args.NetConfig) : Prop :=
  forall net w, net ∈ nets -> Args.VLAN net <> DisconnectedVLAN ->
    getBridge (Args.Bridge net) w = None.

Lemma destroy_taps_found nets rest (h : host H) :
  bridges_found nets ->
  exists w,
    destroy_taps' (nets ++ rest) h
    = destroy_taps' rest (Host H w (log H h ++ map tap_event nets)).
Proof.
  revert h. induction nets as [|net nets IH]; intros h Hb.
  - exists (hw H h). cbn. rewrite app_nil_r. by destruct h.
  - assert (bridges_found nets) as Hb'.
    { intros n w Hn. apply Hb. by right. }
    cbn [app destroy_taps map]. unfold tap_event at 1.
    destruct (Z.eqb_spec (Args.VLAN net) DisconnectedVLAN) as [E|E].
    + destruct (DestroyTapRaw (Args.Tap net) (hw H h)) as [r w].
      destruct (IH (emit H (DestroyedTap None (Args.Tap net)) (on H h w)) Hb')
        as [w' ->].
      exists w'. cbn. by rewrite <- app_assoc.
    + rewrite (Hb net (hw H h)) by (done || by left).
      destruct (DestroyTap (Args.Bridge net) (Args.Tap net) (hw H h)) as [r w].
      destruct (IH (emit H (DestroyedTap (Some (Args.Bridge net)) (Args.Tap net))
                      (on H h w)) Hb') as [w' ->].
      exists w'. cbn. by rewrite <- app_assoc.
Qed.

(** X30. Flush asks for the tap of every NIC to be destroyed, in order, on
    its bridge or directly when the NIC is disconnected, and then runs the
    base cleanup, whose error is the only one it can return: a tap that
    cannot be destroyed never makes Flush fail.  This holds as long as the
    bridge of every connected NIC is found.  At the first connected NIC
    whose bridge is not found Flush returns that error at once: the taps of
    the NICs after it are not destroyed and the base cleanup does not
    run. *)
Theorem Flush_outcomes (v : KvmVM) (h : host H) :
  (bridges_found (Networks v) ->
     log H (Flush' v h).2
       = log H h ++ map tap_event (Networks v) ++ [FlushedBase] /\
     match (Flush' v h).1 with
     | None | Some (ErrBaseFlush _) => True
     | Some _ => False
     end) /\
  (forall pre net post e,
     Networks v = pre ++ net :: post ->
     bridges_found pre ->
     Args.VLAN net <> DisconnectedVLAN ->
     (forall w, getBridge (Args.Bridge net) w = Some e) ->
     Flush' v h = (Some (ErrGetBridge e), (Flush' v h).2) /\
     log H (Flush' v h).2 = log H h ++ map tap_event pre).
Proof.
  unfold Flush. split.
  - intros Hb.
    destruct (destroy_taps_found (Networks v) [] h Hb) as [w Hd].
    rewrite app_nil_r in Hd. rewrite Hd. cbn [destroy_taps hw].
    destruct (BaseFlush w) as [[err|] w']; cbn; by rewrite <- app_assoc.
  - intros pre net post e -> Hb Hv He.
    destruct (destroy_taps_found pre (net :: post) h Hb) as [w ->].
    cbn [destroy_taps hw].
    destruct (Z.eqb_spec (Args.VLAN net) DisconnectedVLAN) as [E|E]; [done|].
    rewrite He. done.
Qed.

End HostFacts.
End LauncherFacts.
